(** * lnk-parser: a shallow embedding of the shell-link decoder

    The development follows the TypeScript sources file by file:
    - [Js]      the fragment of JavaScript semantics the sources rely on
                (32-bit bitwise operators, UTF-16 strings, Buffer reads,
                binary64 rounding);
    - [Util]    src/util.ts;
    - [IDList]  src/LinkTargetIDList.ts;
    - [Parser]  src/LNKParser.ts;
    - [Wire]    the byte layouts the properties are stated over;
    - [Samples] concrete inputs.
    Theorems come after the definitions. *)

From Stdlib Require Import ZArith QArith Qround Qabs Qpower Lia Lqa List String Ascii.
From Stdlib Require Import Strings.Byte.
From stdpp Require Import base list.

Local Open Scope Z_scope.

(* ===================================================================== *)
(** ** JavaScript primitives *)
(* ===================================================================== *)

Module Js.

(** A JavaScript string is a sequence of UTF-16 code units. *)
Abbreviation jsstring := (list Z).

(** The code units of an ASCII literal of the sources. *)
Definition lit (s : string) : jsstring :=
  map (fun a => Z.of_N (N_of_ascii a)) (list_ascii_of_string s).

(** [number[]]: the arrays of the sources hold integers. *)
Abbreviation numbers := (list Z).

(** A Node.js [Buffer]: a fixed sequence of octets. *)
Abbreviation Buffer := (list byte).

Definition byte_to_Z (b : byte) : Z := Z.of_N (Byte.to_N b).

(** [Array.from(buffer)] *)
Definition array_from (b : Buffer) : numbers := map byte_to_Z b.

(** ToInt32: wrap an integer to the signed 32-bit range. *)
Definition to_int32 (x : Z) : Z := (x + 2 ^ 31) mod 2 ^ 32 - 2 ^ 31.

(** ToInt32 of an array read: [undefined] (index out of range) becomes 0. *)
Definition int32_of (o : option Z) : Z :=
  match o with Some v => to_int32 v | None => 0 end.

(** [a << n], [a >> n], [a | b], [a & b] on already converted operands. *)
Definition shl (a n : Z) : Z := to_int32 (Z.shiftl a n).
Definition sar (a n : Z) : Z := Z.shiftr a n.
Definition bor (a b : Z) : Z := Z.lor a b.
Definition band (a b : Z) : Z := Z.land a b.

(** [String.fromCharCode(x)]: ToUint16 of the argument; [undefined] gives
    the NUL character. *)
Definition fromCharCode (o : option Z) : Z :=
  match o with Some v => v mod 65536 | None => 0 end.

(** [arr[i]] for a non-negative index. *)
Definition at_ {A} (l : list A) (i : Z) : option A :=
  if i <? 0 then None else l !! Z.to_nat i.

(** [arr.slice(s, e)] and [arr.slice(s)] for non-negative bounds (the only
    ones the sources pass); both clamp at the end of the array. *)
Definition slice {A} (l : list A) (s e : Z) : list A :=
  take (Z.to_nat e - Z.to_nat s)%nat (drop (Z.to_nat s) l).
Definition slice_from {A} (l : list A) (s : Z) : list A := drop (Z.to_nat s) l.

(** [str.substr(s, n)] *)
Definition substr (str : jsstring) (s n : nat) : jsstring := take n (drop s str).

(** What a call can throw: the [RangeError] of a Buffer read outside the
    buffer, or a string (the sources throw string literals). *)
Inductive error :=
  | RangeError
  | ThrownString (s : jsstring).

Inductive outcome (A : Type) :=
  | Ok (a : A)
  | Throw (e : error)
  | OutOfFuel.                (* the loop bound of the model was reached *)
Arguments Ok {A} a.
Arguments Throw {A} e.
Arguments OutOfFuel {A}.

Definition bind {A B} (m : outcome A) (f : A -> outcome B) : outcome B :=
  match m with
  | Ok a => f a
  | Throw e => Throw e
  | OutOfFuel => OutOfFuel
  end.

(** Little-endian value of a run of octets. *)
Fixpoint le_value (l : list byte) : Z :=
  match l with
  | [] => 0
  | b :: r => byte_to_Z b + 256 * le_value r
  end.

(** [buf.readUIntLE(offset, n)]: throws unless
    [0 <= offset <= buf.length - n]. *)
Definition readUIntLE (buf : Buffer) (offset : Z) (n : nat) : outcome Z :=
  if (0 <=? offset) && (offset + Z.of_nat n <=? Z.of_nat (length buf))
  then Ok (le_value (take n (drop (Z.to_nat offset) buf)))
  else Throw RangeError.

Definition readUInt16LE (buf : Buffer) (offset : Z) : outcome Z :=
  readUIntLE buf offset 2.
Definition readUInt32LE (buf : Buffer) (offset : Z) : outcome Z :=
  readUIntLE buf offset 4.
Definition readInt32LE (buf : Buffer) (offset : Z) : outcome Z :=
  bind (readUIntLE buf offset 4) (fun v => Ok (to_int32 v)).

(** [buf.readBigInt64LE(offset)]: a signed 64-bit integer. *)
Definition to_int64 (x : Z) : Z := (x + 2 ^ 63) mod 2 ^ 64 - 2 ^ 63.
Definition readBigInt64LE (buf : Buffer) (offset : Z) : outcome Z :=
  bind (readUIntLE buf offset 8) (fun v => Ok (to_int64 v)).

(** *** Numbers: IEEE 754 binary64, round to nearest, ties to even

    A finite Number is the rational it denotes. Every arithmetic
    operator returns the binary64 value nearest to the exact result.
    Overflow to an infinity is not modelled: the magnitudes of this
    program stay below [2 ^ 64]. *)

(** Nearest integer, ties to even. *)
Definition round_half_even (q : Q) : Z :=
  let f := Qfloor q in
  match Qcompare (q - inject_Z f) (1 # 2) with
  | Lt => f
  | Gt => f + 1
  | Eq => if Z.even f then f else f + 1
  end.

(** [floor (log2 |q|)] of a non-zero rational. *)
Definition ilog2 (q : Q) : Z :=
  let n := Z.abs (Qnum q) in
  let d := Zpos (Qden q) in
  let k := Z.log2 n - Z.log2 d in
  let reached := if 0 <=? k then d * 2 ^ k <=? n else d <=? n * 2 ^ (- k) in
  if reached then k else k - 1.

(** [q * 2 ^ e] *)
Definition scale2 (q : Q) (e : Z) : Q :=
  if 0 <=? e then (q * inject_Z (2 ^ e))%Q else (q / inject_Z (2 ^ (- e)))%Q.

(** The binary64 value nearest to [q]: 53 significant bits, least
    exponent -1074. *)
Definition fl (q : Q) : Q :=
  let q := Qred q in
  if Qeq_bool q 0 then 0%Q
  else
    let e := Z.max (ilog2 q - 52) (- 1074) in
    scale2 (inject_Z (round_half_even (scale2 q (- e)))) e.

Definition fdiv (a b : Q) : Q := fl (a / b).
Definition fsub (a b : Q) : Q := fl (a - b).
Definition fmul (a b : Q) : Q := fl (a * b).

(** [Number(n)] of a BigInt. *)
Definition Number_of_BigInt (n : Z) : Q := fl (inject_Z n).

(** A [Date] is its time value in milliseconds; [None] is an invalid
    date (time value NaN). *)
Definition Date := option Z.

(** ToIntegerOrInfinity on a finite number: truncation towards zero. *)
Definition trunc (q : Q) : Z := if Qle_bool 0 q then Qfloor q else Qceiling q.

(** [new Date(value)]: TimeClip. *)
Definition new_Date (value : Q) : Date :=
  if Qle_bool (Qabs value) (inject_Z 8640000000000000) then Some (trunc value)
  else None.

End Js.

(* ===================================================================== *)
(** ** src/util.ts *)
(* ===================================================================== *)

Module Util.
Import Js.

(** [guidFromIDLBytes(bytes)]: three packed fields followed by the bytes
    from index 8 on. An index past the end reads [undefined], which the
    bitwise operators turn into 0. *)
Definition guidFromIDLBytes (bytes : numbers) : numbers :=
  let b i := int32_of (bytes !! i) in
  [ bor (bor (bor (shl (b 3%nat) 24) (shl (b 2%nat) 16)) (shl (b 1%nat) 8)) (b 0%nat);
    bor (shl (b 5%nat) 8) (b 4%nat);
    bor (shl (b 7%nat) 8) (b 6%nat) ]
  ++ drop 8 bytes.

(** [hexToChar(num)] *)
Definition hexToChar (num : Z) : Z :=
  let num := band (to_int32 num) 15 in
  fromCharCode (Some (if 9 <? num then num - 10 + 97 else num + 48)).

(** [formatGUID(guid)]. The entries of [data] are only ever used as
    operands of [>>] and [&], so an [undefined] entry is kept as 0 and
    ToInt32 is applied where the operators apply it. *)
Definition formatGUID (guid : numbers) : jsstring :=
  let g i := int32_of (guid !! i) in
  let data :=
    [ sar (g 0%nat) 24; sar (g 0%nat) 16; sar (g 0%nat) 8; g 0%nat;
      sar (g 1%nat) 8; g 1%nat;
      sar (g 2%nat) 8; g 2%nat ] ++ drop 3 guid in
  let newData := flat_map (fun d => [sar (to_int32 d) 4; d]) data in
  let hexString := map hexToChar newData in
  lit "{" ++ substr hexString 0 8 ++ lit "-" ++ substr hexString 8 4 ++ lit "-"
    ++ substr hexString 12 4 ++ lit "-" ++ substr hexString 16 4 ++ lit "-"
    ++ drop 20 hexString ++ lit "}".

(** [readCString(buffer, offset)]: the loop stops at the first code unit 0;
    past the end of the array the read is [undefined], whose character is
    NUL, so the loop also stops there. The recursion runs over the
    elements from [offset] on. *)
Fixpoint readCString_loop (rest : numbers) : jsstring :=
  match rest with
  | [] => []
  | b :: rest' =>
      let currentChar := fromCharCode (Some b) in
      if currentChar =? 0 then [] else currentChar :: readCString_loop rest'
  end.
Definition readCString (buffer : numbers) (offset : nat) : jsstring :=
  readCString_loop (drop offset buffer).

(** [readCUnicode(buffer, offset)]: two elements per step, combined as
    [(buffer[offset+1] << 8) | buffer[offset]]. *)
Definition unicodeChar (lo hi : option Z) : Z :=
  fromCharCode (Some (bor (shl (int32_of hi) 8) (int32_of lo))).

Fixpoint readCUnicode_loop (rest : numbers) : jsstring :=
  match rest with
  | [] => []
  | [lo] =>
      let currentChar := unicodeChar (Some lo) None in
      if currentChar =? 0 then [] else [currentChar]
  | lo :: hi :: rest' =>
      let currentChar := unicodeChar (Some lo) (Some hi) in
      if currentChar =? 0 then [] else currentChar :: readCUnicode_loop rest'
  end.
Definition readCUnicode (buffer : numbers) (offset : nat) : jsstring :=
  readCUnicode_loop (drop offset buffer).

(** [readString(buffer, offset, length)] *)
Definition readString (buffer : numbers) (offset length : nat) : jsstring :=
  map (fun i => fromCharCode (buffer !! i)) (seq offset length).

(** [dateFromFILETIME(filetime)]. [tzOffset] is what
    [new Date().getTimezoneOffset()] returns at the time of the call, in
    minutes; [116444736e5] is the literal of the source. *)
Definition literal_116444736e5 : Q := inject_Z (116444736 * 10 ^ 5).

Definition dateFromFILETIME (tzOffset : Q) (filetime : Q) : Date :=
  new_Date
    (fsub (fsub (fdiv filetime (inject_Z 10000)) literal_116444736e5)
          (fmul (fmul tzOffset (inject_Z 60)) (inject_Z 1000))).

End Util.


(* ===================================================================== *)
(** ** src/LinkTargetIDList.ts *)
(* ===================================================================== *)

Module IDList.
Import Js Util.

(** [enum TargetRoots] and the table [TargetRootGuids], an object used as
    a map from GUID strings to roots. *)
Definition MyComputer : jsstring := lit "MY_COMPUTER".

Definition TargetRootGuids : list (jsstring * jsstring) :=
  [ (lit "{20D04FE0-3AEA-1069-A2D8-08002B30309D}", MyComputer) ].

Definition Object_keys {V} (o : list (jsstring * V)) : list jsstring := map fst o.

Definition includes (l : list jsstring) (s : jsstring) : bool :=
  existsb (fun k => bool_decide (k = s)) l.

Fixpoint property {V} (o : list (jsstring * V)) (k : jsstring) : option V :=
  match o with
  | [] => None
  | (k', v) :: o' => if bool_decide (k' = k) then Some v else property o' k
  end.

(** [enum LinkTargetIDItemTypes] *)
Definition RootEntry : Z := 0x1f.
Definition DriveLetter : Z := 0x2f.
Definition Directory : Z := 0x31.
Definition DirectoryUnicode : Z := 0x35.
Definition File : Z := 0x32.
Definition FileUnicode : Z := 0x36.
Definition UserDirectory : Z := 0x74.

Record LinkTargetIDItem := mkItem { itemType : Z; value : numbers }.

(** The constructor: an [undefined] first argument takes the default
    [RootEntry]. *)
Definition new_LinkTargetIDItem (itemType : option Z) (value : numbers)
  : LinkTargetIDItem :=
  mkItem (default RootEntry itemType) value.

Record LinkTargetIDList := mkList {
  valid : bool;
  items : list LinkTargetIDItem;
  cachedPath : option jsstring
}.

(** [new LinkTargetIDList()] *)
Definition new_LinkTargetIDList : LinkTargetIDList := mkList true [] None.

Definition backslash : jsstring := [92].

(** One turn of the [for ... of] loop of [getPath]: the [switch] on the
    item type, its cases tried in the order they are written. The
    [console.log] before the second throw writes to the console only and
    is left out. *)
Definition getPath_item (path : jsstring) (item : LinkTargetIDItem)
  : outcome jsstring :=
  let ty := itemType item in
  if ty =? RootEntry then
    let guid := guidFromIDLBytes (value item) in
    let guidString := formatGUID guid in
    if includes (Object_keys TargetRootGuids) guidString then
      match property TargetRootGuids guidString with
      | Some root => Ok (path ++ root)
      | None => Ok path
      end
    else Ok path
  else if ty =? DriveLetter then
    Ok (path ++ map (fun char => fromCharCode (Some char)) (slice (value item) 0 3))
  else if ty =? Directory then
    let readOffset := 11%nat in
    let shortName := readCString (value item) readOffset in
    Ok (path ++ shortName ++ backslash)
  else if ty =? UserDirectory then
    let signature := readString (value item) 3 4 in
    if bool_decide (signature = lit "CF" ++ [0; 0]) then
      Throw (ThrownString (lit "Method not implemented"))
    else if bool_decide (signature = lit "CFSF") then
      let folderName := readCString (value item) 21 in
      Ok (path ++ lit "%USERPROFILE%" ++ backslash ++ folderName ++ backslash)
    else Throw (ThrownString (lit "Invalid signature!"))
  else if (ty =? File) || (ty =? Directory) || (ty =? FileUnicode)
          || (ty =? DirectoryUnicode) then
    let isUnicode := (ty =? DirectoryUnicode) || (ty =? FileUnicode) in
    let isDirectory := (ty =? DirectoryUnicode) || (ty =? Directory) in
    let path := path ++ (if isUnicode then readCUnicode else readCString) (value item) 11%nat in
    Ok (if isDirectory then path ++ backslash else path)
  else Ok path.

Fixpoint getPath_loop (its : list LinkTargetIDItem) (path : jsstring)
  : outcome jsstring :=
  match its with
  | [] => Ok path
  | item :: its' => bind (getPath_item path item) (getPath_loop its')
  end.

(** [getPath()]: the method reads [this.items] and, when the loop
    completes, writes [this.cachedPath]; a throw leaves the object as it
    was. *)
Definition getPath (this : LinkTargetIDList) : outcome jsstring * LinkTargetIDList :=
  match getPath_loop (items this) [] with
  | Ok path => (Ok path, mkList (valid this) (items this) (Some path))
  | Throw e => (Throw e, this)
  | OutOfFuel => (OutOfFuel, this)
  end.

(** The local variables of [parse] when its [while] loop is left. *)
Record parse_locals := mkLocals {
  l_items : list LinkTargetIDItem;
  l_readOffset : Z;
  l_remainingBytes : Z
}.

(** The [while (remainingBytes > 2)] loop of [parse]. An item of size 0
    makes the source loop for ever; the model stops after [fuel] turns. *)
Fixpoint parse_loop (fuel : nat) (buffer : Buffer) (items : list LinkTargetIDItem)
    (readOffset remainingBytes : Z) : outcome parse_locals :=
  if 2 <? remainingBytes then
    match fuel with
    | O => OutOfFuel
    | S fuel' =>
        bind (readUInt16LE buffer readOffset) (fun shellItemSize =>
          let readOffset := readOffset + 2 in
          let items :=
            items ++
            [ new_LinkTargetIDItem
                (byte_to_Z <$> at_ buffer readOffset)
                (array_from (slice buffer (readOffset + 1)
                                          (readOffset + shellItemSize + 1))) ] in
          let remainingBytes := remainingBytes - shellItemSize in
          let readOffset := readOffset + (shellItemSize - 2) in
          parse_loop fuel' buffer items readOffset remainingBytes)
    end
  else Ok (mkLocals items readOffset remainingBytes).

(** [LinkTargetIDList.parse(buffer)] *)
Definition parse (fuel : nat) (buffer : Buffer) : outcome LinkTargetIDList :=
  let linkTargetIDList := new_LinkTargetIDList in
  bind (readUIntLE buffer 0 2) (fun size =>
  bind (parse_loop fuel buffer [] 2 size) (fun locals =>
  Ok (mkList (valid linkTargetIDList) (l_items locals)
             (cachedPath linkTargetIDList)))).

End IDList.

(* ===================================================================== *)
(** ** src/LNKParser.ts *)
(* ===================================================================== *)

Module Parser.
Import Js Util.

Definition VALID_HEADER_SIZE : Z := 0x4c.

Definition VALID_LINK_CLSID : numbers := [136193; 0; 0; 192; 0; 0; 0; 0; 0; 0; 70].

(** A value found in an enum object: a name or a number. *)
Inductive jsvalue :=
  | JsString (s : jsstring)
  | JsNumber (n : Z).

(** [enum ShowCommands]. TypeScript compiles a numeric enum to an object
    holding both directions; its own properties are enumerated with the
    integer keys first, in ascending order, then the names in creation
    order. *)
Definition Normal : Z := 0x00000001.
Definition Maximized : Z := 0x00000003.
Definition MinimizedWithoutFocus : Z := 0x00000007.

Definition ShowCommands : list (jsstring * jsvalue) :=
  [ (lit "1", JsString (lit "Normal"));
    (lit "3", JsString (lit "Maximized"));
    (lit "7", JsString (lit "MinimizedWithoutFocus"));
    (lit "Normal", JsNumber Normal);
    (lit "Maximized", JsNumber Maximized);
    (lit "MinimizedWithoutFocus", JsNumber MinimizedWithoutFocus) ].

Definition Object_values {V} (o : list (jsstring * V)) : list V := map snd o.

(** [values.includes(x)] for a number [x]: a string never equals it. *)
Definition includes_number (values : list jsvalue) (x : Z) : bool :=
  existsb (fun v => match v with JsNumber n => n =? x | JsString _ => false end)
          values.

(** [arrayEquals(arr1, arr2)] *)
Definition arrayEquals (arr1 arr2 : numbers) : bool :=
  (length arr1 =? length arr2)%nat
  && forallb (fun p => bool_decide (arr2 !! fst p = Some (snd p)))
             (imap pair arr1).

Record LNKIcon := mkIcon { location : jsstring; iconIndex : Z }.

(** Modelled from the spec: src/HotKeyFlags.ts is missing; a hotkey is a
    key code and a modifier bitfield, and the constructor receives the two
    bytes read at header offsets 64 and 65 ([undefined] past the end). *)
Record HotKeyFlags := mkHotKey { key : option Z; modifiers : option Z }.

Inductive Target :=
  | TargetList (l : IDList.LinkTargetIDList)
  | TargetString (s : jsstring).

Record LNKFile := mkFile {
  headerSize : Z;
  linkCLSID : numbers;
  linkFlags : Z;
  targetAttributeFlags : Z;
  targetCreationDate : Date;
  targetAccessDate : Date;
  targetWriteDate : Date;
  targetFileSize : Z;
  valid : bool;
  icon : option LNKIcon;
  showCommand : Z;
  hotKey : HotKeyFlags;
  target : Target
}.

(** The parser object: the read cursor and the buffer. *)
Record LNKParser := mkParser { offset : Z; buffer : Buffer }.

(** Methods run in a state monad over the parser object; a throw keeps
    the object as it is at that point. *)
Definition M (A : Type) : Type := LNKParser -> outcome A * LNKParser.

Definition ret {A} (a : A) : M A := fun this => (Ok a, this).

Definition bindM {A B} (m : M A) (f : A -> M B) : M B :=
  fun this =>
    match m this with
    | (Ok a, this') => f a this'
    | (Throw e, this') => (Throw e, this')
    | (OutOfFuel, this') => (OutOfFuel, this')
    end.

Notation "x <- m ;; k" := (bindM m (fun x => k))
  (at level 60, m at next level, right associativity).

Definition this_offset : M Z := fun this => (Ok (offset this), this).
Definition this_buffer : M Buffer := fun this => (Ok (buffer this), this).
Definition set_offset (o : Z) : M unit :=
  fun this => (Ok tt, mkParser o (buffer this)).
Definition lift {A} (r : outcome A) : M A := fun this => (r, this).

(** [readGUID_IDL(advance, location)]; [location = None] is the default
    argument [this.offset]. *)
Definition readGUID_IDL (advance : bool) (location : option Z) : M numbers :=
  cur <- this_offset ;;
  let location := default cur location in
  buf <- this_buffer ;;
  let guid := slice buf location (location + 16) in
  _ <- (if advance then o <- this_offset ;; set_offset (o + 16) else ret tt) ;;
  ret (guidFromIDLBytes (array_from guid)).

(** [readFileTime(advance, offset)]; [tzOffset] as in
    [Util.dateFromFILETIME]. *)
Definition readFileTime (tzOffset : Q) (advance : bool) (offset : option Z) : M Date :=
  cur <- this_offset ;;
  let offset := default cur offset in
  buf <- this_buffer ;;
  ticks <- lift (readBigInt64LE buf offset) ;;
  ret (dateFromFILETIME tzOffset (Number_of_BigInt ticks)).

(** [this.buffer.read...(this.offset + readOffset)] *)
Definition read_at {A} (f : Buffer -> Z -> outcome A) (readOffset : Z) : M A :=
  buf <- this_buffer ;;
  cur <- this_offset ;;
  lift (f buf (cur + readOffset)).

(** [parseHeader(advance)]. The fields of the fresh [LNKFile] are
    assigned one by one in the source; nobody sees the object before it
    is returned, so the model builds it at the end. *)
Definition parseHeader (tzOffset : Q) (fuel : nat) (advance : bool) : M LNKFile :=
  let valid := true in
  let readOffset := 0 in
  headerSize <- read_at readInt32LE 0 ;;
  let readOffset := readOffset + 4 in
  let valid := if negb (headerSize =? VALID_HEADER_SIZE) then false else valid in
  cur <- this_offset ;;
  linkCLSID <- readGUID_IDL false (Some (cur + readOffset)) ;;
  let readOffset := readOffset + 16 in
  let valid := if negb (arrayEquals linkCLSID VALID_LINK_CLSID) then false else valid in
  linkFlags <- read_at readInt32LE readOffset ;;
  let readOffset := readOffset + 4 in
  targetAttributeFlags <- read_at readInt32LE readOffset ;;
  let readOffset := readOffset + 4 in
  cur <- this_offset ;;
  targetCreationDate <- readFileTime tzOffset false (Some (cur + readOffset)) ;;
  let readOffset := readOffset + 8 in
  cur <- this_offset ;;
  targetAccessDate <- readFileTime tzOffset false (Some (cur + readOffset)) ;;
  let readOffset := readOffset + 8 in
  cur <- this_offset ;;
  targetWriteDate <- readFileTime tzOffset false (Some (cur + readOffset)) ;;
  let readOffset := readOffset + 8 in
  targetFileSize <- read_at readUInt32LE readOffset ;;
  let readOffset := readOffset + 4 in
  iconIndex <- read_at readInt32LE readOffset ;;
  let icon := mkIcon [] iconIndex in
  let readOffset := readOffset + 4 in
  showCommand <- read_at readUInt32LE readOffset ;;
  let readOffset := readOffset + 4 in
  let showCommand :=
    if negb (includes_number (Object_values ShowCommands) showCommand)
    then Normal else showCommand in
  buf <- this_buffer ;;
  cur <- this_offset ;;
  let hotKey := mkHotKey (byte_to_Z <$> at_ buf (cur + readOffset))
                         (byte_to_Z <$> at_ buf (cur + readOffset + 1)) in
  let readOffset := readOffset + 12 in
  target <- lift (IDList.parse fuel (slice_from buf (cur + readOffset))) ;;
  let called := IDList.getPath target in
  _ <- lift (fst called) ;;
  let target := snd called in
  let readOffset := if advance then readOffset + VALID_HEADER_SIZE else readOffset in
  ret (mkFile headerSize linkCLSID linkFlags targetAttributeFlags
              targetCreationDate targetAccessDate targetWriteDate
              targetFileSize valid (Some icon) showCommand hotKey
              (TargetList target)).

(** [parse()] *)
Definition parse (tzOffset : Q) (fuel : nat) : M LNKFile :=
  parseHeader tzOffset fuel true.

(** [new LNKParser(buffer)] *)
Definition new_LNKParser (buffer : Buffer) : LNKParser := mkParser 0 buffer.

End Parser.

(* ===================================================================== *)
(** ** The binary layout, as the specification words it

    Byte sequences used to state the properties below. *)
(* ===================================================================== *)

Module Wire.
Import Js.

(** The first 20 bytes of a valid header: the size 76 as a 32-bit
    little-endian integer, then the class identifier
    {00021401-0000-0000-C000-000000000046} in the GUID wire layout. *)
Definition valid_prefix : Buffer :=
  [ x4c; x00; x00; x00;
    x01; x14; x02; x00;  x00; x00;  x00; x00;
    xc0; x00; x00; x00; x00; x00; x00; x46 ].

(** A 76-byte header: the valid prefix, link flags 0, attribute flags 0,
    three zero timestamps, target size 0, icon index 0, show command 1,
    hotkey 0 and 10 reserved zero bytes. *)
Definition minimal_header : Buffer :=
  valid_prefix
  ++ [x00; x00; x00; x00] ++ [x00; x00; x00; x00]
  ++ repeat x00 8 ++ repeat x00 8 ++ repeat x00 8
  ++ [x00; x00; x00; x00] ++ [x00; x00; x00; x00]
  ++ [x01; x00; x00; x00]
  ++ [x00; x00] ++ repeat x00 10.

(** An ID list without items: the size prefix 2. *)
Definition empty_id_list : Buffer := [x02; x00].

(** *** Well-formed ID lists

    A 2-byte little-endian size S, the items, a 2-byte zero terminator;
    S counts the items and the terminator. An item is its 2-byte
    little-endian size (which counts these two bytes), a tag byte and
    the payload. *)

Record raw_item := mkRaw { tag : byte; payload : list byte }.

Definition item_size (it : raw_item) : Z := 3 + Z.of_nat (length (payload it)).

Definition byte_of_Z (z : Z) : byte :=
  default x00 (Byte.of_N (Z.to_N (z mod 256))).

Definition le16 (n : Z) : Buffer := [byte_of_Z n; byte_of_Z (n / 256)].

Definition encode_item (it : raw_item) : Buffer :=
  le16 (item_size it) ++ tag it :: payload it.

Definition encode_items (its : list raw_item) : Buffer :=
  flat_map encode_item its.

Definition items_size (its : list raw_item) : Z :=
  fold_right (fun it acc => item_size it + acc) 0 its.

Definition terminator : Buffer := [x00; x00].

Definition encode_id_list (its : list raw_item) : Buffer :=
  le16 (items_size its + 2) ++ encode_items its ++ terminator.

(** The declared size fits its 16-bit field. *)
Definition well_formed (its : list raw_item) : Prop :=
  items_size its + 2 < 65536.

(** The items [IDList.parse] is shown to build from a well-formed list
    followed by [tail]: the value of each holds as many bytes as the item
    size says, counted from the payload on, so the payload and up to three
    of the bytes that follow the item. *)
Fixpoint parsed_items (its : list raw_item) (tail : Buffer)
  : list IDList.LinkTargetIDItem :=
  match its with
  | [] => []
  | it :: its' =>
      IDList.mkItem (byte_to_Z (tag it))
        (array_from (payload it ++ take 3 (encode_items its' ++ tail)))
      :: parsed_items its' tail
  end.

(** *** GUID display strings: {8hex-4hex-4hex-4hex-12hex} *)

Definition is_lower_hex (c : Z) : bool :=
  ((48 <=? c) && (c <=? 57)) || ((97 <=? c) && (c <=? 102)).

(** The lowercase hex digit of a nibble, and back. *)
Definition hex_digit (n : Z) : Z := if n <? 10 then n + 48 else n + 87.
Definition hex_value (c : Z) : Z := if c <=? 57 then c - 48 else c - 87.

(** Two lowercase hex digits per byte. *)
Definition hex_of_bytes (l : list Z) : jsstring :=
  flat_map (fun z => [hex_digit (z / 16); hex_digit (z mod 16)]) l.

(** The 32 characters at the digit positions of the pattern. *)
Definition guid_digits (s : jsstring) : jsstring :=
  substr s 1 8 ++ substr s 10 4 ++ substr s 15 4 ++ substr s 20 4 ++ substr s 25 12.

(** [s] has the form {8hex-4hex-4hex-4hex-12hex}, digits in lowercase. *)
Definition guid_pattern (s : jsstring) : bool :=
  (length s =? 38)%nat
  && bool_decide (s !! 0%nat = Some 123) && bool_decide (s !! 9%nat = Some 45)
  && bool_decide (s !! 14%nat = Some 45) && bool_decide (s !! 19%nat = Some 45)
  && bool_decide (s !! 24%nat = Some 45) && bool_decide (s !! 37%nat = Some 125)
  && forallb is_lower_hex (guid_digits s).

(** Two hex digits per byte, most significant first. *)
Fixpoint bytes_of_hex (digits : jsstring) : list Z :=
  match digits with
  | hi :: lo :: rest => (16 * hex_value hi + hex_value lo) :: bytes_of_hex rest
  | _ => []
  end.

(** From display order to wire order: the first field is stored as a
    little-endian 32-bit integer, the next two as little-endian 16-bit
    integers, the last eight bytes as they are. *)
Definition wire_order (display : list Z) : list Z :=
  reverse (take 4 display) ++ reverse (take 2 (drop 4 display))
  ++ reverse (take 2 (drop 6 display)) ++ drop 8 display.

(** The bytes a GUID display string stands for, in wire order. *)
Definition guid_bytes_of_string (s : jsstring) : list Z :=
  wire_order (bytes_of_hex (guid_digits s)).

End Wire.

(* ===================================================================== *)
(** ** Concrete inputs *)
(* ===================================================================== *)

Module Samples.
Import Js.

(** The minimal shortcut: the minimal header, an empty ID list and its
    terminator. *)
Definition minimal_shortcut : Buffer :=
  Wire.minimal_header ++ Wire.empty_id_list ++ Wire.terminator.

(** The record the minimal shortcut parses to in a zone of offset 0; a
    zero tick count is 1601-01-01, that is -11644473600000 ms. *)
Definition minimal_file : Parser.LNKFile :=
  Parser.mkFile 76 [136193; 0; 0; 192; 0; 0; 0; 0; 0; 0; 70] 0 0
    (Some (-11644473600000)) (Some (-11644473600000)) (Some (-11644473600000))
    0 true (Some (Parser.mkIcon [] 0)) 1
    (Parser.mkHotKey (Some 0) (Some 0))
    (Parser.TargetList (IDList.mkList true [] (Some []))).

(** The minimal shortcut with the unrecognized show command 5. *)
Definition odd_show_command : Buffer := <[60%nat := x05]> minimal_shortcut.

(** An ID list of two items: the drive "C:\" (size 6) and a file item
    of payload 41 (size 4); declared size 12. *)
Definition drive_item : Wire.raw_item := Wire.mkRaw x2f [x43; x3a; x5c].
Definition file_item : Wire.raw_item := Wire.mkRaw x32 [x41].
Definition two_items : list Wire.raw_item := [drive_item; file_item].

(** [UserDirectory] items: the signature sits at offset 3 of the value,
    the folder name at offset 21. *)
Definition user_directory (signature name : jsstring) : IDList.LinkTargetIDItem :=
  IDList.mkItem IDList.UserDirectory
    ([0; 0; 0] ++ signature ++ repeat 0 14 ++ name ++ [0]).

Definition zip_contents : IDList.LinkTargetIDItem :=
  user_directory (lit "CF" ++ [0; 0]) [].
Definition desktop : IDList.LinkTargetIDItem :=
  user_directory (lit "CFSF") (lit "Desktop").
Definition c_drive : IDList.LinkTargetIDItem :=
  IDList.mkItem IDList.DriveLetter (lit "C:" ++ IDList.backslash).

(** A [UserDirectory] item on the wire, with the signature CF\0\0 at
    offset 3 of its value. *)
Definition zip_item : Wire.raw_item :=
  Wire.mkRaw x74 [x00; x00; x00; x43; x46; x00; x00].

(** A root item whose value is the class identifier
    {20D04FE0-3AEA-1069-A2D8-08002B30309D} (My Computer) in wire order. *)
Definition my_computer : IDList.LinkTargetIDItem :=
  IDList.mkItem IDList.RootEntry
    (array_from [ xe0; x4f; xd0; x20;  xea; x3a;  x69; x10;
                  xa2; xd8; x08; x00; x2b; x30; x30; x9d ]).

End Samples.

(* ===================================================================== *)
(** ** The fixed layout of the header *)
(* ===================================================================== *)

Module Layout.
Import Js Util Parser.

(** [file] is populated from the 76 bytes at [cur] of [buf] and the ID
    list behind them: the header size at offset 0, the class identifier
    at 4, the link flags at 20, the attribute flags at 24, the three tick
    counts at 28, 36 and 44, the target size at 52, the icon index at 56,
    the show command at 60 (kept when it is 1, 3 or 7), the hotkey bytes
    at 64 and 65, and the ID list from offset 76 on with its path. *)
Definition header_layout (tzOffset : Q) (fuel : nat) (cur : Z) (buf : Buffer)
    (file : LNKFile) : Prop :=
  readInt32LE buf cur = Ok (headerSize file)
  /\ linkCLSID file = guidFromIDLBytes (array_from (slice buf (cur + 4) (cur + 20)))
  /\ readInt32LE buf (cur + 20) = Ok (linkFlags file)
  /\ readInt32LE buf (cur + 24) = Ok (targetAttributeFlags file)
  /\ (exists ticks, readBigInt64LE buf (cur + 28) = Ok ticks
        /\ targetCreationDate file = dateFromFILETIME tzOffset (Number_of_BigInt ticks))
  /\ (exists ticks, readBigInt64LE buf (cur + 36) = Ok ticks
        /\ targetAccessDate file = dateFromFILETIME tzOffset (Number_of_BigInt ticks))
  /\ (exists ticks, readBigInt64LE buf (cur + 44) = Ok ticks
        /\ targetWriteDate file = dateFromFILETIME tzOffset (Number_of_BigInt ticks))
  /\ readUInt32LE buf (cur + 52) = Ok (targetFileSize file)
  /\ (exists index, readInt32LE buf (cur + 56) = Ok index
        /\ icon file = Some (mkIcon [] index))
  /\ (exists command, readUInt32LE buf (cur + 60) = Ok command
        /\ showCommand file
           = if (command =? 1) || (command =? 3) || (command =? 7)
             then command else 1)
  /\ hotKey file = mkHotKey (byte_to_Z <$> at_ buf (cur + 64))
                            (byte_to_Z <$> at_ buf (cur + 65))
  /\ (exists list path,
        IDList.parse fuel (slice_from buf (cur + 76)) = Ok list
        /\ IDList.getPath_loop (IDList.items list) [] = Ok path
        /\ target file
           = TargetList (IDList.mkList (IDList.valid list) (IDList.items list)
                                       (Some path))).

End Layout.

(* ===================================================================== *)
(** ** Text and paths on the wire *)
(* ===================================================================== *)

Module Paths.
Import Js.

(** A code unit a NUL-terminated string can hold. *)
Definition code_unit (c : Z) : Prop := 0 < c < 65536.

(** The UTF-16LE bytes of a string: low byte first. *)
Definition utf16le (s : jsstring) : numbers :=
  flat_map (fun c => [c mod 256; c / 256]) s.

(** The code units an array holds from [offset] on, as [String.fromCharCode]
    sees them. *)
Definition units_from (buffer : numbers) (offset : nat) : jsstring :=
  map (fun b => b mod 65536) (drop offset buffer).

(** *** Paths as ID lists

    The entries [getPath] turns into text, as they lie in an ID list: a
    drive holds its three characters; a folder or a document holds 11
    bytes (size, dates and attributes, which [getPath] skips) and a name
    with its terminator, one byte a character in the types 0x31 and 0x32,
    two bytes a character, low byte first, in the types 0x35 and 0x36. *)
Inductive entry :=
  | Drive (root : list byte)
  | Folder (meta name : list byte)
  | Document (meta name : list byte)
  | WideFolder (meta : list byte) (name : jsstring)
  | WideDocument (meta : list byte) (name : jsstring).

Definition wide (name : jsstring) : list byte :=
  map Wire.byte_of_Z (utf16le name).

Definition raw_of (e : entry) : Wire.raw_item :=
  match e with
  | Drive root => Wire.mkRaw x2f root
  | Folder meta name => Wire.mkRaw x31 (meta ++ name ++ [x00])
  | Document meta name => Wire.mkRaw x32 (meta ++ name ++ [x00])
  | WideFolder meta name => Wire.mkRaw x35 (meta ++ wide name ++ [x00; x00])
  | WideDocument meta name => Wire.mkRaw x36 (meta ++ wide name ++ [x00; x00])
  end.

(** The text an entry stands for: a folder name is followed by a
    backslash. *)
Definition text_of (e : entry) : jsstring :=
  match e with
  | Drive root => array_from root
  | Folder _ name => array_from name ++ IDList.backslash
  | Document _ name => array_from name
  | WideFolder _ name => name ++ IDList.backslash
  | WideDocument _ name => name
  end.

(** A drive has three characters, the skipped part 11 bytes, and no name
    holds the NUL character. *)
Definition entry_ok (e : entry) : Prop :=
  match e with
  | Drive root => length root = 3%nat
  | Folder meta name | Document meta name =>
      length meta = 11%nat /\ Forall (fun b => b <> x00) name
  | WideFolder meta name | WideDocument meta name =>
      length meta = 11%nat /\ Forall code_unit name
  end.

(** C:\Users\notes.txt, the last name in two-byte characters. *)
Definition sample_path : list entry :=
  [ Drive [x43; x3a; x5c];
    Folder (repeat x00 11) [x55; x73; x65; x72; x73];
    WideDocument (repeat x00 11) (lit "notes.txt") ].

End Paths.

(* ===================================================================== *)
(** ** Properties *)
(* ===================================================================== *)

Section HeaderRun.
Import Js Util Parser.

(** The header reader as one chain of reads of the buffer at the cursor:
    none of its steps moves the cursor. *)
Lemma parseHeader_run tzOffset fuel advance this :
  let buf := buffer this in
  let cur := offset this in
  parseHeader tzOffset fuel advance this =
  ( bind (readInt32LE buf (cur + 0)) (fun headerSize =>
    let linkCLSID :=
      guidFromIDLBytes (array_from (slice buf (cur + 4) (cur + 4 + 16))) in
    bind (readInt32LE buf (cur + 20)) (fun linkFlags =>
    bind (readInt32LE buf (cur + 24)) (fun targetAttributeFlags =>
    bind (readBigInt64LE buf (cur + 28)) (fun created =>
    bind (readBigInt64LE buf (cur + 36)) (fun accessed =>
    bind (readBigInt64LE buf (cur + 44)) (fun written =>
    bind (readUInt32LE buf (cur + 52)) (fun targetFileSize =>
    bind (readInt32LE buf (cur + 56)) (fun iconIndex =>
    bind (readUInt32LE buf (cur + 60)) (fun showCommand =>
    bind (IDList.parse fuel (slice_from buf (cur + 76))) (fun target =>
    bind (fst (IDList.getPath target)) (fun _ =>
    Ok (mkFile headerSize linkCLSID linkFlags targetAttributeFlags
          (dateFromFILETIME tzOffset (Number_of_BigInt created))
          (dateFromFILETIME tzOffset (Number_of_BigInt accessed))
          (dateFromFILETIME tzOffset (Number_of_BigInt written))
          targetFileSize
          ((headerSize =? VALID_HEADER_SIZE)
             && arrayEquals linkCLSID VALID_LINK_CLSID)
          (Some (mkIcon [] iconIndex))
          (if includes_number (Object_values ShowCommands) showCommand
           then showCommand else Normal)
          (mkHotKey (byte_to_Z <$> at_ buf (cur + 64))
                    (byte_to_Z <$> at_ buf (cur + 64 + 1)))
          (TargetList (snd (IDList.getPath target))))))))))))))),
    this ).
Proof.
  intros buf cur. subst buf cur. destruct this as [cur buf].
  unfold parseHeader, read_at, readGUID_IDL, readFileTime.
  unfold bindM, this_offset, this_buffer, ret, lift, bind.
  cbv beta iota delta [offset buffer default id].
  change (0 + 4 + 16 + 4 + 4 + 8 + 8 + 8 + 4 + 4 + 4 + 12) with 76.
  change (0 + 4 + 16 + 4 + 4 + 8 + 8 + 8 + 4 + 4 + 4) with 64.
  change (0 + 4 + 16 + 4 + 4 + 8 + 8 + 8 + 4 + 4) with 60.
  change (0 + 4 + 16 + 4 + 4 + 8 + 8 + 8 + 4) with 56.
  change (0 + 4 + 16 + 4 + 4 + 8 + 8 + 8) with 52.
  change (0 + 4 + 16 + 4 + 4 + 8 + 8) with 44.
  change (0 + 4 + 16 + 4 + 4 + 8) with 36.
  change (0 + 4 + 16 + 4 + 4) with 28.
  change (0 + 4 + 16 + 4) with 24.
  change (0 + 4 + 16) with 20.
  change (0 + 4) with 4.
  destruct (readInt32LE buf (cur + 0)) as [headerSize| |]; try reflexivity.
  destruct (readInt32LE buf (cur + 20)) as [linkFlags| |]; try reflexivity.
  destruct (readInt32LE buf (cur + 24)) as [attrs| |]; try reflexivity.
  destruct (readBigInt64LE buf (cur + 28)) as [t1| |]; try reflexivity.
  destruct (readBigInt64LE buf (cur + 36)) as [t2| |]; try reflexivity.
  destruct (readBigInt64LE buf (cur + 44)) as [t3| |]; try reflexivity.
  destruct (readUInt32LE buf (cur + 52)) as [size| |]; try reflexivity.
  destruct (readInt32LE buf (cur + 56)) as [ico| |]; try reflexivity.
  destruct (readUInt32LE buf (cur + 60)) as [sc| |]; try reflexivity.
  destruct (IDList.parse fuel (slice_from buf (cur + 76))) as [tg| |];
    try reflexivity.
  destruct (fst (IDList.getPath tg)) as [path| |]; try reflexivity.
  destruct (headerSize =? VALID_HEADER_SIZE),
           (arrayEquals _ VALID_LINK_CLSID),
           (includes_number _ sc); reflexivity.
Qed.

End HeaderRun.

Section ReadLemmas.
Import Js.

Lemma Ok_inj {A} (a b : A) : Ok a = Ok b -> a = b.
Proof. intros H. injection H. auto. Qed.

Lemma readUIntLE_ok (buf : Buffer) (offset : Z) (n : nat) :
  0 <= offset -> offset + Z.of_nat n <= Z.of_nat (length buf) ->
  readUIntLE buf offset n = Ok (le_value (take n (drop (Z.to_nat offset) buf))).
Proof.
  intros H0 H1. unfold readUIntLE.
  destruct (Z.leb_spec 0 offset); [|lia].
  destruct (Z.leb_spec (offset + Z.of_nat n) (Z.of_nat (length buf))); [|lia].
  reflexivity.
Qed.

Lemma readUIntLE_Ok_inv (buf : Buffer) (offset : Z) (n : nat) v :
  readUIntLE buf offset n = Ok v ->
  0 <= offset /\ offset + Z.of_nat n <= Z.of_nat (length buf)
  /\ v = le_value (take n (drop (Z.to_nat offset) buf)).
Proof.
  unfold readUIntLE.
  destruct (Z.leb_spec 0 offset), (Z.leb_spec (offset + Z.of_nat n) (Z.of_nat (length buf)));
    simpl; intros E; inversion E; auto.
Qed.

(** A read does not see a byte written outside its window. *)
Lemma readUIntLE_insert (buf : Buffer) (offset : Z) (n i : nat) (x : byte) :
  (Z.of_nat i < offset \/ offset + Z.of_nat n <= Z.of_nat i) ->
  readUIntLE (<[i:=x]> buf) offset n = readUIntLE buf offset n.
Proof.
  intros Hi. unfold readUIntLE. rewrite length_insert.
  destruct (Z.leb_spec 0 offset); [|reflexivity].
  destruct (_ <=? _); [|reflexivity]. simpl. do 2 f_equal.
  destruct Hi as [Hi|Hi].
  - rewrite drop_insert_lt by lia. reflexivity.
  - rewrite drop_insert_ge by lia. rewrite take_insert_ge by lia. reflexivity.
Qed.

Lemma readInt32LE_insert (buf : Buffer) (offset : Z) (i : nat) (x : byte) :
  (Z.of_nat i < offset \/ offset + 4 <= Z.of_nat i) ->
  readInt32LE (<[i:=x]> buf) offset = readInt32LE buf offset.
Proof. intros. unfold readInt32LE. rewrite readUIntLE_insert; [reflexivity|lia]. Qed.

Lemma readUInt32LE_insert (buf : Buffer) (offset : Z) (i : nat) (x : byte) :
  (Z.of_nat i < offset \/ offset + 4 <= Z.of_nat i) ->
  readUInt32LE (<[i:=x]> buf) offset = readUInt32LE buf offset.
Proof. intros. unfold readUInt32LE. rewrite readUIntLE_insert; [reflexivity|lia]. Qed.

Lemma readBigInt64LE_insert (buf : Buffer) (offset : Z) (i : nat) (x : byte) :
  (Z.of_nat i < offset \/ offset + 8 <= Z.of_nat i) ->
  readBigInt64LE (<[i:=x]> buf) offset = readBigInt64LE buf offset.
Proof. intros. unfold readBigInt64LE. rewrite readUIntLE_insert; [reflexivity|lia]. Qed.

Lemma at_insert (buf : Buffer) (j : Z) (i : nat) (x : byte) :
  Z.of_nat i <> j -> at_ (<[i:=x]> buf) j = at_ buf j.
Proof.
  intros. unfold at_. destruct (j <? 0) eqn:E; [reflexivity|].
  apply list_lookup_insert_ne. lia.
Qed.

Lemma slice_insert (buf : Buffer) (s e : Z) (i : nat) (x : byte) :
  0 <= s -> (Z.of_nat i < s \/ e <= Z.of_nat i) ->
  slice (<[i:=x]> buf) s e = slice buf s e.
Proof.
  intros Hs [Hi|Hi]; unfold slice.
  - rewrite drop_insert_lt by lia. reflexivity.
  - destruct (decide (Z.of_nat i < s)).
    + rewrite drop_insert_lt by lia. reflexivity.
    + rewrite drop_insert_ge by lia. rewrite take_insert_ge by lia. reflexivity.
Qed.

Lemma slice_from_insert (buf : Buffer) (s : Z) (i : nat) (x : byte) :
  Z.of_nat i < s -> slice_from (<[i:=x]> buf) s = slice_from buf s.
Proof. intros. unfold slice_from. rewrite drop_insert_lt by lia. reflexivity. Qed.

(** Reads inside a prefix of the buffer do not depend on what follows. *)
Lemma readUIntLE_app (pre rest : Buffer) (offset : Z) (n : nat) :
  0 <= offset -> offset + Z.of_nat n <= Z.of_nat (length pre) ->
  readUIntLE (pre ++ rest) offset n = readUIntLE pre offset n.
Proof.
  intros H0 H1. rewrite !readUIntLE_ok by (rewrite ?length_app; lia).
  rewrite drop_app_le by lia. rewrite take_app_le by (rewrite length_drop; lia).
  reflexivity.
Qed.

Lemma at_app (pre rest : Buffer) (j : Z) :
  j < Z.of_nat (length pre) -> at_ (pre ++ rest) j = at_ pre j.
Proof.
  intros. unfold at_. destruct (Z.ltb_spec j 0); [reflexivity|].
  apply lookup_app_l. lia.
Qed.

Lemma slice_app (pre rest : Buffer) (s e : Z) :
  0 <= s <= e -> e <= Z.of_nat (length pre) ->
  slice (pre ++ rest) s e = slice pre s e.
Proof.
  intros. unfold slice. rewrite drop_app_le by lia.
  rewrite take_app_le by (rewrite length_drop; lia). reflexivity.
Qed.

Lemma readUInt32LE_range (buf : Buffer) (offset : Z) v :
  readUInt32LE buf offset = Ok v ->
  0 <= offset /\ offset + 4 <= Z.of_nat (length buf).
Proof. intros H. apply readUIntLE_Ok_inv in H. simpl in H. lia. Qed.

Lemma readInt32LE_range (buf : Buffer) (offset : Z) v :
  readInt32LE buf offset = Ok v ->
  0 <= offset /\ offset + 4 <= Z.of_nat (length buf).
Proof.
  unfold readInt32LE. destruct (readUIntLE buf offset 4) eqn:E; try discriminate.
  intros _. apply readUIntLE_Ok_inv in E. simpl in E. lia.
Qed.

End ReadLemmas.

(** Destruct the reads of a header run found in hypothesis [H]. *)
Ltac header_reads H :=
  repeat match type of H with
  | context [Js.bind ?r _] =>
      let E := fresh "Hread" in
      destruct r eqn:E; cbn [Js.bind] in H; try discriminate H
  end.

Section ParserProperties.
Import Js Util Parser.

Lemma includes_ShowCommands (v : Z) :
  includes_number (Object_values ShowCommands) v
  = (v =? 1) || (v =? 3) || (v =? 7).
Proof.
  unfold includes_number, Object_values, ShowCommands.
  cbn [map snd existsb orb]. unfold Normal, Maximized, MinimizedWithoutFocus.
  rewrite orb_false_r, orb_assoc, !(Z.eqb_sym v). reflexivity.
Qed.

(** C10: [parse] returns the parser object as it received it, so the read
    cursor [offset] is unchanged, and a second [parse] on the object the
    first call leaves behind returns an equal record (the timezone offset
    being the same for both calls). *)
Theorem parse_leaves_cursor (tzOffset : Q) (fuel : nat) (this : LNKParser) :
  let first := parse tzOffset fuel this in
  offset (snd first) = offset this
  /\ snd first = this
  /\ fst (parse tzOffset fuel (snd first)) = fst first.
Proof.
  unfold parse. cbv zeta. rewrite parseHeader_run. cbn [fst snd].
  rewrite parseHeader_run. cbn [fst snd]. auto.
Qed.

(** C8: the show command of a returned record is one of the three
    recognized constants: a recognized value read at header offset 60 is
    kept and any other is replaced by [Normal]. An unrecognized value is
    not an error: rewriting a byte of the field never turns a header that
    parses into one that does not, and changes no other field. *)
Theorem showCommand_normalized (tzOffset : Q) (fuel : nat) (advance : bool)
    (this : LNKParser) (file : LNKFile) :
  fst (parseHeader tzOffset fuel advance this) = Ok file ->
  (showCommand file = Normal \/ showCommand file = Maximized
   \/ showCommand file = MinimizedWithoutFocus)
  /\ (exists raw, readUInt32LE (buffer this) (offset this + 60) = Ok raw
       /\ (raw = 1 \/ raw = 3 \/ raw = 7 -> showCommand file = raw)
       /\ (raw <> 1 -> raw <> 3 -> raw <> 7 -> showCommand file = Normal))
  /\ (forall (i : nat) (x : byte),
        offset this + 60 <= Z.of_nat i < offset this + 64 ->
        exists file',
          fst (parseHeader tzOffset fuel advance
                 (mkParser (offset this) (<[i:=x]> (buffer this)))) = Ok file'
          /\ (showCommand file' = Normal \/ showCommand file' = Maximized
               \/ showCommand file' = MinimizedWithoutFocus)
          /\ headerSize file' = headerSize file
          /\ linkCLSID file' = linkCLSID file
          /\ linkFlags file' = linkFlags file
          /\ targetAttributeFlags file' = targetAttributeFlags file
          /\ targetCreationDate file' = targetCreationDate file
          /\ targetAccessDate file' = targetAccessDate file
          /\ targetWriteDate file' = targetWriteDate file
          /\ targetFileSize file' = targetFileSize file
          /\ valid file' = valid file
          /\ icon file' = icon file
          /\ hotKey file' = hotKey file
          /\ target file' = target file).
Proof.
  intros H. rewrite parseHeader_run in H. cbn [fst] in H. cbv zeta in H.
  destruct this as [cur buf]. cbn [offset buffer] in *.
  header_reads H. apply Ok_inj in H. subst file. cbn [showCommand].
  assert (Hcases : forall v,
    (if includes_number (Object_values ShowCommands) v then v else Normal) = Normal
    \/ (if includes_number (Object_values ShowCommands) v then v else Normal) = Maximized
    \/ (if includes_number (Object_values ShowCommands) v then v else Normal)
        = MinimizedWithoutFocus).
  { intros v. rewrite includes_ShowCommands.
    unfold Normal, Maximized, MinimizedWithoutFocus.
    destruct (Z.eqb_spec v 1); [subst; auto|].
    destruct (Z.eqb_spec v 3); [subst; auto|].
    destruct (Z.eqb_spec v 7); [subst; auto|]. auto. }
  split; [apply Hcases|]. split.
  - eexists. split; [reflexivity|]. rewrite includes_ShowCommands.
    unfold Normal, Maximized, MinimizedWithoutFocus.
    destruct (Z.eqb_spec a7 1), (Z.eqb_spec a7 3), (Z.eqb_spec a7 7); cbn; lia.
  - intros i x Hi. rewrite parseHeader_run. cbn [fst offset buffer]. cbv zeta.
    pose proof (readUInt32LE_range _ _ _ Hread7) as Hr.
    pose proof (readInt32LE_range _ _ _ Hread) as Hr0.
    rewrite !readInt32LE_insert, !readBigInt64LE_insert by lia.
    rewrite (readUInt32LE_insert buf (cur + 52)) by lia.
    rewrite !at_insert, slice_insert, slice_from_insert by lia.
    rewrite Hread, Hread0, Hread1, Hread2, Hread3, Hread4, Hread5, Hread6.
    cbn [bind].
    destruct (readUInt32LE (<[i:=x]> buf) (cur + 60)) as [raw'| |] eqn:Hraw.
    2,3: unfold readUInt32LE, readUIntLE in Hraw; rewrite length_insert in Hraw;
         destruct (Z.leb_spec 0 (cur + 60)); [|lia];
         destruct (Z.leb_spec (cur + 60 + Z.of_nat 4) (Z.of_nat (length buf)));
         [discriminate|simpl in *; lia].
    cbn [bind]. rewrite Hread8. cbn [bind]. rewrite Hread9. cbn [bind].
    eexists. split; [reflexivity|].
    cbn [showCommand headerSize linkCLSID linkFlags targetAttributeFlags
         targetCreationDate targetAccessDate targetWriteDate targetFileSize
         valid icon hotKey target].
    split; [apply Hcases|]. repeat split; reflexivity.
Qed.

(** C9: the minimal header followed by an empty ID list (and by any
    further bytes) parses, whatever the timezone offset and the loop
    bound: the record is valid, its show command is [Normal], its target
    list has no item and the reconstructed path is the empty string. *)
Theorem minimal_shortcut_parses (tzOffset : Q) (fuel : nat) (rest : Buffer) :
  match fst (parse tzOffset fuel
               (new_LNKParser (Wire.minimal_header ++ Wire.empty_id_list ++ rest)))
  with
  | Ok file =>
      valid file = true
      /\ showCommand file = Normal
      /\ exists l, target file = TargetList l
           /\ IDList.items l = []
           /\ IDList.cachedPath l = Some []
           /\ fst (IDList.getPath l) = Ok []
  | _ => False
  end.
Proof.
  unfold parse, new_LNKParser. rewrite parseHeader_run.
  cbn [fst offset buffer]. cbv zeta.
  assert (Hlen : length Wire.minimal_header = 76%nat) by reflexivity.
  unfold readInt32LE, readUInt32LE, readBigInt64LE.
  rewrite !readUIntLE_app by (rewrite ?Hlen; simpl; lia).
  rewrite !at_app, slice_app by (rewrite ?Hlen; simpl; lia).
  replace (slice_from (Wire.minimal_header ++ Wire.empty_id_list ++ rest) (0 + 76))
    with (Wire.empty_id_list ++ rest)
    by (unfold slice_from; symmetry; apply drop_app_length'; reflexivity).
  assert (Hparse : IDList.parse fuel (Wire.empty_id_list ++ rest)
                   = Ok (IDList.mkList true [] None)).
  { unfold IDList.parse. rewrite readUIntLE_app by (simpl; lia).
    destruct fuel; reflexivity. }
  rewrite Hparse.
  change (readUIntLE Wire.minimal_header (0 + 0) 4) with (Ok (A:=Z) 76).
  change (readUIntLE Wire.minimal_header (0 + 20) 4) with (Ok (A:=Z) 0).
  change (readUIntLE Wire.minimal_header (0 + 24) 4) with (Ok (A:=Z) 0).
  change (readUIntLE Wire.minimal_header (0 + 28) 8) with (Ok (A:=Z) 0).
  change (readUIntLE Wire.minimal_header (0 + 36) 8) with (Ok (A:=Z) 0).
  change (readUIntLE Wire.minimal_header (0 + 44) 8) with (Ok (A:=Z) 0).
  change (readUIntLE Wire.minimal_header (0 + 52) 4) with (Ok (A:=Z) 0).
  change (readUIntLE Wire.minimal_header (0 + 56) 4) with (Ok (A:=Z) 0).
  change (readUIntLE Wire.minimal_header (0 + 60) 4) with (Ok (A:=Z) 1).
  cbn [bind IDList.getPath IDList.getPath_loop IDList.items IDList.valid fst snd
       valid showCommand target].
  split; [reflexivity|]. split; [reflexivity|].
  eexists. split; [reflexivity|]. repeat split; reflexivity.
Qed.

End ParserProperties.

Section PathProperties.
Import Js Util IDList.

Lemma getPath_loop_app (before after : list LinkTargetIDItem) (path : jsstring) :
  getPath_loop (before ++ after) path
  = bind (getPath_loop before path) (getPath_loop after).
Proof.
  revert path. induction before as [|item before IH]; intros path; simpl.
  - reflexivity.
  - destruct (getPath_item path item); simpl; auto.
Qed.

(** C7, as the code has it: [getPath] never reads [cachedPath]. Every
    call runs the loop over the items the list holds at that moment; a
    call that completes returns that path and stores it in [cachedPath].
    So a second call returns the first path when the items are the same,
    and the path of the new items when they were replaced in between. *)
Theorem getPath_recomputes (this : LinkTargetIDList)
    (items' : list LinkTargetIDItem) (stale : option jsstring) :
  let first := getPath this in
  let mutated := mkList (valid (snd first)) items' (cachedPath (snd first)) in
  fst first = getPath_loop (items this) []
  /\ items (snd first) = items this
  /\ cachedPath (snd first)
     = match fst first with Ok path => Some path | _ => cachedPath this end
  /\ fst (getPath (snd first)) = fst first
  /\ fst (getPath mutated) = getPath_loop items' []
  /\ fst (getPath (mkList (valid this) (items this) stale)) = fst first.
Proof.
  cbv zeta. unfold getPath. cbn [items valid cachedPath].
  destruct (getPath_loop (items this) []) as [path| |] eqn:E;
    cbn [fst snd items valid cachedPath]; rewrite ?E;
    cbn [fst snd];
    (repeat split; try reflexivity);
    destruct (getPath_loop items' []); reflexivity.
Qed.

(** C7 as stated fails: after a first call on a list holding the drive
    item "C:\" has stored "C:\" in [cachedPath], replacing the item by
    the drive item "D:\" makes the second call return "D:\". *)
Lemma getPath_cache_counterexample :
  let this := mkList true [mkItem DriveLetter (lit "C:" ++ backslash)] None in
  let first := getPath this in
  let mutated :=
    mkList (valid (snd first)) [mkItem DriveLetter (lit "D:" ++ backslash)]
           (cachedPath (snd first)) in
  fst first = Ok (lit "C:" ++ backslash)
  /\ cachedPath (snd first) = Some (lit "C:" ++ backslash)
  /\ fst (getPath mutated) = Ok (lit "D:" ++ backslash)
  /\ fst (getPath mutated) <> fst first.
Proof.
  cbv zeta. repeat split; try reflexivity. vm_compute. discriminate.
Qed.

End PathProperties.

Section GuidProperties.
Import Js Util.

Lemma byte_to_Z_range (b : byte) : 0 <= byte_to_Z b < 256.
Proof. unfold byte_to_Z. pose proof (Byte.to_N_bounded b). lia. Qed.

Lemma to_int32_small (x : Z) : - 2 ^ 31 <= x < 2 ^ 31 -> to_int32 x = x.
Proof.
  unfold to_int32. change (2 ^ 31) with 2147483648.
  change (2 ^ 32) with 4294967296. intros. Z.div_mod_to_equations. lia.
Qed.

(** Bits that do not overlap: [|] adds. *)
Lemma lor_disjoint (x y k : Z) :
  0 <= k -> 0 <= y < 2 ^ k -> Z.lor (x * 2 ^ k) y = x * 2 ^ k + y.
Proof.
  intros Hk Hy. rewrite <- (Z.add_lor_land (x * 2 ^ k) y).
  assert (Z.land (x * 2 ^ k) y = 0) as ->; [|lia].
  apply Z.bits_inj'. intros n Hn. rewrite Z.land_spec, Z.bits_0.
  destruct (Z.ltb_spec n k).
  - rewrite Z.mul_pow2_bits_low by lia. reflexivity.
  - rewrite <- (Z.mod_small y (2 ^ k)) by lia.
    rewrite Z.mod_pow2_bits_high by lia. apply Bool.andb_false_r.
Qed.

(** [b << 24] on a byte: the top byte of a signed 32-bit integer. *)
Lemma shl_24 (b : Z) :
  0 <= b < 256 ->
  exists b', shl b 24 = b' * 2 ^ 24 /\ b' mod 256 = b /\ -128 <= b' < 128.
Proof.
  intros Hb. unfold shl, to_int32. rewrite Z.shiftl_mul_pow2 by lia.
  exists (if b <? 128 then b else b - 256).
  change (2 ^ 24) with 16777216. change (2 ^ 31) with 2147483648.
  change (2 ^ 32) with 4294967296.
  destruct (Z.ltb_spec b 128); repeat split; Z.div_mod_to_equations; lia.
Qed.

Lemma shl_small (b k : Z) :
  0 <= b < 256 -> 0 <= k <= 16 -> shl b k = b * 2 ^ k.
Proof.
  intros Hb Hk. unfold shl. rewrite Z.shiftl_mul_pow2 by lia.
  apply to_int32_small.
  assert (0 < 2 ^ k <= 2 ^ 16) by (split; [lia|apply Z.pow_le_mono_r; lia]).
  change (2 ^ 16) with 65536 in *. change (2 ^ 31) with 2147483648. nia.
Qed.

(** The first field of [guidFromIDLBytes], as a sum. *)
Lemma field32_sum (b0 b1 b2 b3 : Z) :
  0 <= b0 < 256 -> 0 <= b1 < 256 -> 0 <= b2 < 256 -> 0 <= b3 < 256 ->
  exists b3', b3' mod 256 = b3 /\ -128 <= b3' < 128
    /\ bor (bor (bor (shl b3 24) (shl b2 16)) (shl b1 8)) b0
       = ((b3' * 256 + b2) * 256 + b1) * 256 + b0.
Proof.
  intros H0 H1 H2 H3. destruct (shl_24 b3 H3) as (b3' & E & Hm & Hr).
  exists b3'. split; [exact Hm|]. split; [exact Hr|].
  unfold bor. rewrite E, !shl_small by lia.
  rewrite (lor_disjoint b3' (b2 * 2 ^ 16) 24) by (change (2 ^ 16) with 65536; change (2 ^ 24) with 16777216; lia).
  replace (b3' * 2 ^ 24 + b2 * 2 ^ 16) with ((b3' * 256 + b2) * 2 ^ 16)
    by (change (2 ^ 16) with 65536; change (2 ^ 24) with 16777216; lia).
  rewrite (lor_disjoint _ (b1 * 2 ^ 8) 16) by (change (2 ^ 16) with 65536; change (2 ^ 8) with 256; lia).
  replace ((b3' * 256 + b2) * 2 ^ 16 + b1 * 2 ^ 8)
    with (((b3' * 256 + b2) * 256 + b1) * 2 ^ 8)
    by (change (2 ^ 16) with 65536; change (2 ^ 8) with 256; lia).
  rewrite (lor_disjoint _ b0 8) by (change (2 ^ 8) with 256; lia).
  change (2 ^ 8) with 256. reflexivity.
Qed.

Lemma field16_sum (b0 b1 : Z) :
  0 <= b0 < 256 -> 0 <= b1 < 256 -> bor (shl b1 8) b0 = b1 * 256 + b0.
Proof.
  intros H0 H1. unfold bor. rewrite shl_small by lia.
  rewrite (lor_disjoint _ b0 8) by (change (2 ^ 8) with 256; lia).
  reflexivity.
Qed.

(** The two characters [formatGUID] makes of an entry of [data] only
    depend on the entry modulo 256. *)
Lemma hexToChar_low (d : Z) :
  hexToChar d = Wire.hex_digit ((d mod 256) mod 16).
Proof.
  unfold hexToChar, band, fromCharCode, Wire.hex_digit.
  change 15 with (Z.ones 4). rewrite Z.land_ones by lia.
  assert (E : to_int32 d mod 2 ^ 4 = (d mod 256) mod 16).
  { unfold to_int32. change (2 ^ 4) with 16. change (2 ^ 31) with 2147483648.
    change (2 ^ 32) with 4294967296. Z.div_mod_to_equations. lia. }
  rewrite E. set (n := (d mod 256) mod 16).
  assert (0 <= n < 16) by (subst n; apply Z.mod_pos_bound; lia).
  destruct (Z.ltb_spec 9 n), (Z.ltb_spec n 10); try lia;
    rewrite Z.mod_small by lia; lia.
Qed.

Lemma hexToChar_high (d : Z) :
  hexToChar (sar (to_int32 d) 4) = Wire.hex_digit ((d mod 256) / 16).
Proof.
  rewrite hexToChar_low. f_equal. unfold sar. rewrite Z.shiftr_div_pow2 by lia.
  unfold to_int32. change (2 ^ 4) with 16. change (2 ^ 31) with 2147483648.
  change (2 ^ 32) with 4294967296. Z.div_mod_to_equations. lia.
Qed.

(** What [formatGUID] prints for the GUID decoded from 16 bytes. *)
Lemma formatGUID_of_bytes (z0 z1 z2 z3 z4 z5 z6 z7 z8 z9 z10 z11 z12 z13 z14 z15 : Z) :
  Forall (fun z => 0 <= z < 256)
         [z0; z1; z2; z3; z4; z5; z6; z7; z8; z9; z10; z11; z12; z13; z14; z15] ->
  formatGUID (guidFromIDLBytes
                [z0; z1; z2; z3; z4; z5; z6; z7; z8; z9; z10; z11; z12; z13; z14; z15])
  = lit "{" ++ Wire.hex_of_bytes [z3; z2; z1; z0] ++ lit "-"
    ++ Wire.hex_of_bytes [z5; z4] ++ lit "-"
    ++ Wire.hex_of_bytes [z7; z6] ++ lit "-"
    ++ Wire.hex_of_bytes [z8; z9] ++ lit "-"
    ++ Wire.hex_of_bytes [z10; z11; z12; z13; z14; z15] ++ lit "}".
Proof.
  intros Hall. repeat (apply Forall_cons_1 in Hall; destruct Hall as [? Hall]).
  unfold formatGUID, guidFromIDLBytes.
  cbn [lookup list_lookup drop app int32_of flat_map map].
  rewrite !hexToChar_high, !hexToChar_low.
  rewrite !(to_int32_small z0), !(to_int32_small z1), !(to_int32_small z2),
    !(to_int32_small z3), !(to_int32_small z4), !(to_int32_small z5),
    !(to_int32_small z6), !(to_int32_small z7)
    by (change (2 ^ 31) with 2147483648; lia).
  destruct (field32_sum z0 z1 z2 z3) as (b3' & Hm & Hr & ->); try assumption.
  rewrite !field16_sum by assumption.
  rewrite !to_int32_small by (change (2 ^ 31) with 2147483648; lia).
  unfold sar. rewrite !Z.shiftr_div_pow2 by lia.
  change (2 ^ 24) with 16777216. change (2 ^ 16) with 65536.
  change (2 ^ 8) with 256.
  set (G := ((b3' * 256 + z2) * 256 + z1) * 256 + z0).
  assert (E3 : (G / 16777216) mod 256 = z3) by (subst G; Z.div_mod_to_equations; lia).
  assert (E2 : (G / 65536) mod 256 = z2) by (subst G; Z.div_mod_to_equations; lia).
  assert (E1 : (G / 256) mod 256 = z1) by (subst G; Z.div_mod_to_equations; lia).
  assert (E0 : G mod 256 = z0) by (subst G; Z.div_mod_to_equations; lia).
  rewrite E3, E2, E1, E0.
  assert (F : forall hi lo, 0 <= hi < 256 -> 0 <= lo < 256 ->
            ((hi * 256 + lo) / 256) mod 256 = hi /\ (hi * 256 + lo) mod 256 = lo)
    by (intros; Z.div_mod_to_equations; lia).
  destruct (F z5 z4) as [-> ->]; try assumption.
  destruct (F z7 z6) as [-> ->]; try assumption.
  rewrite !(Z.mod_small _ 256) by assumption.
  reflexivity.
Qed.

Lemma is_lower_hex_digit (n : Z) :
  0 <= n < 16 -> Wire.is_lower_hex (Wire.hex_digit n) = true.
Proof.
  intros Hn. unfold Wire.is_lower_hex, Wire.hex_digit.
  destruct (Z.ltb_spec n 10).
  - apply orb_true_iff. left. apply andb_true_iff. split; apply Z.leb_le; lia.
  - apply orb_true_iff. right. apply andb_true_iff. split; apply Z.leb_le; lia.
Qed.

Lemma hex_value_digit (n : Z) :
  0 <= n < 16 -> Wire.hex_value (Wire.hex_digit n) = n.
Proof.
  intros Hn. unfold Wire.hex_value, Wire.hex_digit.
  destruct (Z.ltb_spec n 10).
  - destruct (Z.leb_spec (n + 48) 57); lia.
  - destruct (Z.leb_spec (n + 87) 57); lia.
Qed.

Lemma hex_of_bytes_lower (l : list Z) :
  Forall (fun z => 0 <= z < 256) l ->
  forallb Wire.is_lower_hex (Wire.hex_of_bytes l) = true.
Proof.
  induction 1 as [|z l Hz _ IH]; [reflexivity|].
  cbn [Wire.hex_of_bytes flat_map app forallb].
  rewrite !is_lower_hex_digit by (Z.div_mod_to_equations; lia).
  exact IH.
Qed.

Lemma bytes_of_hex_of_bytes (l : list Z) :
  Forall (fun z => 0 <= z < 256) l ->
  Wire.bytes_of_hex (Wire.hex_of_bytes l) = l.
Proof.
  induction 1 as [|z l Hz _ IH]; [reflexivity|].
  cbn [Wire.hex_of_bytes flat_map app Wire.bytes_of_hex].
  rewrite !hex_value_digit by (Z.div_mod_to_equations; lia).
  f_equal; [Z.div_mod_to_equations; lia|exact IH].
Qed.

Lemma array_from_range (bytes : Buffer) :
  Forall (fun z => 0 <= z < 256) (array_from bytes).
Proof.
  unfold array_from. induction bytes as [|b bytes IH]; simpl; constructor.
  - apply byte_to_Z_range.
  - exact IH.
Qed.

(** The digit positions of the printed string hold the hex digits of
    the bytes in display order. *)
Lemma guid_digits_of_format (z0 z1 z2 z3 z4 z5 z6 z7 z8 z9 z10 z11 z12 z13 z14 z15 : Z) :
  Forall (fun z => 0 <= z < 256)
         [z0; z1; z2; z3; z4; z5; z6; z7; z8; z9; z10; z11; z12; z13; z14; z15] ->
  Wire.guid_digits
    (formatGUID (guidFromIDLBytes
                   [z0; z1; z2; z3; z4; z5; z6; z7; z8; z9; z10; z11; z12; z13; z14; z15]))
  = Wire.hex_of_bytes
      [z3; z2; z1; z0; z5; z4; z7; z6; z8; z9; z10; z11; z12; z13; z14; z15].
Proof. intros Hall. rewrite formatGUID_of_bytes by exact Hall. reflexivity. Qed.

Lemma display_order_range (z0 z1 z2 z3 z4 z5 z6 z7 z8 z9 z10 z11 z12 z13 z14 z15 : Z) :
  Forall (fun z => 0 <= z < 256)
         [z0; z1; z2; z3; z4; z5; z6; z7; z8; z9; z10; z11; z12; z13; z14; z15] ->
  Forall (fun z => 0 <= z < 256)
         [z3; z2; z1; z0; z5; z4; z7; z6; z8; z9; z10; z11; z12; z13; z14; z15].
Proof.
  intros Hall. repeat (apply Forall_cons_1 in Hall; destruct Hall as [? Hall]).
  repeat (apply List.Forall_cons; [assumption|]). apply List.Forall_nil.
Qed.

(** The printed string determines the bytes. *)
Lemma formatGUID_injective (a b : Buffer) :
  length a = 16%nat -> length b = 16%nat ->
  formatGUID (guidFromIDLBytes (array_from a))
  = formatGUID (guidFromIDLBytes (array_from b)) ->
  array_from a = array_from b.
Proof.
  intros Ha Hb E. apply (f_equal Wire.guid_digits) in E.
  pose proof (array_from_range a) as Ra. pose proof (array_from_range b) as Rb.
  do 17 (destruct a as [|? a]; try discriminate Ha).
  do 17 (destruct b as [|? b]; try discriminate Hb).
  cbn [array_from map] in *.
  rewrite !guid_digits_of_format in E by assumption.
  apply (f_equal Wire.bytes_of_hex) in E.
  rewrite !bytes_of_hex_of_bytes in E by (apply display_order_range; assumption).
  injection E as -> -> -> -> -> -> -> -> -> -> -> -> -> -> -> ->. reflexivity.
Qed.

(** C5: for 16 bytes, the string printed for the decoded GUID has the
    form {8hex-4hex-4hex-4hex-12hex} in lowercase hex digits, and reading
    its 32 digits back as bytes in wire order gives the 16 bytes. *)
Theorem guid_round_trip (bytes : Buffer) :
  length bytes = 16%nat ->
  let s := formatGUID (guidFromIDLBytes (array_from bytes)) in
  Wire.guid_pattern s = true
  /\ Wire.guid_bytes_of_string s = array_from bytes.
Proof.
  intros Hlen. pose proof (array_from_range bytes) as Hall.
  do 17 (destruct bytes as [|? bytes]; try discriminate Hlen). clear Hlen.
  cbn [array_from map] in *. cbv zeta.
  pose proof (guid_digits_of_format _ _ _ _ _ _ _ _ _ _ _ _ _ _ _ _ Hall) as Hdigits.
  pose proof (display_order_range _ _ _ _ _ _ _ _ _ _ _ _ _ _ _ _ Hall) as Hall'.
  split.
  - unfold Wire.guid_pattern.
    rewrite Hdigits, hex_of_bytes_lower by exact Hall'.
    rewrite formatGUID_of_bytes by exact Hall. reflexivity.
  - unfold Wire.guid_bytes_of_string.
    rewrite Hdigits, bytes_of_hex_of_bytes by exact Hall'. reflexivity.
Qed.

End GuidProperties.

Section ListProperties.
Import Js Util IDList.

Lemma byte_to_of_Z (z : Z) : byte_to_Z (Wire.byte_of_Z z) = z mod 256.
Proof.
  unfold byte_to_Z, Wire.byte_of_Z.
  pose proof (Z.mod_pos_bound z 256 ltac:(lia)) as Hz.
  pose proof (Byte.to_of_N_option_map (Z.to_N (z mod 256))) as H.
  destruct (N.leb_spec (Z.to_N (z mod 256)) 255); [|lia].
  destruct (Byte.of_N (Z.to_N (z mod 256))) as [b|]; [|discriminate].
  simpl in *. injection H as ->. lia.
Qed.

Lemma le_value_le16 (n : Z) : 0 <= n < 65536 -> le_value (Wire.le16 n) = n.
Proof.
  intros Hn. unfold Wire.le16. cbn [le_value]. rewrite !byte_to_of_Z.
  Z.div_mod_to_equations. lia.
Qed.

Lemma item_size_ge (it : Wire.raw_item) : 3 <= Wire.item_size it.
Proof. unfold Wire.item_size. lia. Qed.

Lemma items_size_nonneg (its : list Wire.raw_item) : 0 <= Wire.items_size its.
Proof.
  induction its as [|it its IH]; simpl; [lia|].
  pose proof (item_size_ge it). lia.
Qed.

Lemma length_encode_item (it : Wire.raw_item) :
  Z.of_nat (length (Wire.encode_item it)) = Wire.item_size it.
Proof.
  unfold Wire.encode_item, Wire.item_size, Wire.le16.
  rewrite length_app. simpl. lia.
Qed.

Lemma length_encode_items (its : list Wire.raw_item) :
  Z.of_nat (length (Wire.encode_items its)) = Wire.items_size its.
Proof.
  induction its as [|it its IH]; [reflexivity|].
  unfold Wire.encode_items in *. cbn [flat_map Wire.items_size fold_right].
  rewrite length_app, Nat2Z.inj_add, length_encode_item, IH. reflexivity.
Qed.

(** The loop of [parse] over the items of a well-formed list that starts
    at the read cursor. *)
Lemma parse_loop_well_formed (its : list Wire.raw_item) :
  forall (fuel : nat) (pre tail : Buffer) (acc : list LinkTargetIDItem),
  Wire.items_size its + 2 < 65536 ->
  parse_loop fuel (pre ++ Wire.encode_items its ++ tail) acc
             (Z.of_nat (length pre)) (Wire.items_size its + 2)
  = if (length its <=? fuel)%nat
    then Ok (mkLocals (acc ++ Wire.parsed_items its tail)
                      (Z.of_nat (length pre) + Wire.items_size its) 2)
    else OutOfFuel.
Proof.
  induction its as [|it its IH]; intros fuel pre tail acc Hsize.
  - cbn [Wire.items_size fold_right Wire.parsed_items].
    destruct fuel; cbn [parse_loop]; rewrite app_nil_r, Z.add_0_r; reflexivity.
  - pose proof (item_size_ge it) as Hit.
    pose proof (items_size_nonneg its) as Hits.
    cbn [Wire.items_size fold_right] in *. fold (Wire.items_size its) in *.
    destruct fuel as [|fuel]; cbn [parse_loop];
      (destruct (Z.ltb_spec 2 (Wire.item_size it + Wire.items_size its + 2)); [|lia]);
      [reflexivity|].
    change (length (it :: its) <=? S fuel)%nat with (length its <=? fuel)%nat.
    change (Wire.encode_items (it :: its))
      with (Wire.encode_item it ++ Wire.encode_items its).
    pose proof (length_encode_item it) as Hlen.
    set (after := Wire.encode_items its ++ tail).
    assert (Hbuf : pre ++ (Wire.encode_item it ++ Wire.encode_items its) ++ tail
                   = pre ++ Wire.le16 (Wire.item_size it)
                         ++ Wire.tag it :: Wire.payload it ++ after).
    { unfold Wire.encode_item, after. rewrite <- !app_assoc. reflexivity. }
    rewrite Hbuf.
    assert (Hread : readUInt16LE
              (pre ++ Wire.le16 (Wire.item_size it)
                   ++ Wire.tag it :: Wire.payload it ++ after)
              (Z.of_nat (length pre)) = Ok (Wire.item_size it)).
    { unfold readUInt16LE. rewrite readUIntLE_ok.
      - rewrite Nat2Z.id, drop_app_length. cbn [Wire.le16 app take].
        fold (Wire.le16 (Wire.item_size it)).
        rewrite le_value_le16 by lia. reflexivity.
      - lia.
      - rewrite !length_app. simpl. lia. }
    rewrite Hread. cbn [bind].
    assert (Htag : at_ (pre ++ Wire.le16 (Wire.item_size it)
                            ++ Wire.tag it :: Wire.payload it ++ after)
                       (Z.of_nat (length pre) + 2) = Some (Wire.tag it)).
    { unfold at_. destruct (Z.ltb_spec (Z.of_nat (length pre) + 2) 0); [lia|].
      replace (Z.to_nat (Z.of_nat (length pre) + 2)) with (length pre + 2)%nat by lia.
      rewrite lookup_app_r by lia.
      replace (length pre + 2 - length pre)%nat with 2%nat by lia. reflexivity. }
    rewrite Htag.
    assert (Hval : slice (pre ++ Wire.le16 (Wire.item_size it)
                              ++ Wire.tag it :: Wire.payload it ++ after)
                         (Z.of_nat (length pre) + 2 + 1)
                         (Z.of_nat (length pre) + 2 + Wire.item_size it + 1)
                   = Wire.payload it ++ take 3 after).
    { unfold slice.
      replace (Z.to_nat (Z.of_nat (length pre) + 2 + 1)) with (length pre + 3)%nat by lia.
      replace (Z.to_nat (Z.of_nat (length pre) + 2 + Wire.item_size it + 1)
               - (length pre + 3))%nat
        with (length (Wire.payload it) + 3)%nat by (unfold Wire.item_size; lia).
      rewrite <- drop_drop, drop_app_length. cbn [Wire.le16 app skipn].
      rewrite drop_0, take_app. rewrite take_ge by lia.
      replace (length (Wire.payload it) + 3 - length (Wire.payload it))%nat
        with 3%nat by lia. reflexivity. }
    rewrite Hval.
    replace (Z.of_nat (length pre) + 2 + (Wire.item_size it - 2))
      with (Z.of_nat (length (pre ++ Wire.encode_item it)))
      by (rewrite length_app; lia).
    replace (Wire.item_size it + Wire.items_size its + 2 - Wire.item_size it)
      with (Wire.items_size its + 2) by lia.
    rewrite <- Hbuf.
    replace (pre ++ (Wire.encode_item it ++ Wire.encode_items its) ++ tail)
      with ((pre ++ Wire.encode_item it) ++ Wire.encode_items its ++ tail)
      by (rewrite <- !app_assoc; reflexivity).
    rewrite IH by lia. destruct (length its <=? fuel)%nat; [|reflexivity].
    rewrite <- app_assoc.
    cbn [Wire.parsed_items app new_LinkTargetIDItem fmap option_fmap option_map default].
    rewrite length_app. f_equal. f_equal. lia.
Qed.

Lemma length_parsed_items (its : list Wire.raw_item) (tail : Buffer) :
  length (Wire.parsed_items its tail) = length its.
Proof. induction its as [|it its IH]; simpl; [reflexivity|]. rewrite IH. reflexivity. Qed.

Lemma itemType_parsed_items (its : list Wire.raw_item) (tail : Buffer) :
  map itemType (Wire.parsed_items its tail)
  = map (fun it => byte_to_Z (Wire.tag it)) its.
Proof. induction its as [|it its IH]; simpl; [reflexivity|]. rewrite IH. reflexivity. Qed.

(** C3, as the code has it: on a well-formed ID list (followed by any
    bytes), [parse] reads the declared size, its loop takes exactly one
    turn per item (a bound of as many turns as there are items is enough,
    a smaller one is not), building one item per turn with that item's
    tag, and it is left when the remaining count is 2. The bytes consumed
    are the 2 bytes of the size prefix and the items, no more: the cursor
    stands at 2 plus the sum of the item sizes, on the terminator, 2 bytes
    before the end of the list. The terminator is counted by the remaining
    count only (cursor plus remaining count is the length of the list, the
    sum of the item sizes plus 2 plus 2) and is never read as a size: with
    any bytes [tail], or none, in its place the loop takes the same turns
    and ends with the same cursor, the same count and the same item
    types. *)
Theorem parse_stops_at_terminator (its : list Wire.raw_item)
    (rest tail : Buffer) (fuel : nat) :
  Wire.well_formed its ->
  (length its <= fuel)%nat ->
  let buffer := Wire.encode_id_list its ++ rest in
  exists locals,
    readUIntLE buffer 0 2 = Ok (Wire.items_size its + 2)
    /\ parse_loop fuel buffer [] 2 (Wire.items_size its + 2) = Ok locals
    /\ parse fuel buffer = Ok (mkList true (l_items locals) None)
    /\ (forall few, (few < length its)%nat ->
         parse_loop few buffer [] 2 (Wire.items_size its + 2) = OutOfFuel)
    /\ length (l_items locals) = length its
    /\ map itemType (l_items locals) = map (fun it => byte_to_Z (Wire.tag it)) its
    /\ l_remainingBytes locals = 2
    /\ l_readOffset locals = 2 + Wire.items_size its
    /\ take 2 (drop (Z.to_nat (l_readOffset locals)) buffer) = Wire.terminator
    /\ l_readOffset locals + l_remainingBytes locals = Wire.items_size its + 2 + 2
    /\ Z.of_nat (length (Wire.encode_id_list its)) = Wire.items_size its + 2 + 2
    /\ l_readOffset locals + 2 = Z.of_nat (length (Wire.encode_id_list its))
    /\ exists locals',
         parse_loop fuel
           (Wire.le16 (Wire.items_size its + 2) ++ Wire.encode_items its ++ tail)
           [] 2 (Wire.items_size its + 2) = Ok locals'
         /\ l_readOffset locals' = l_readOffset locals
         /\ l_remainingBytes locals' = l_remainingBytes locals
         /\ length (l_items locals') = length (l_items locals)
         /\ map itemType (l_items locals') = map itemType (l_items locals).
Proof.
  intros Hwf Hfuel buffer. unfold Wire.well_formed in Hwf.
  pose proof (items_size_nonneg its) as Hnn.
  assert (Hbuf : buffer = Wire.le16 (Wire.items_size its + 2)
                   ++ Wire.encode_items its ++ Wire.terminator ++ rest).
  { unfold buffer, Wire.encode_id_list. rewrite <- !app_assoc. reflexivity. }
  assert (Hsize : readUIntLE buffer 0 2 = Ok (Wire.items_size its + 2)).
  { rewrite Hbuf, readUIntLE_app by (simpl; lia).
    rewrite readUIntLE_ok by (simpl; lia).
    change (take 2 (drop (Z.to_nat 0) (Wire.le16 (Wire.items_size its + 2))))
      with (Wire.le16 (Wire.items_size its + 2)).
    rewrite le_value_le16 by lia. reflexivity. }
  assert (Hloop : forall n, parse_loop n buffer [] 2 (Wire.items_size its + 2)
    = if (length its <=? n)%nat
      then Ok (mkLocals (Wire.parsed_items its (Wire.terminator ++ rest))
                        (2 + Wire.items_size its) 2)
      else OutOfFuel).
  { intros n. rewrite Hbuf.
    change 2 with (Z.of_nat (length (Wire.le16 (Wire.items_size its + 2)))) at 1.
    rewrite parse_loop_well_formed by exact Hwf. reflexivity. }
  eexists. split; [exact Hsize|]. split.
  { rewrite Hloop. destruct (Nat.leb_spec (length its) fuel); [reflexivity|lia]. }
  cbn [l_items l_readOffset l_remainingBytes]. split.
  { unfold parse. rewrite Hsize. cbn [bind]. rewrite Hloop.
    destruct (Nat.leb_spec (length its) fuel); [reflexivity|lia]. }
  split.
  { intros few Hfew. rewrite Hloop.
    destruct (Nat.leb_spec (length its) few); [lia|reflexivity]. }
  split; [apply length_parsed_items|]. split; [apply itemType_parsed_items|].
  split; [reflexivity|]. split; [reflexivity|]. split.
  { rewrite Hbuf, !app_assoc, <- (app_assoc _ Wire.terminator rest).
    rewrite drop_app_length'; [reflexivity|].
    rewrite length_app. pose proof (length_encode_items its). simpl. lia. }
  split; [lia|].
  assert (Hlen : Z.of_nat (length (Wire.encode_id_list its))
                 = Wire.items_size its + 2 + 2).
  { unfold Wire.encode_id_list. rewrite !length_app, !Nat2Z.inj_add.
    rewrite length_encode_items. simpl. lia. }
  split; [exact Hlen|]. split; [lia|].
  eexists. split.
  { change 2 with (Z.of_nat (length (Wire.le16 (Wire.items_size its + 2)))) at 1.
    rewrite parse_loop_well_formed by exact Hwf.
    destruct (Nat.leb_spec (length its) fuel); [reflexivity|lia]. }
  cbn [l_items l_readOffset l_remainingBytes app].
  split; [reflexivity|]. split; [reflexivity|].
  rewrite !length_parsed_items, !itemType_parsed_items. split; reflexivity.
Qed.

End ListProperties.

Section ValidityLemmas.
Import Js Util Parser.

Lemma byte_to_Z_inj (a b : byte) : byte_to_Z a = byte_to_Z b -> a = b.
Proof.
  unfold byte_to_Z. intros H. apply N2Z.inj in H.
  pose proof (Byte.of_to_N a) as Ha. rewrite H, Byte.of_to_N in Ha.
  congruence.
Qed.

Lemma forallb_imap_lookup (b : numbers) (a : numbers) (n : nat) :
  forallb (fun p => bool_decide (b !! fst p = Some (snd p)))
          (imap (fun i x => ((n + i)%nat, x)) a) = true
  <-> forall i x, a !! i = Some x -> b !! (n + i)%nat = Some x.
Proof.
  revert n. induction a as [|y a IH]; intros n.
  - simpl. split; [intros _ i x Hi; destruct i; discriminate|reflexivity].
  - rewrite imap_cons. cbn [forallb fst snd]. rewrite andb_true_iff.
    rewrite bool_decide_eq_true.
    rewrite (imap_ext _ (fun i x => ((S n + i)%nat, x)))
      by (intros; unfold compose; f_equal; lia).
    rewrite IH. split.
    + intros [H0 Hrest] [|i] x Hi; simpl in Hi.
      * injection Hi as <-. exact H0.
      * replace (n + S i)%nat with (S n + i)%nat by lia. apply Hrest, Hi.
    + intros H. split; [apply (H 0%nat); reflexivity|].
      intros i x Hi. replace (S n + i)%nat with (n + S i)%nat by lia.
      apply H. exact Hi.
Qed.

(** [arrayEquals] decides equality of number arrays. *)
Lemma arrayEquals_spec (a b : numbers) : arrayEquals a b = true <-> a = b.
Proof.
  unfold arrayEquals. rewrite andb_true_iff, Nat.eqb_eq.
  change (imap pair a) with (imap (fun i x => ((0 + i)%nat, x)) a).
  rewrite forallb_imap_lookup. split.
  - intros [Hlen H]. apply list_eq_same_length with (length a); auto.
    intros i x y Hi Hx Hy. apply (H i) in Hx. simpl in Hx. congruence.
  - intros ->. split; [reflexivity|]. intros i x Hi. exact Hi.
Qed.

(** The size field reads 76 exactly when its four bytes are 4c 00 00 00. *)
Lemma size_field_76 (bs : Buffer) :
  length bs = 4%nat ->
  (to_int32 (le_value bs) = VALID_HEADER_SIZE <-> bs = [x4c; x00; x00; x00]).
Proof.
  intros Hlen. do 5 (destruct bs as [|? bs]; try discriminate Hlen). clear Hlen.
  split.
  - cbn [le_value]. unfold VALID_HEADER_SIZE, to_int32.
    pose proof (byte_to_Z_range b). pose proof (byte_to_Z_range b0).
    pose proof (byte_to_Z_range b1). pose proof (byte_to_Z_range b2).
    change (2 ^ 31) with 2147483648. change (2 ^ 32) with 4294967296.
    intros E.
    assert (byte_to_Z b = byte_to_Z x4c /\ byte_to_Z b0 = byte_to_Z x00
            /\ byte_to_Z b1 = byte_to_Z x00 /\ byte_to_Z b2 = byte_to_Z x00)
      as (E0 & E1 & E2 & E3).
    { change (byte_to_Z x4c) with 76. change (byte_to_Z x00) with 0.
      Z.div_mod_to_equations. lia. }
    apply byte_to_Z_inj in E0, E1, E2, E3. subst. reflexivity.
  - intros ->. reflexivity.
Qed.

(** The sixteen bytes decode to the valid class identifier exactly when
    they are its bytes in the GUID wire layout. *)
Lemma clsid_field_valid (bs : Buffer) :
  length bs = 16%nat ->
  (guidFromIDLBytes (array_from bs) = VALID_LINK_CLSID
   <-> bs = drop 4 Wire.valid_prefix).
Proof.
  intros Hlen. do 17 (destruct bs as [|? bs]; try discriminate Hlen). clear Hlen.
  split; [|intros ->; reflexivity].
  unfold guidFromIDLBytes, VALID_LINK_CLSID, array_from.
  cbn [map lookup list_lookup drop skipn app int32_of].
  pose proof (byte_to_Z_range b). pose proof (byte_to_Z_range b0).
  pose proof (byte_to_Z_range b1). pose proof (byte_to_Z_range b2).
  pose proof (byte_to_Z_range b3). pose proof (byte_to_Z_range b4).
  pose proof (byte_to_Z_range b5). pose proof (byte_to_Z_range b6).
  rewrite !to_int32_small by (change (2 ^ 31) with 2147483648; lia).
  destruct (field32_sum (byte_to_Z b) (byte_to_Z b0) (byte_to_Z b1) (byte_to_Z b2))
    as (b3' & Hm & Hr & ->); try assumption.
  rewrite !field16_sum by assumption.
  intros E. injection E as E0 E1 E2 E8 E9 E10 E11 E12 E13 E14 E15.
  assert (byte_to_Z b = 1 /\ byte_to_Z b0 = 20 /\ byte_to_Z b1 = 2 /\ b3' = 0)
    as (F0 & F1 & F2 & F3) by lia.
  assert (byte_to_Z b2 = 0) as F3' by (rewrite <- Hm, F3; reflexivity).
  assert (byte_to_Z b3 = 0 /\ byte_to_Z b4 = 0 /\ byte_to_Z b5 = 0 /\ byte_to_Z b6 = 0)
    as (F4 & F5 & F6 & F7) by lia.
  change 1 with (byte_to_Z x01) in F0. change 20 with (byte_to_Z x14) in F1.
  change 2 with (byte_to_Z x02) in F2.
  change 0 with (byte_to_Z x00) in F3', F4, F5, F6, F7, E9, E10, E11, E12, E13, E14.
  change 192 with (byte_to_Z xc0) in E8. change 70 with (byte_to_Z x46) in E15.
  repeat match goal with
         | H : byte_to_Z _ = byte_to_Z _ |- _ => apply byte_to_Z_inj in H
         end.
  subst. reflexivity.
Qed.

Lemma array_from_inj (a b : Buffer) : array_from a = array_from b -> a = b.
Proof.
  unfold array_from. revert b. induction a as [|x a IH]; intros [|y b] E;
    try discriminate; [reflexivity|].
  simpl in E. injection E as Exy E. apply byte_to_Z_inj in Exy.
  f_equal; auto.
Qed.

(** A returned record is valid exactly when the 20 bytes at the cursor
    are the valid prefix. *)
Lemma valid_iff_prefix (tzOffset : Q) (fuel : nat) (advance : bool)
    (this : LNKParser) (file : LNKFile) :
  fst (parseHeader tzOffset fuel advance this) = Ok file ->
  valid file = true
  <-> take 20 (drop (Z.to_nat (offset this)) (buffer this)) = Wire.valid_prefix.
Proof.
  intros H. rewrite parseHeader_run in H. cbn [fst] in H. cbv zeta in H.
  destruct this as [cur buf]. cbn [offset buffer] in *.
  header_reads H. apply Ok_inj in H. subst file. cbn [valid].
  pose proof (readUInt32LE_range _ _ _ Hread7) as Hr.
  pose proof (readInt32LE_range _ _ _ Hread) as Hr0.
  unfold readInt32LE in Hread. rewrite readUIntLE_ok in Hread by (simpl; lia).
  cbn [bind] in Hread. apply Ok_inj in Hread. subst a.
  replace (Z.to_nat (cur + 0)) with (Z.to_nat cur) by lia.
  set (c := Z.to_nat cur).
  assert (Hslice : slice buf (cur + 4) (cur + 4 + 16) = take 16 (drop 4 (drop c buf))).
  { unfold slice. rewrite drop_drop. f_equal; [lia|f_equal; lia]. }
  rewrite Hslice.
  assert (Hsplit : take 20 (drop c buf)
                   = take 4 (drop c buf) ++ take 16 (drop 4 (drop c buf))).
  { symmetry. apply (take_take_drop (drop c buf) 4 16). }
  rewrite Hsplit.
  assert (Hl4 : length (take 4 (drop c buf)) = 4%nat)
    by (rewrite length_take, length_drop; lia).
  assert (Hl16 : length (take 16 (drop 4 (drop c buf))) = 16%nat)
    by (rewrite length_take, !length_drop; lia).
  rewrite andb_true_iff, Z.eqb_eq, arrayEquals_spec.
  rewrite (size_field_76 _ Hl4), (clsid_field_valid _ Hl16).
  change Wire.valid_prefix with ([x4c; x00; x00; x00] ++ drop 4 Wire.valid_prefix).
  split.
  - intros [-> ->]. reflexivity.
  - intros E. apply app_inj_1 in E; [exact E|exact Hl4].
Qed.

End ValidityLemmas.

Section Validity.
Import Js Util Parser.

(** A returned record is populated from the fixed layout. *)
Lemma parseHeader_layout (tzOffset : Q) (fuel : nat) (advance : bool)
    (this : LNKParser) (file : LNKFile) :
  fst (parseHeader tzOffset fuel advance this) = Ok file ->
  Layout.header_layout tzOffset fuel (offset this) (buffer this) file.
Proof.
  intros H. rewrite parseHeader_run in H. cbn [fst] in H. cbv zeta in H.
  destruct this as [cur buf]. cbn [offset buffer] in *.
  replace (cur + 0) with cur in H by lia.
  replace (cur + 4 + 16) with (cur + 20) in H by lia.
  replace (cur + 64 + 1) with (cur + 65) in H by lia.
  header_reads H. apply Ok_inj in H. subst file.
  unfold Layout.header_layout.
  cbn [headerSize linkCLSID linkFlags targetAttributeFlags targetCreationDate
       targetAccessDate targetWriteDate targetFileSize icon showCommand hotKey
       target].
  rewrite includes_ShowCommands.
  match goal with Hg : fst (IDList.getPath ?l) = Ok _ |- _ =>
    unfold IDList.getPath in Hg |- *;
    destruct (IDList.getPath_loop (IDList.items l) []) as [path| |] eqn:Hpath;
    cbn [fst snd] in Hg |- *; try discriminate Hg
  end.
  repeat (split; [solve [reflexivity | eauto]|]). eauto.
Qed.

(** C1: a returned record has [valid = true] exactly when the four
    bytes at the cursor read 76 as a little-endian integer and the next
    sixteen decode to the class identifier
    {00021401-0000-0000-c000-000000000046}, that is, when the twenty bytes
    are the valid prefix; and every field of the record is read at its
    offset of the fixed layout. Writing another value over any one of
    these twenty bytes of a valid buffer still gives a record; it has
    [valid = false], every field of it, the header size and the class
    identifier included, is read at its offset of the fixed layout from
    the changed buffer, and the fields read behind the prefix are those
    of the first record. *)
Theorem header_validity (tzOffset : Q) (fuel : nat) (advance : bool)
    (this : LNKParser) (file : LNKFile) :
  fst (parseHeader tzOffset fuel advance this) = Ok file ->
  let cur := offset this in
  let buf := buffer this in
  (valid file = true
   <-> readInt32LE buf cur = Ok 76
       /\ formatGUID (guidFromIDLBytes (array_from (slice buf (cur + 4) (cur + 20))))
          = lit "{00021401-0000-0000-c000-000000000046}")
  /\ (valid file = true
      <-> take 20 (drop (Z.to_nat cur) buf) = Wire.valid_prefix)
  /\ Layout.header_layout tzOffset fuel cur buf file
  /\ (valid file = true ->
      forall (i : nat) (x : byte),
        cur <= Z.of_nat i < cur + 20 -> buf !! i <> Some x ->
        exists file',
          fst (parseHeader tzOffset fuel advance (mkParser cur (<[i:=x]> buf)))
          = Ok file'
          /\ valid file' = false
          /\ Layout.header_layout tzOffset fuel cur (<[i:=x]> buf) file'
          /\ linkFlags file' = linkFlags file
          /\ targetAttributeFlags file' = targetAttributeFlags file
          /\ targetCreationDate file' = targetCreationDate file
          /\ targetAccessDate file' = targetAccessDate file
          /\ targetWriteDate file' = targetWriteDate file
          /\ targetFileSize file' = targetFileSize file
          /\ icon file' = icon file
          /\ showCommand file' = showCommand file
          /\ hotKey file' = hotKey file
          /\ target file' = target file).
Proof.
  intros H cur buf.
  pose proof (valid_iff_prefix _ _ _ _ _ H) as Hiff. fold cur buf in Hiff.
  pose proof H as Hrun. rewrite parseHeader_run in Hrun. cbn [fst] in Hrun.
  cbv zeta in Hrun. fold cur buf in Hrun.
  header_reads Hrun. apply Ok_inj in Hrun.
  pose proof (readUInt32LE_range _ _ _ Hread7) as Hr.
  pose proof (readInt32LE_range _ _ _ Hread) as Hr0.
  set (c := Z.to_nat cur) in *.
  assert (Hslice : slice buf (cur + 4) (cur + 20) = take 16 (drop 4 (drop c buf))).
  { unfold slice. rewrite drop_drop. f_equal; [lia|f_equal; lia]. }
  assert (Hsplit : take 20 (drop c buf)
                   = take 4 (drop c buf) ++ take 16 (drop 4 (drop c buf))).
  { symmetry. apply (take_take_drop (drop c buf) 4 16). }
  assert (Hl4 : length (take 4 (drop c buf)) = 4%nat)
    by (rewrite length_take, length_drop; lia).
  assert (Hl16 : length (take 16 (drop 4 (drop c buf))) = 16%nat)
    by (rewrite length_take, !length_drop; lia).
  assert (Hsize : readInt32LE buf cur
                  = Ok (to_int32 (le_value (take 4 (drop c buf))))).
  { unfold readInt32LE. rewrite readUIntLE_ok by (simpl; lia). reflexivity. }
  split; [|split; [exact Hiff|split; [exact (parseHeader_layout _ _ _ _ _ H)|]]].
  - rewrite Hiff, Hsplit, Hslice, Hsize.
    change Wire.valid_prefix with ([x4c; x00; x00; x00] ++ drop 4 Wire.valid_prefix).
    split.
    + intros E. apply app_inj_1 in E; [|exact Hl4]. destruct E as [-> ->].
      split; vm_compute; reflexivity.
    + intros [E4 E16]. apply Ok_inj in E4.
      apply (size_field_76 _ Hl4) in E4. rewrite E4. f_equal.
      apply array_from_inj, formatGUID_injective; [exact Hl16|reflexivity|].
      rewrite E16. vm_compute. reflexivity.
  - intros Hvalid i x Hi Hx.
    assert (Hrun' : exists h',
      fst (parseHeader tzOffset fuel advance (mkParser cur (<[i:=x]> buf)))
      = Ok (mkFile h'
              (guidFromIDLBytes
                 (array_from (slice (<[i:=x]> buf) (cur + 4) (cur + 4 + 16))))
              (linkFlags file) (targetAttributeFlags file)
              (targetCreationDate file) (targetAccessDate file)
              (targetWriteDate file) (targetFileSize file)
              ((h' =? VALID_HEADER_SIZE)
                 && arrayEquals
                      (guidFromIDLBytes
                         (array_from (slice (<[i:=x]> buf) (cur + 4) (cur + 4 + 16))))
                      VALID_LINK_CLSID)
              (icon file) (showCommand file) (hotKey file) (target file))).
    { rewrite parseHeader_run. cbn [fst offset buffer]. cbv zeta.
      rewrite !(readInt32LE_insert buf (cur + 20)), !(readInt32LE_insert buf (cur + 24)),
        !(readInt32LE_insert buf (cur + 56)), !readBigInt64LE_insert,
        !readUInt32LE_insert by lia.
      rewrite !at_insert, slice_from_insert by lia.
      rewrite Hread0, Hread1, Hread2, Hread3, Hread4, Hread5, Hread6, Hread7.
      destruct (readInt32LE (<[i:=x]> buf) (cur + 0)) as [h'| |] eqn:Hh.
      2,3: unfold readInt32LE, readUIntLE in Hh; rewrite length_insert in Hh;
           destruct (Z.leb_spec 0 (cur + 0)); [|lia];
           destruct (Z.leb_spec (cur + 0 + Z.of_nat 4) (Z.of_nat (length buf)));
           [discriminate|simpl in *; lia].
      cbn [bind]. rewrite Hread8. cbn [bind]. rewrite Hread9. cbn [bind].
      exists h'. subst file.
      cbn [linkFlags targetAttributeFlags targetCreationDate targetAccessDate
           targetWriteDate targetFileSize icon showCommand hotKey target].
      reflexivity. }
    destruct Hrun' as [h' Hrun'].
    eexists. split; [exact Hrun'|].
    split; [|split; [exact (parseHeader_layout _ _ _ _ _ Hrun')
                    |cbn; repeat split; reflexivity]].
    pose proof (valid_iff_prefix _ _ _ _ _ Hrun') as Hiff'.
    cbn [offset buffer] in Hiff'. fold c in Hiff'.
    destruct (valid (mkFile _ _ _ _ _ _ _ _ _ _ _ _ _)) eqn:Hv; [|reflexivity].
    exfalso. apply Hx.
    pose proof (proj1 Hiff' eq_refl) as E'. pose proof (proj1 Hiff Hvalid) as E.
    assert (Hat : take 20 (drop c (<[i:=x]> buf)) !! (i - c)%nat = Some x).
    { rewrite lookup_take_lt by lia. rewrite lookup_drop.
      replace (c + (i - c))%nat with i by lia.
      apply list_lookup_insert_eq. lia. }
    rewrite E', <- E in Hat.
    rewrite lookup_take_lt in Hat by lia. rewrite lookup_drop in Hat.
    replace (c + (i - c))%nat with i in Hat by lia. exact Hat.
Qed.

End Validity.

Section Binary64.
Import Js.

Lemma fl_comp (p q : Q) : p == q -> fl p = fl q.
Proof. intros E. unfold fl. rewrite (Qred_complete p q E). reflexivity. Qed.

Lemma Qred_inject_Z (n : Z) : Qred (inject_Z n) = inject_Z n.
Proof.
  unfold Qred, inject_Z.
  pose proof (Z.ggcd_gcd n 1) as Hg.
  pose proof (Z.ggcd_correct_divisors n 1) as Hd.
  destruct (Z.ggcd n 1) as [g [a b]]. simpl in Hg, Hd.
  rewrite Z.gcd_1_r in Hg. subst g. destruct Hd as [Ha Hb].
  assert (a = n) as -> by lia. assert (b = 1) as -> by lia. reflexivity.
Qed.

Lemma round_half_even_int (q : Q) (n : Z) :
  q == inject_Z n -> round_half_even q = n.
Proof.
  intros E. unfold round_half_even.
  assert (Hf : Qfloor q = n) by (rewrite E; apply Qfloor_Z).
  rewrite Hf.
  destruct (Qcompare (q - inject_Z n) (1 # 2)) eqn:C; [exfalso|reflexivity|exfalso].
  - apply Qeq_alt in C. rewrite E in C. unfold Qminus in C.
    rewrite Qplus_opp_r in C. discriminate C.
  - apply Qgt_alt in C. rewrite E in C. unfold Qminus in C.
    rewrite Qplus_opp_r in C. discriminate C.
Qed.

Lemma scale2_up (a e : Z) :
  0 <= e -> scale2 (inject_Z a) e == inject_Z (a * 2 ^ e).
Proof.
  intros He. unfold scale2. destruct (Z.leb_spec 0 e); [|lia].
  rewrite inject_Z_mult. reflexivity.
Qed.

Lemma scale2_down (a e : Z) :
  0 <= e -> scale2 (inject_Z (a * 2 ^ e)) (- e) == inject_Z a.
Proof.
  intros He. unfold scale2. destruct (Z.leb_spec 0 (- e)).
  - assert (e = 0) as -> by lia. simpl. rewrite Z.mul_1_r.
    change (inject_Z 1) with 1%Q. apply Qmult_1_r.
  - rewrite Z.opp_involutive, inject_Z_mult. apply Qdiv_mult_l.
    assert (0 < 2 ^ e) by (apply Z.pow_pos_nonneg; lia).
    intros E0. change 0%Q with (inject_Z 0) in E0. apply (proj1 (inject_Z_injective _ _)) in E0. lia.
Qed.

Lemma ilog2_inject_Z (n : Z) : n <> 0 -> ilog2 (inject_Z n) = Z.log2 (Z.abs n).
Proof.
  intros Hn. unfold ilog2. cbn [Qnum Qden inject_Z].
  change (Z.log2 1) with 0. rewrite Z.sub_0_r.
  pose proof (Z.log2_nonneg (Z.abs n)).
  destruct (Z.leb_spec 0 (Z.log2 (Z.abs n))); [|lia].
  pose proof (Z.log2_spec (Z.abs n) ltac:(lia)).
  destruct (Z.leb_spec (1 * 2 ^ Z.log2 (Z.abs n)) (Z.abs n)); [reflexivity|lia].
Qed.

(** An integer with at most 53 significant bits is a binary64 value. *)
Lemma fl_integer (m j : Z) :
  Z.abs m < 2 ^ 53 -> 0 <= j ->
  fl (inject_Z (m * 2 ^ j)) == inject_Z (m * 2 ^ j).
Proof.
  intros Hm Hj. unfold fl. rewrite Qred_inject_Z.
  destruct (Z.eq_dec m 0) as [->|Hm0]; [reflexivity|].
  assert (Hp : 0 < 2 ^ j) by (apply Z.pow_pos_nonneg; lia).
  assert (Hn : m * 2 ^ j <> 0) by nia.
  destruct (Qeq_bool (inject_Z (m * 2 ^ j)) 0) eqn:E0.
  { apply Qeq_bool_eq in E0. change 0%Q with (inject_Z 0) in E0.
    apply (proj1 (inject_Z_injective _ _)) in E0. contradiction. }
  rewrite ilog2_inject_Z by exact Hn.
  assert (HL : Z.log2 (Z.abs (m * 2 ^ j)) = Z.log2 (Z.abs m) + j).
  { rewrite Z.abs_mul, (Z.abs_eq (2 ^ j)) by lia.
    rewrite <- Z.shiftl_mul_pow2 by lia. apply Z.log2_shiftl; lia. }
  rewrite HL.
  assert (Hlog : 0 <= Z.log2 (Z.abs m) < 53).
  { split; [apply Z.log2_nonneg|]. apply Z.log2_lt_pow2; lia. }
  set (L := Z.log2 (Z.abs m)) in *.
  rewrite Z.max_l by lia.
  set (e := L + j - 52).
  destruct (Z.le_gt_cases e 0) as [He|He].
  - rewrite (round_half_even_int _ (m * 2 ^ j * 2 ^ (- e))).
    + pose proof (scale2_down (m * 2 ^ j) (- e) ltac:(lia)) as Hd.
      rewrite Z.opp_involutive in Hd. exact Hd.
    + apply scale2_up. lia.
  - assert (Hsplit : m * 2 ^ j = m * 2 ^ (j - e) * 2 ^ e).
    { rewrite <- Z.mul_assoc, <- Z.pow_add_r by lia. do 2 f_equal. lia. }
    rewrite (round_half_even_int _ (m * 2 ^ (j - e))).
    + rewrite Hsplit. apply scale2_up. lia.
    + rewrite Hsplit. apply scale2_down. lia.
Qed.

Lemma fl_small_integer (n : Z) :
  Z.abs n < 2 ^ 53 -> fl (inject_Z n) == inject_Z n.
Proof.
  intros Hn. pose proof (fl_integer n 0 Hn ltac:(lia)) as H.
  rewrite Z.pow_0_r, Z.mul_1_r in H. exact H.
Qed.

(** [fl] of a number that is an integer of at most 53 bits. *)
Lemma fl_is_integer (q : Q) (n : Z) :
  q == inject_Z n -> Z.abs n < 2 ^ 53 -> fl q == inject_Z n.
Proof.
  intros E Hn. rewrite (fl_comp q (inject_Z n) E). apply fl_small_integer, Hn.
Qed.

Lemma new_Date_integer (value : Q) (m : Z) :
  value == inject_Z m -> Z.abs m <= 8640000000000000 -> new_Date value = Some m.
Proof.
  intros E Hm. unfold new_Date.
  assert (Hle : Qle_bool (Qabs value) (inject_Z 8640000000000000) = true).
  { apply Qle_bool_iff. rewrite E.
    change (Qabs (inject_Z m)) with (inject_Z (Z.abs m)).
    rewrite <- Zle_Qle. exact Hm. }
  rewrite Hle. f_equal. unfold trunc.
  destruct (Qle_bool 0 value); rewrite E; [apply Qfloor_Z|apply Qceiling_Z].
Qed.

End Binary64.

Section Binary64Error.
Import Js Util.

Lemma scale2_mult (q : Q) (e : Z) : scale2 q e == (q * 2 ^ e)%Q.
Proof.
  unfold scale2. destruct (Z.leb_spec 0 e).
  - rewrite Zpower_Qpower by lia. reflexivity.
  - rewrite Zpower_Qpower by lia. rewrite Qpower_opp.
    unfold Qdiv. rewrite Qinv_involutive. reflexivity.
Qed.

Lemma pow2_pos (e : Z) : (0 < 2 ^ e)%Q.
Proof. apply Qpower_0_lt. reflexivity. Qed.

Lemma pow2_le (a b : Z) : a <= b -> (2 ^ a <= 2 ^ b)%Q.
Proof. intros. apply Qpower_le_compat_l; [exact H|discriminate]. Qed.

Lemma pow2_cancel (e : Z) : (2 ^ (- e) * 2 ^ e == 1)%Q.
Proof.
  rewrite <- Qpower_plus by discriminate.
  replace (- e + e) with 0 by lia. reflexivity.
Qed.

Lemma round_half_even_error (y : Q) :
  (Qabs (inject_Z (round_half_even y) - y) <= 1 # 2)%Q.
Proof.
  unfold round_half_even.
  pose proof (Qfloor_le y) as Hlo. pose proof (Qlt_floor y) as Hhi.
  rewrite inject_Z_plus in Hhi. change (inject_Z 1) with 1%Q in Hhi.
  apply Qabs_Qle_condition.
  destruct (Qcompare (y - inject_Z (Qfloor y)) (1 # 2)) eqn:C.
  - apply Qeq_alt in C.
    destruct (Z.even (Qfloor y)); rewrite ?inject_Z_plus;
      change (inject_Z 1) with 1%Q; lra.
  - apply Qlt_alt in C. lra.
  - apply Qgt_alt in C. rewrite inject_Z_plus. change (inject_Z 1) with 1%Q. lra.
Qed.


(** [2 ^ k <= N / d], from the integer comparison [ilog2] makes. *)
Lemma pow2_le_frac (k N : Z) (d : positive) :
  (if 0 <=? k then Zpos d * 2 ^ k <=? N else Zpos d <=? N * 2 ^ (- k)) = true ->
  (2 ^ k <= N # d)%Q.
Proof.
  destruct (Z.leb_spec 0 k) as [Hk|Hk]; intros H; apply Z.leb_le in H.
  - assert (E : (2 ^ k)%Q == inject_Z (2 ^ k))
      by (symmetry; apply (Zpower_Qpower 2); lia).
    rewrite E. unfold Qle. simpl. lia.
  - replace k with (- (- k)) at 1 by lia. rewrite Qpower_opp.
    assert (E : (2 ^ (- k))%Q == inject_Z (2 ^ (- k)))
      by (symmetry; apply (Zpower_Qpower 2); lia).
    rewrite E.
    assert (Hp : 0 < 2 ^ (- k)) by (apply Z.pow_pos_nonneg; lia).
    destruct (2 ^ (- k)) as [|p|p] eqn:Ep; try lia.
    unfold Qle, Qinv. simpl. lia.
Qed.

Lemma ilog2_lower (x : Q) : ~ x == 0 -> (2 ^ ilog2 x <= Qabs x)%Q.
Proof.
  intros Hx. destruct x as [n d].
  assert (Hn : n <> 0).
  { intros ->. apply Hx. reflexivity. }
  unfold ilog2. cbn [Qnum Qden Qabs].
  set (N := Z.abs n). assert (HN : 0 < N) by (subst N; lia).
  pose proof (Z.log2_spec N HN) as [Ha1 Ha2].
  pose proof (Z.log2_spec (Zpos d) ltac:(lia)) as [Hb1 Hb2].
  pose proof (Z.log2_nonneg N) as Ha0. pose proof (Z.log2_nonneg (Zpos d)) as Hb0.
  set (a := Z.log2 N) in *. set (b := Z.log2 (Zpos d)) in *.
  destruct (if 0 <=? a - b then Z.pos d * 2 ^ (a - b) <=? N
            else Z.pos d <=? N * 2 ^ (- (a - b))) eqn:R.
  - apply pow2_le_frac. exact R.
  - apply pow2_le_frac.
    destruct (Z.leb_spec 0 (a - b - 1)) as [Hk|Hk]; apply Z.leb_le.
    + assert (E : 2 ^ a = 2 ^ (Z.succ b) * 2 ^ (a - b - 1)).
      { rewrite <- Z.pow_add_r by lia. f_equal. lia. }
      assert (0 < 2 ^ (a - b - 1)) by (apply Z.pow_pos_nonneg; lia).
      nia.
    + assert (E : 2 ^ (Z.succ b) = 2 ^ a * 2 ^ (- (a - b - 1))).
      { rewrite <- Z.pow_add_r by lia. f_equal. lia. }
      assert (0 < 2 ^ (- (a - b - 1))) by (apply Z.pow_pos_nonneg; lia).
      nia.
Qed.

Lemma ilog2_upper (x : Q) (k : Z) :
  ~ x == 0 -> (Qabs x < 2 ^ k)%Q -> ilog2 x < k.
Proof.
  intros Hx Hk. destruct (Z.lt_ge_cases (ilog2 x) k) as [|Hge]; [assumption|].
  exfalso. pose proof (ilog2_lower x Hx). pose proof (pow2_le _ _ Hge). lra.
Qed.


(** The rounding error of [fl] is at most half a unit in the last place. *)
Lemma fl_error (x : Q) (k : Z) :
  -1021 <= k -> (Qabs x < 2 ^ k)%Q -> (Qabs (fl x - x) <= 2 ^ (k - 54))%Q.
Proof.
  intros Hk Hx. unfold fl.
  pose proof (Qred_correct x) as Hred. set (x' := Qred x) in *.
  destruct (Qeq_bool x' 0) eqn:E0.
  - apply Qeq_bool_eq in E0. rewrite <- Hred, E0.
    change (Qabs (0 - 0)) with 0%Q. apply Qlt_le_weak, pow2_pos.
  - apply Qeq_bool_neq in E0.
    assert (Hlog : ilog2 x' < k) by (apply ilog2_upper; [exact E0|rewrite Hred; exact Hx]).
    set (e := Z.max (ilog2 x' - 52) (-1074)).
    assert (He : e <= k - 53) by (subst e; lia).
    set (y := scale2 x' (- e)).
    pose proof (round_half_even_error y) as Herr.
    set (r := inject_Z (round_half_even y)) in *.
    assert (Hy : (y * 2 ^ e == x)%Q).
    { subst y. rewrite scale2_mult, <- Qmult_assoc, pow2_cancel, Qmult_1_r. exact Hred. }
    rewrite scale2_mult.
    assert (Hdiff : (r * 2 ^ e - x == (r - y) * 2 ^ e)%Q) by (rewrite <- Hy; ring).
    rewrite Hdiff, Qabs_Qmult, (Qabs_pos (2 ^ e)) by (apply Qlt_le_weak, pow2_pos).
    assert (Hhalf : (2 ^ (k - 54) == 2 ^ (k - 53) * (1 # 2))%Q).
    { replace (k - 54) with (k - 53 + -1) by lia.
      rewrite Qpower_plus by discriminate. reflexivity. }
    rewrite Hhalf.
    pose proof (pow2_le e (k - 53) He) as Hmono.
    pose proof (pow2_pos e) as Hpos.
    pose proof (Qabs_nonneg (r - y)) as Hnn.
    apply Qle_trans with ((1 # 2) * 2 ^ e)%Q.
    + apply Qmult_le_compat_r; [exact Herr|lra].
    + lra.
Qed.


Lemma fl_error_2_50 (x : Q) :
  (- inject_Z (2 ^ 50) < x < inject_Z (2 ^ 50))%Q ->
  (x - (1 # 16) <= fl x <= x + (1 # 16))%Q.
Proof.
  intros Hx.
  assert (H : (Qabs (fl x - x) <= 2 ^ (50 - 54))%Q).
  { apply fl_error; [lia|]. rewrite <- (Zpower_Qpower 2 50) by lia.
    apply Qabs_Qlt_condition. exact Hx. }
  change (2 ^ (50 - 54))%Q with (1 # 16)%Q in H.
  apply Qabs_Qle_condition in H. lra.
Qed.

Lemma fl_error_2_64 (x : Q) :
  (- inject_Z (2 ^ 64) < x < inject_Z (2 ^ 64))%Q ->
  (x - 1024 <= fl x <= x + 1024)%Q.
Proof.
  intros Hx.
  assert (H : (Qabs (fl x - x) <= 2 ^ (64 - 54))%Q).
  { apply fl_error; [lia|]. rewrite <- (Zpower_Qpower 2 64) by lia.
    apply Qabs_Qlt_condition. exact Hx. }
  change (2 ^ (64 - 54))%Q with 1024%Q in H.
  apply Qabs_Qle_condition in H. lra.
Qed.

Lemma trunc_error (x : Q) : (x - 1 < inject_Z (trunc x) < x + 1)%Q.
Proof.
  unfold trunc. destruct (Qle_bool 0 x).
  - pose proof (Qfloor_le x). pose proof (Qlt_floor x) as H1.
    rewrite inject_Z_plus in H1. change (inject_Z 1) with 1%Q in H1. lra.
  - pose proof (Qle_ceiling x). pose proof (Qceiling_lt x) as H1.
    replace (Qceiling x - 1) with (Qceiling x + -1) in H1 by lia.
    rewrite inject_Z_plus in H1. change (inject_Z (-1)) with (-1 # 1)%Q in H1. lra.
Qed.

End Binary64Error.

Section Timestamps.
Import Js Util.

(** A tick count that is a whole number [k] of milliseconds, below
    [2 ^ 57] in magnitude (where its conversion to a double is exact), is
    decoded without any rounding. *)
Lemma dateFromFILETIME_exact (k tz : Z) :
  Z.abs (10000 * k) < 2 ^ 57 ->
  Z.abs tz <= 1440 ->
  dateFromFILETIME (inject_Z tz) (Number_of_BigInt (10000 * k))
  = Some (k - 11644473600000 - tz * 60000).
Proof.
  intros Hk Htz. change (2 ^ 57) with 144115188075855872 in Hk.
  unfold dateFromFILETIME, Number_of_BigInt, fdiv, fsub, fmul.
  assert (A1 : fl (inject_Z (10000 * k)) == inject_Z (10000 * k)).
  { replace (10000 * k) with (625 * k * 2 ^ 4) by (change (2 ^ 4) with 16; lia).
    apply fl_integer; [change (2 ^ 53) with 9007199254740992|]; lia. }
  assert (A2 : fl (fl (inject_Z (10000 * k)) / inject_Z 10000) == inject_Z k).
  { apply fl_is_integer; [|change (2 ^ 53) with 9007199254740992; lia].
    rewrite A1. unfold Qeq, Qdiv, Qmult, Qinv. simpl. lia. }
  assert (A3 : fl (fl (fl (inject_Z (10000 * k)) / inject_Z 10000)
                   - literal_116444736e5) == inject_Z (k - 11644473600000)).
  { apply fl_is_integer; [|change (2 ^ 53) with 9007199254740992; lia].
    rewrite A2. unfold literal_116444736e5, Qeq, Qminus, Qplus, Qopp. simpl. lia. }
  assert (B1 : fl (inject_Z tz * inject_Z 60) == inject_Z (tz * 60)).
  { apply fl_is_integer; [|change (2 ^ 53) with 9007199254740992; lia].
    rewrite inject_Z_mult. reflexivity. }
  assert (B2 : fl (fl (inject_Z tz * inject_Z 60) * inject_Z 1000)
               == inject_Z (tz * 60000)).
  { apply fl_is_integer; [|change (2 ^ 53) with 9007199254740992; lia].
    rewrite B1, <- inject_Z_mult. apply inject_Z_injective. lia. }
  apply new_Date_integer; [|lia].
  apply fl_is_integer; [|change (2 ^ 53) with 9007199254740992; lia].
  rewrite A3, B2. unfold Qeq, Qminus, Qplus, Qopp. simpl. lia.
Qed.

(** Every 64-bit tick count is decoded to a date; the roundings of the
    double arithmetic and the truncation of the date constructor move
    its time value by less than 1.3 ms. *)
Lemma dateFromFILETIME_close (t tz : Z) :
  - 2 ^ 63 <= t < 2 ^ 63 -> Z.abs tz <= 1440 ->
  exists v : Z,
    dateFromFILETIME (inject_Z tz) (Number_of_BigInt t) = Some v
    /\ (Qabs (inject_Z v
              - (inject_Z t / inject_Z 10000 - inject_Z 11644473600000
                 - inject_Z (tz * 60000))) < 13 # 10)%Q.
Proof.
  intros Ht Htz. change (2 ^ 63) with 9223372036854775808 in Ht.
  unfold dateFromFILETIME, Number_of_BigInt, fdiv, fsub, fmul.
  assert (B1 : fl (inject_Z tz * inject_Z 60) == inject_Z (tz * 60)).
  { apply fl_is_integer; [|change (2 ^ 53) with 9007199254740992; lia].
    rewrite inject_Z_mult. reflexivity. }
  assert (B2 : fl (fl (inject_Z tz * inject_Z 60) * inject_Z 1000)
               == inject_Z (tz * 60000)).
  { apply fl_is_integer; [|change (2 ^ 53) with 9007199254740992; lia].
    rewrite B1, <- inject_Z_mult. apply inject_Z_injective. lia. }
  set (Zt := fl (fl (inject_Z tz * inject_Z 60) * inject_Z 1000)) in *.
  assert (HZ : (- 86400000 <= inject_Z (tz * 60000) <= 86400000)%Q).
  { split; [change (-86400000)%Q with (inject_Z (-86400000))
           |change 86400000%Q with (inject_Z 86400000)];
      rewrite <- Zle_Qle; lia. }
  set (Z60 := inject_Z (tz * 60000)) in *.
  assert (HT : (- 9223372036854775808 <= inject_Z t <= 9223372036854775808)%Q).
  { split; [change (-9223372036854775808)%Q with (inject_Z (-9223372036854775808))
           |change 9223372036854775808%Q with (inject_Z 9223372036854775808)];
      rewrite <- Zle_Qle; lia. }
  set (T := inject_Z t) in *.
  change (inject_Z 10000) with 10000%Q.
  unfold literal_116444736e5.
  change (inject_Z (116444736 * 10 ^ 5)) with 11644473600000%Q.
  change (inject_Z 11644473600000) with 11644473600000%Q.
  pose proof (fl_error_2_64 T) as H0. change (inject_Z (2 ^ 64)) with 18446744073709551616%Q in H0.
  specialize (H0 ltac:(lra)). set (x0 := fl T) in *.
  assert (D0 : (x0 / 10000 == x0 * (1 # 10000))%Q) by reflexivity.
  set (q0 := (x0 / 10000)%Q) in *.
  pose proof (fl_error_2_50 q0) as H1.
  change (inject_Z (2 ^ 50)) with 1125899906842624%Q in H1.
  specialize (H1 ltac:(lra)). set (x1 := fl q0) in *.
  pose proof (fl_error_2_50 (x1 - 11644473600000)) as H2.
  change (inject_Z (2 ^ 50)) with 1125899906842624%Q in H2.
  specialize (H2 ltac:(lra)). set (x2 := fl (x1 - 11644473600000)) in *.
  pose proof (fl_error_2_50 (x2 - Z60)) as H3.
  change (inject_Z (2 ^ 50)) with 1125899906842624%Q in H3.
  specialize (H3 ltac:(lra)).
  assert (E3 : fl (x2 - Zt) = fl (x2 - Z60)) by (apply fl_comp; rewrite B2; reflexivity).
  rewrite E3. set (x3 := fl (x2 - Z60)) in *.
  pose proof (trunc_error x3) as Htr.
  exists (trunc x3). split.
  - unfold new_Date.
    assert (Hle : Qle_bool (Qabs x3) (inject_Z 8640000000000000) = true).
    { apply Qle_bool_iff. change (inject_Z 8640000000000000) with 8640000000000000%Q.
      apply Qabs_Qle_condition. lra. }
    rewrite Hle. reflexivity.
  - apply Qabs_Qlt_condition.
    assert (DT : (T / 10000 == T * (1 # 10000))%Q) by reflexivity.
    set (qT := (T / 10000)%Q) in *. lra.
Qed.

(** C2, as the code has it. The constant of the source is the literal
    [116444736e5], that is 11,644,473,600,000 ms. For every 64-bit tick
    count [t] and timezone offset of [tz] minutes the decoder returns a
    date whose time value is within 1.3 ms of
    [t / 10000 - 11644473600000 - tz * 60000], and is that value when
    [t] is a whole number of milliseconds below [2 ^ 57] in magnitude. *)
Theorem dateFromFILETIME_value (t tz : Z) :
  - 2 ^ 63 <= t < 2 ^ 63 -> Z.abs tz <= 1440 ->
  exists v : Z,
    dateFromFILETIME (inject_Z tz) (Number_of_BigInt t) = Some v
    /\ (Qabs (inject_Z v
              - (inject_Z t / inject_Z 10000 - inject_Z 11644473600000
                 - inject_Z (tz * 60000))) < 13 # 10)%Q
    /\ (forall k, t = 10000 * k -> Z.abs t < 2 ^ 57 ->
        v = k - 11644473600000 - tz * 60000).
Proof.
  intros Ht Htz. destruct (dateFromFILETIME_close t tz Ht Htz) as (v & Hv & Hclose).
  exists v. split; [exact Hv|]. split; [exact Hclose|].
  intros k -> Hk. rewrite (dateFromFILETIME_exact k tz Hk Htz) in Hv.
  injection Hv as <-. reflexivity.
Qed.


(** C2 as stated fails. With tick count 0 and timezone offset 0 the date
    is -11,644,473,600,000 ms, not -116,444,736,000,000 ms. And the
    quotient is not taken exactly: with tick count 5000 the double
    -11644473599999.5 is truncated to -11,644,473,599,999. *)
Lemma dateFromFILETIME_constant_counterexample :
  dateFromFILETIME 0 (Number_of_BigInt 0) = Some (-11644473600000)
  /\ dateFromFILETIME 0 (Number_of_BigInt 0)
     <> Some (0 / 10000 - 116444736000000 - 0)
  /\ dateFromFILETIME 0 (Number_of_BigInt 5000) = Some (-11644473599999)
  /\ dateFromFILETIME 0 (Number_of_BigInt 5000)
     <> Some (5000 / 10000 - 11644473600000 - 0).
Proof. vm_compute. repeat split; congruence. Qed.

End Timestamps.

(* ===================================================================== *)
(** ** The properties at concrete inputs *)
(* ===================================================================== *)

Section Instances.
Import Js Util.

(** [fl] on known doubles: 0.1 is 0x1.999999999999ap-4, and [2 ^ 53 + 1]
    lies half way between two doubles and goes to the even one. *)
Example fl_one_tenth :
  Qred (fl (1 # 10)) = (3602879701896397 # 36028797018963968)%Q.
Proof. vm_compute. reflexivity. Qed.

Example fl_ties_to_even :
  Qred (fl (inject_Z (2 ^ 53 + 1))) = inject_Z (2 ^ 53)
  /\ Qred (fl (inject_Z (2 ^ 53 + 3))) = inject_Z (2 ^ 53 + 4).
Proof. vm_compute. split; reflexivity. Qed.

(** C4 fails on the code: the value of an item holds as many bytes as
    the item size says, not the size less 3. In the list of the two items
    "C:\" (size 6) and 41 (size 4) the value of the first item is its
    three payload bytes followed by the size field and the tag of the
    second item, and the value of the second ends with the terminator. *)
Theorem parse_value_overruns_item :
  let buffer := Wire.encode_id_list Samples.two_items in
  buffer = [x0c; x00; x06; x00; x2f; x43; x3a; x5c; x04; x00; x32; x41; x00; x00]
  /\ IDList.parse 2 buffer
     = Ok (IDList.mkList true
             [ IDList.mkItem 0x2f [0x43; 0x3a; 0x5c; 0x04; 0x00; 0x32];
               IDList.mkItem 0x32 [0x41; 0x00; 0x00] ]
             None)
  /\ array_from (Wire.payload Samples.drive_item) = [0x43; 0x3a; 0x5c]
  /\ Wire.item_size Samples.drive_item - 3 = 3.
Proof. vm_compute. repeat split; reflexivity. Qed.

Lemma header_validity_witness :
  let flipped := <[0%nat := x4d]> Samples.minimal_shortcut in
  fst (Parser.parseHeader 0 0 true (Parser.mkParser 0 Samples.minimal_shortcut))
  = Ok Samples.minimal_file
  /\ (Parser.valid Samples.minimal_file = true
      <-> take 20 (drop (Z.to_nat 0) Samples.minimal_shortcut) = Wire.valid_prefix)
  /\ Layout.header_layout 0 0 0 Samples.minimal_shortcut Samples.minimal_file
  /\ exists file',
       fst (Parser.parseHeader 0 0 true (Parser.mkParser 0 flipped)) = Ok file'
       /\ Parser.valid file' = false
       /\ Layout.header_layout 0 0 0 flipped file'
       /\ Parser.headerSize file' = 77
       /\ Parser.showCommand file' = Parser.showCommand Samples.minimal_file.
Proof.
  cbv zeta.
  assert (H : fst (Parser.parseHeader 0 0 true
                     (Parser.mkParser 0 Samples.minimal_shortcut))
              = Ok Samples.minimal_file) by (vm_compute; reflexivity).
  destruct (header_validity 0 0 true _ _ H) as (_ & Hiff & Hlayout & Hflip).
  cbn [Parser.offset Parser.buffer] in Hiff, Hlayout, Hflip.
  split; [exact H|]. split; [exact Hiff|]. split; [exact Hlayout|].
  destruct (Hflip eq_refl 0%nat x4d ltac:(simpl; lia)
              ltac:(vm_compute; discriminate))
    as (file' & Hrun & Hvalid & Hlayout' & _ & _ & _ & _ & _ & _ & _ & Hshow & _).
  exists file'. split; [exact Hrun|]. split; [exact Hvalid|].
  split; [exact Hlayout'|]. split; [|exact Hshow].
  destruct Hlayout' as (Hsize & _).
  assert (E : readInt32LE (<[0%nat := x4d]> Samples.minimal_shortcut) 0 = Ok 77)
    by (vm_compute; reflexivity).
  rewrite E in Hsize. apply Ok_inj in Hsize. symmetry. exact Hsize.
Defined.

Lemma dateFromFILETIME_value_witness :
  - 2 ^ 63 <= 132223104000000000 < 2 ^ 63
  /\ Z.abs (-60) <= 1440
  /\ dateFromFILETIME (inject_Z (-60)) (Number_of_BigInt 132223104000000000)
     = Some (13222310400000 - 11644473600000 - -60 * 60000).
Proof.
  assert (H1 : - 2 ^ 63 <= 132223104000000000 < 2 ^ 63)
    by (split; [intros C; discriminate C|reflexivity]).
  assert (H2 : Z.abs (-60) <= 1440) by (intros C; discriminate C).
  split; [exact H1|]. split; [exact H2|].
  destruct (dateFromFILETIME_value 132223104000000000 (-60) H1 H2)
    as (v & Hv & _ & Hexact).
  rewrite Hv. f_equal. apply Hexact; reflexivity.
Defined.

Lemma parse_stops_at_terminator_witness :
  Wire.well_formed Samples.two_items
  /\ (length Samples.two_items <= 2)%nat
  /\ exists locals,
       IDList.parse_loop 2 (Wire.encode_id_list Samples.two_items ++ []) [] 2
                         (Wire.items_size Samples.two_items + 2) = Ok locals
       /\ IDList.l_readOffset locals = 2 + Wire.items_size Samples.two_items
       /\ IDList.l_remainingBytes locals = 2
       /\ IDList.l_readOffset locals + 2
          = Z.of_nat (length (Wire.encode_id_list Samples.two_items)).
Proof.
  assert (H1 : Wire.well_formed Samples.two_items) by reflexivity.
  assert (H2 : (length Samples.two_items <= 2)%nat) by (simpl; constructor).
  split; [exact H1|]. split; [exact H2|].
  destruct (parse_stops_at_terminator Samples.two_items [] [xff] 2 H1 H2)
    as (locals & _ & Hloop & _ & _ & _ & _ & Hrem & Hoff & _ & _ & _ & Hend & _).
  exists locals. split; [exact Hloop|]. split; [exact Hoff|].
  split; [exact Hrem|exact Hend].
Defined.

(** C3 as stated fails: on the well-formed list of the two items of sizes
    6 and 4 (14 bytes: prefix, items, terminator) the loop is left with
    the cursor at 12, so 12 bytes were consumed and not the 14 of the
    claim; and the list without its terminator (12 bytes) is read with
    the same cursor and count. *)
Lemma parse_terminator_counterexample :
  let buffer := Wire.encode_id_list Samples.two_items in
  Z.of_nat (length buffer) = 14
  /\ Wire.items_size Samples.two_items + 2 + 2 = 14
  /\ (exists items,
        IDList.parse_loop 2 buffer [] 2 12 = Ok (IDList.mkLocals items 12 2))
  /\ 12 <> Wire.items_size Samples.two_items + 2 + 2
  /\ (exists items,
        IDList.parse_loop 2 (take 12 buffer) [] 2 12
        = Ok (IDList.mkLocals items 12 2)).
Proof.
  cbv zeta. split; [reflexivity|]. split; [reflexivity|]. split.
  - eexists. vm_compute. reflexivity.
  - split; [intros C; discriminate C|]. eexists. vm_compute. reflexivity.
Qed.

Lemma guid_round_trip_witness :
  length (drop 4 Wire.valid_prefix) = 16%nat
  /\ formatGUID (guidFromIDLBytes (array_from (drop 4 Wire.valid_prefix)))
     = lit "{00021401-0000-0000-c000-000000000046}"
  /\ Wire.guid_bytes_of_string
       (formatGUID (guidFromIDLBytes (array_from (drop 4 Wire.valid_prefix))))
     = array_from (drop 4 Wire.valid_prefix).
Proof.
  assert (H : length (drop 4 Wire.valid_prefix) = 16%nat) by reflexivity.
  split; [exact H|]. split; [vm_compute; reflexivity|].
  exact (proj2 (guid_round_trip (drop 4 Wire.valid_prefix) H)).
Defined.

Lemma showCommand_normalized_witness :
  fst (Parser.parseHeader 0 0 true (Parser.mkParser 0 Samples.odd_show_command))
  = Ok Samples.minimal_file
  /\ readUInt32LE Samples.odd_show_command 60 = Ok 5
  /\ Parser.showCommand Samples.minimal_file = Parser.Normal.
Proof.
  assert (H : fst (Parser.parseHeader 0 0 true
                     (Parser.mkParser 0 Samples.odd_show_command))
              = Ok Samples.minimal_file) by (vm_compute; reflexivity).
  split; [exact H|]. split; [vm_compute; reflexivity|].
  destruct (showCommand_normalized 0 0 true _ _ H) as (_ & (raw & Hraw & _ & Hn) & _).
  vm_compute in Hraw. injection Hraw as <-.
  apply Hn; intros C; discriminate C.
Defined.

End Instances.

(* ===================================================================== *)
(** ** Further properties of the decoders *)
(* ===================================================================== *)

Section StringDecoders.
Import Js Util.

Lemma readCString_loop_spec (l : numbers) :
  exists tail,
    map (fun b => b mod 65536) l = readCString_loop l ++ tail
    /\ Forall Paths.code_unit (readCString_loop l)
    /\ (tail = [] \/ exists tail', tail = 0 :: tail').
Proof.
  induction l as [|b l (tail & E & Hall & Htail)].
  - exists []. repeat split; [constructor|left; reflexivity].
  - cbn [readCString_loop map fromCharCode].
    destruct (Z.eqb_spec (b mod 65536) 0) as [E0|E0].
    + exists (map (fun b => b mod 65536) (b :: l)). cbn [map app].
      repeat split; [constructor|]. right. rewrite E0. eauto.
    + exists tail. cbn [app]. rewrite E. repeat split; [|exact Htail].
      constructor; [|exact Hall]. unfold Paths.code_unit.
      pose proof (Z.mod_pos_bound b 65536 ltac:(lia)). lia.
Qed.

(** X1: whatever the array and the offset, [readCString] returns the code
    units found from the offset up to the first NUL, or up to the end of
    the array when there is none: the result holds no NUL, is never longer
    than what the array holds from the offset on, and is followed there by
    a NUL or by nothing. An offset past the end gives the empty string. *)
Theorem readCString_up_to_nul (buffer : numbers) (offset : nat) :
  (exists tail,
     Paths.units_from buffer offset = readCString buffer offset ++ tail
     /\ (tail = [] \/ exists tail', tail = 0 :: tail'))
  /\ Forall Paths.code_unit (readCString buffer offset)
  /\ (length (readCString buffer offset) <= length buffer - offset)%nat
  /\ readCString buffer (length buffer + offset) = [].
Proof.
  unfold readCString, Paths.units_from.
  destruct (readCString_loop_spec (drop offset buffer)) as (tail & E & Hall & Htail).
  split; [exists tail; auto|]. split; [exact Hall|]. split.
  - apply (f_equal length) in E.
    rewrite length_map, length_app, length_drop in E. lia.
  - rewrite drop_ge by lia. reflexivity.
Qed.

(** Code units, checked by computation. *)
Lemma code_unit_forallb (l : jsstring) :
  forallb (fun c => (0 <? c) && (c <? 65536)) l = true ->
  Forall Paths.code_unit l.
Proof.
  induction l as [|c l IH]; cbn [forallb]; [constructor|].
  rewrite !andb_true_iff, !Z.ltb_lt. intros [Hc Hl].
  constructor; [exact Hc|exact (IH Hl)].
Qed.

Lemma readCString_loop_name (name rest : numbers) :
  Forall Paths.code_unit name ->
  (rest = [] \/ exists rest', rest = 0 :: rest') ->
  readCString_loop (name ++ rest) = name.
Proof.
  intros Hall Hrest. induction Hall as [|c name Hc _ IH].
  - destruct Hrest as [->|(rest' & ->)]; reflexivity.
  - cbn [app readCString_loop fromCharCode]. unfold Paths.code_unit in Hc.
    rewrite Z.mod_small by lia.
    destruct (Z.eqb_spec c 0); [lia|]. rewrite IH. reflexivity.
Qed.

(** X2: a name of non-zero code units stored at [offset] and followed by
    a NUL is read back as it is, whatever follows the NUL; so is a name
    that runs to the end of the array without a NUL. *)
Theorem readCString_reads_name (pre name rest : numbers) :
  Forall Paths.code_unit name ->
  readCString (pre ++ name ++ 0 :: rest) (length pre) = name
  /\ readCString (pre ++ name) (length pre) = name.
Proof.
  intros Hall. unfold readCString. rewrite !drop_app_length. split.
  - apply readCString_loop_name; eauto.
  - rewrite <- (app_nil_r name) at 1. apply readCString_loop_name; auto.
Qed.

Lemma unicodeChar_of_unit (c : Z) :
  Paths.code_unit c -> unicodeChar (Some (c mod 256)) (Some (c / 256)) = c.
Proof.
  unfold Paths.code_unit. intros Hc. unfold unicodeChar, fromCharCode, int32_of.
  assert (0 <= c mod 256 < 256) by (apply Z.mod_pos_bound; lia).
  assert (0 <= c / 256 < 256) by (Z.div_mod_to_equations; lia).
  rewrite !to_int32_small by (change (2 ^ 31) with 2147483648; lia).
  rewrite field16_sum by assumption.
  rewrite Z.mod_small by (Z.div_mod_to_equations; lia).
  Z.div_mod_to_equations; lia.
Qed.

Lemma unicodeChar_range (lo hi : option Z) : 0 <= unicodeChar lo hi < 65536.
Proof. unfold unicodeChar, fromCharCode. apply Z.mod_pos_bound. lia. Qed.

Lemma readCUnicode_loop_name (name rest : numbers) :
  Forall Paths.code_unit name ->
  (rest = [] \/ rest = [0] \/ exists rest', rest = 0 :: 0 :: rest') ->
  readCUnicode_loop (Paths.utf16le name ++ rest) = name.
Proof.
  intros Hall Hrest. induction Hall as [|c name Hc _ IH].
  - destruct Hrest as [->|[->|(rest' & ->)]]; reflexivity.
  - cbn [Paths.utf16le flat_map app readCUnicode_loop].
    rewrite unicodeChar_of_unit by exact Hc. unfold Paths.code_unit in Hc.
    destruct (Z.eqb_spec c 0); [lia|].
    fold (Paths.utf16le name). rewrite IH. reflexivity.
Qed.

Lemma readCUnicode_loop_odd (name : numbers) (b : Z) :
  Forall Paths.code_unit name -> 0 < b < 256 ->
  readCUnicode_loop (Paths.utf16le name ++ [b]) = name ++ [b].
Proof.
  intros Hall Hb. induction Hall as [|c name Hc _ IH].
  - cbn [Paths.utf16le flat_map app readCUnicode_loop].
    unfold unicodeChar, fromCharCode, int32_of, shl, bor.
    rewrite (to_int32_small b) by (change (2 ^ 31) with 2147483648; lia).
    change (to_int32 (Z.shiftl 0 8)) with 0. rewrite Z.lor_0_l.
    rewrite Z.mod_small by lia. destruct (Z.eqb_spec b 0); [lia|reflexivity].
  - cbn [Paths.utf16le flat_map app readCUnicode_loop].
    rewrite unicodeChar_of_unit by exact Hc. unfold Paths.code_unit in Hc.
    destruct (Z.eqb_spec c 0); [lia|].
    fold (Paths.utf16le name). rewrite IH. reflexivity.
Qed.

(** X3: a string of non-zero code units stored in UTF-16LE at [offset]
    and followed by a NUL code unit is read back as it is, whatever follows;
    so is a string that runs to the end of the array. A single byte left
    over at the end of the array is read as a character of its own. *)
Theorem readCUnicode_reads_name (pre name rest : numbers) (b : Z) :
  Forall Paths.code_unit name ->
  0 < b < 256 ->
  readCUnicode (pre ++ Paths.utf16le name ++ 0 :: 0 :: rest) (length pre) = name
  /\ readCUnicode (pre ++ Paths.utf16le name) (length pre) = name
  /\ readCUnicode (pre ++ Paths.utf16le name ++ [b]) (length pre) = name ++ [b].
Proof.
  intros Hall Hb. unfold readCUnicode. rewrite !drop_app_length. split; [|split].
  - apply readCUnicode_loop_name; eauto.
  - rewrite <- (app_nil_r (Paths.utf16le name)). apply readCUnicode_loop_name; auto.
  - apply readCUnicode_loop_odd; assumption.
Qed.

Lemma readCUnicode_loop_bounds (n : nat) :
  forall l : numbers, (length l <= n)%nat ->
  Forall Paths.code_unit (readCUnicode_loop l)
  /\ (2 * length (readCUnicode_loop l) <= length l + 1)%nat.
Proof.
  induction n as [|n IH]; intros l Hl.
  - destruct l; [|simpl in Hl; lia]. split; [constructor|simpl; lia].
  - destruct l as [|lo [|hi l]].
    + split; [constructor|simpl; lia].
    + cbn [readCUnicode_loop].
      pose proof (unicodeChar_range (Some lo) None).
      destruct (Z.eqb_spec (unicodeChar (Some lo) None) 0).
      * split; [constructor|simpl; lia].
      * split; [|simpl; lia]. repeat constructor; unfold Paths.code_unit; lia.
    + cbn [readCUnicode_loop].
      pose proof (unicodeChar_range (Some lo) (Some hi)).
      destruct (Z.eqb_spec (unicodeChar (Some lo) (Some hi)) 0).
      * split; [constructor|simpl; lia].
      * destruct (IH l) as [Hall Hlen]; [simpl in Hl; lia|].
        split; [|simpl in *; lia].
        constructor; [unfold Paths.code_unit; lia|exact Hall].
Qed.

(** X4: whatever the array and the offset, [readCUnicode] returns no NUL
    and at most one character for every two elements the array holds from
    the offset on (one more for an odd element at the end); an offset past
    the end gives the empty string. *)
Theorem readCUnicode_bounded (buffer : numbers) (offset : nat) :
  Forall Paths.code_unit (readCUnicode buffer offset)
  /\ (2 * length (readCUnicode buffer offset) <= length buffer - offset + 1)%nat
  /\ readCUnicode buffer (length buffer + offset) = [].
Proof.
  unfold readCUnicode.
  destruct (readCUnicode_loop_bounds (length (drop offset buffer))
              (drop offset buffer) (le_n _)) as [Hall Hlen].
  rewrite length_drop in Hlen. split; [exact Hall|]. split; [exact Hlen|].
  rewrite drop_ge by lia. reflexivity.
Qed.

(** X5: [readString] always returns [length] characters: the code units
    the array holds from [offset] on, and NUL characters for the positions
    past the end of the array. *)
Theorem readString_pads (buffer : numbers) (offset len : nat) :
  readString buffer offset len
  = take len (Paths.units_from buffer offset)
    ++ repeat 0 (len - (length buffer - offset))
  /\ length (readString buffer offset len) = len.
Proof.
  assert (H : readString buffer offset len
              = take len (Paths.units_from buffer offset)
                ++ repeat 0 (len - (length buffer - offset))).
  { unfold readString, Paths.units_from. revert offset.
    induction len as [|len IH]; intros offset; [reflexivity|].
    cbn [seq map]. rewrite IH.
    destruct (buffer !! offset) as [b|] eqn:E.
    - pose proof (lookup_lt_Some _ _ _ E) as Hlt.
      rewrite (drop_S buffer b offset E). cbn [map take fromCharCode app].
      replace (S len - (length buffer - offset))%nat
        with (len - (length buffer - S offset))%nat by lia.
      reflexivity.
    - pose proof (lookup_ge_None_1 _ _ E) as Hge.
      rewrite !drop_ge by lia. cbn [map fromCharCode]. rewrite !take_nil.
      cbn [app]. replace (S len - (length buffer - offset))%nat with (S len) by lia.
      replace (len - (length buffer - S offset))%nat with len by lia.
      reflexivity. }
  split; [exact H|]. unfold readString. rewrite length_map, length_seq. reflexivity.
Qed.

End StringDecoders.

Section GuidText.
Import Js Util.

Lemma hexToChar_lower (d : Z) : Wire.is_lower_hex (hexToChar d) = true.
Proof.
  rewrite hexToChar_low. apply is_lower_hex_digit. apply Z.mod_pos_bound. lia.
Qed.

Lemma length_flat_map_pairs {A B} (f g : A -> B) (l : list A) :
  length (flat_map (fun d => [f d; g d]) l) = (2 * length l)%nat.
Proof. induction l as [|x l IH]; simpl; [reflexivity|]. rewrite IH. lia. Qed.

(** Every character [formatGUID] prints is a brace, a hyphen or a
    lowercase hex digit. *)
Lemma formatGUID_chars (guid : numbers) :
  Forall (fun c => c = 123 \/ c = 125 \/ c = 45 \/ Wire.is_lower_hex c = true)
         (formatGUID guid).
Proof.
  unfold formatGUID.
  set (data := [_; _; _; _; _; _; _; _] ++ drop 3 guid).
  set (hexString := map hexToChar (flat_map (fun d => [sar (to_int32 d) 4; d]) data)).
  assert (Hhex : Forall (fun c => c = 123 \/ c = 125 \/ c = 45
                                  \/ Wire.is_lower_hex c = true) hexString).
  { unfold hexString. apply Forall_fmap, Forall_true. intros d. simpl.
    right. right. right. apply hexToChar_lower. }
  unfold substr.
  repeat (apply Forall_app; split);
    try (apply Forall_take; try apply Forall_drop; exact Hhex);
    try (apply Forall_drop; exact Hhex);
    (apply List.Forall_cons; [|apply List.Forall_nil]).
  - left. reflexivity.
  - right. right. left. reflexivity.
  - right. right. left. reflexivity.
  - right. right. left. reflexivity.
  - right. right. left. reflexivity.
  - right. left. reflexivity.
Qed.

(** X6: for every array of numbers, of any length and with any entries,
    [formatGUID] prints 22 characters and two more for every entry behind
    the third; the string opens with a brace, closes with a brace, and all
    its characters are braces, hyphens and lowercase hex digits: it never
    holds an uppercase letter. *)
Theorem formatGUID_alphabet (guid : numbers) :
  length (formatGUID guid) = (22 + 2 * length (drop 3 guid))%nat
  /\ formatGUID guid !! 0%nat = Some 123
  /\ last (formatGUID guid) = Some 125
  /\ Forall (fun c => c = 123 \/ c = 125 \/ c = 45 \/ Wire.is_lower_hex c = true)
            (formatGUID guid).
Proof.
  split; [|split; [reflexivity|split; [|apply formatGUID_chars]]].
  - unfold formatGUID.
    set (data := [_; _; _; _; _; _; _; _] ++ drop 3 guid).
    set (hexString :=
           map hexToChar (flat_map (fun d => [sar (to_int32 d) 4; d]) data)).
    assert (Hlen : length hexString = (16 + 2 * length (drop 3 guid))%nat).
    { unfold hexString. rewrite length_map, length_flat_map_pairs.
      unfold data. rewrite length_app. simpl. lia. }
    unfold substr. rewrite !length_app, !length_take, !length_drop, Hlen.
    rewrite length_drop. unfold lit. cbn [length map list_ascii_of_string].
    lia.
  - unfold formatGUID. rewrite !app_assoc. apply last_snoc.
Qed.

End GuidText.

Section PathSteps.
Import Js Util IDList.

(** The key of [TargetRootGuids] is printed in uppercase. *)
Lemma formatGUID_never_a_root (guid : numbers) :
  includes (Object_keys TargetRootGuids) (formatGUID guid) = false.
Proof.
  cbn [includes Object_keys TargetRootGuids map fst existsb].
  rewrite orb_false_r. apply bool_decide_eq_false_2. intros E.
  pose proof (formatGUID_chars guid) as Hall.
  rewrite <- E in Hall.
  apply (proj1 (Forall_lookup _ _)) with (i := 3%nat) (x := 68) in Hall;
    [|reflexivity].
  destruct Hall as [C|[C|[C|C]]]; discriminate C.
Qed.

(** X7: a [RootEntry] item adds nothing to the path, whatever its value
    holds: [formatGUID] prints lowercase hex digits and the only key of
    [TargetRootGuids], {20D04FE0-3AEA-1069-A2D8-08002B30309D}, is written in
    uppercase, so the lookup never succeeds. *)
Theorem rootEntry_adds_nothing (path : jsstring) (item : LinkTargetIDItem) :
  itemType item = RootEntry -> getPath_item path item = Ok path.
Proof.
  intros Hty. unfold getPath_item. rewrite Hty.
  change (RootEntry =? RootEntry) with true. cbv iota.
  rewrite formatGUID_never_a_root. reflexivity.
Qed.

Lemma getPath_item_outcome (path : jsstring) (item : LinkTargetIDItem) :
  match getPath_item path item with
  | Ok path' => exists added, path' = path ++ added
                /\ getPath_item [] item = Ok added
  | Throw e =>
      itemType item = UserDirectory
      /\ getPath_item [] item = Throw e
      /\ (e = ThrownString (lit "Method not implemented")
          \/ e = ThrownString (lit "Invalid signature!"))
  | OutOfFuel => False
  end.
Proof.
  unfold getPath_item.
  destruct (itemType item =? RootEntry).
  { rewrite formatGUID_never_a_root. exists []. rewrite app_nil_r. auto. }
  destruct (itemType item =? DriveLetter).
  { eexists. split; reflexivity. }
  destruct (itemType item =? Directory).
  { eexists. split; reflexivity. }
  destruct (Z.eqb_spec (itemType item) UserDirectory) as [Hud|Hud].
  { destruct (bool_decide _); [auto|].
    destruct (bool_decide _); [|auto].
    eexists. split; reflexivity. }
  destruct ((itemType item =? File) || false || (itemType item =? FileUnicode)
            || (itemType item =? DirectoryUnicode)).
  - destruct ((itemType item =? DirectoryUnicode) || false);
      destruct ((itemType item =? DirectoryUnicode) || (itemType item =? FileUnicode));
      rewrite <- ?app_assoc; eexists; split; reflexivity.
  - exists []. rewrite app_nil_r. auto.
Qed.

Lemma getPath_loop_from (its : list LinkTargetIDItem) (path : jsstring) :
  getPath_loop its path
  = bind (getPath_loop its []) (fun added => Ok (path ++ added)).
Proof.
  revert path. induction its as [|item its IH]; intros path.
  - simpl. rewrite app_nil_r. reflexivity.
  - cbn [getPath_loop]. pose proof (getPath_item_outcome path item) as H.
    destruct (getPath_item path item) as [path'|e|].
    + destruct H as (added & -> & ->). cbn [bind].
      rewrite (IH (path ++ added)), (IH added).
      destruct (getPath_loop its []); cbn [bind]; rewrite ?app_assoc; reflexivity.
    + destruct H as (_ & -> & _). reflexivity.
    + contradiction.
Qed.

(** X8: the path of a list of items is the concatenation of the paths
    of its parts: the items of [before ++ after] give the path of [before]
    followed by the path of [after], and a throw in either part is the
    throw of the whole. *)
Theorem getPath_concatenates (before after : list LinkTargetIDItem) :
  getPath_loop (before ++ after) []
  = bind (getPath_loop before []) (fun p =>
    bind (getPath_loop after []) (fun q => Ok (p ++ q))).
Proof.
  rewrite getPath_loop_app.
  destruct (getPath_loop before []) as [p| |]; cbn [bind]; try reflexivity.
  apply getPath_loop_from.
Qed.

Lemma getPath_loop_outcome (its : list LinkTargetIDItem) (path : jsstring) :
  match getPath_loop its path with
  | Ok _ => True
  | Throw e =>
      Exists (fun item => itemType item = UserDirectory) its
      /\ (e = ThrownString (lit "Method not implemented")
          \/ e = ThrownString (lit "Invalid signature!"))
  | OutOfFuel => False
  end.
Proof.
  revert path. induction its as [|item its IH]; intros path; [exact I|].
  cbn [getPath_loop]. pose proof (getPath_item_outcome path item) as H.
  destruct (getPath_item path item) as [path'|e|]; cbn [bind].
  - specialize (IH path'). destruct (getPath_loop its path'); auto.
    destruct IH as [Hex He]. split; [apply Exists_cons_tl; exact Hex|exact He].
  - destruct H as (Hud & _ & He). split; [apply Exists_cons_hd; exact Hud|exact He].
  - contradiction.
Qed.

(** X9: [getPath] either completes, returning the path and storing it
    in [cachedPath], or throws one of the two strings of the
    [UserDirectory] case and leaves the list as it was. It throws only
    when the list holds a [UserDirectory] item: items of any other type,
    known or not, never make it fail. *)
Theorem getPath_fails_only_on_userDirectory (this : LinkTargetIDList) :
  match fst (getPath this) with
  | Ok path => snd (getPath this) = mkList (valid this) (items this) (Some path)
  | Throw e =>
      Exists (fun item => itemType item = UserDirectory) (items this)
      /\ (e = ThrownString (lit "Method not implemented")
          \/ e = ThrownString (lit "Invalid signature!"))
      /\ snd (getPath this) = this
  | OutOfFuel => False
  end.
Proof.
  unfold getPath. pose proof (getPath_loop_outcome (items this) []) as H.
  destruct (getPath_loop (items this) []); cbn [fst snd]; tauto.
Qed.

End PathSteps.

Section PathRoundTrip.
Import Js Util IDList.

Lemma getPath_item_DriveLetter (path : jsstring) (v : numbers) :
  getPath_item path (mkItem DriveLetter v)
  = Ok (path ++ map (fun char => fromCharCode (Some char)) (slice v 0 3)).
Proof. reflexivity. Qed.

Lemma getPath_item_Directory (path : jsstring) (v : numbers) :
  getPath_item path (mkItem Directory v)
  = Ok (path ++ readCString v 11 ++ backslash).
Proof. reflexivity. Qed.

Lemma getPath_item_File (path : jsstring) (v : numbers) :
  getPath_item path (mkItem File v) = Ok (path ++ readCString v 11).
Proof. reflexivity. Qed.

Lemma getPath_item_DirectoryUnicode (path : jsstring) (v : numbers) :
  getPath_item path (mkItem DirectoryUnicode v)
  = Ok ((path ++ readCUnicode v 11) ++ backslash).
Proof. reflexivity. Qed.

Lemma getPath_item_FileUnicode (path : jsstring) (v : numbers) :
  getPath_item path (mkItem FileUnicode v) = Ok (path ++ readCUnicode v 11).
Proof. reflexivity. Qed.

Lemma fromCharCode_array_from (bytes : Buffer) :
  map (fun char => fromCharCode (Some char)) (array_from bytes) = array_from bytes.
Proof.
  induction bytes as [|b bytes IH]; [reflexivity|].
  cbn [array_from map]. f_equal; [|exact IH].
  pose proof (byte_to_Z_range b). unfold fromCharCode. apply Z.mod_small. lia.
Qed.

Lemma code_unit_array_from (name : Buffer) :
  Forall (fun b => b <> x00) name -> Forall Paths.code_unit (array_from name).
Proof.
  intros H. induction H as [|b name Hb _ IH]; [constructor|].
  cbn [array_from map]. constructor; [|exact IH].
  pose proof (byte_to_Z_range b) as R. unfold Paths.code_unit.
  assert (byte_to_Z b <> 0).
  { intros E. apply Hb. apply byte_to_Z_inj. rewrite E. reflexivity. }
  lia.
Qed.

Lemma array_from_wide (name : jsstring) :
  Forall Paths.code_unit name -> array_from (Paths.wide name) = Paths.utf16le name.
Proof.
  intros H. induction H as [|c name Hc _ IH]; [reflexivity|].
  unfold Paths.wide, array_from in *. cbn [Paths.utf16le flat_map app map].
  rewrite !byte_to_of_Z. fold (Paths.utf16le name). rewrite IH.
  unfold Paths.code_unit in Hc.
  rewrite Z.mod_mod by lia.
  rewrite (Z.mod_small (c / 256)) by (Z.div_mod_to_equations; lia).
  reflexivity.
Qed.

(** A narrow name behind 11 skipped bytes is read back up to its
    terminator, whatever follows. *)
Lemma readCString_payload (meta name extra : Buffer) :
  length meta = 11%nat -> Forall (fun b => b <> x00) name ->
  readCString (array_from ((meta ++ name ++ [x00]) ++ extra)) 11 = array_from name.
Proof.
  intros Hmeta Hname. rewrite <- app_assoc. unfold readCString, array_from.
  rewrite map_app, drop_app_length' by (rewrite length_map; symmetry; exact Hmeta).
  rewrite <- app_assoc, map_app.
  apply readCString_loop_name; [apply code_unit_array_from; exact Hname|].
  right. eexists. reflexivity.
Qed.

Lemma readCUnicode_payload (meta : Buffer) (name : jsstring) (extra : Buffer) :
  length meta = 11%nat -> Forall Paths.code_unit name ->
  readCUnicode (array_from ((meta ++ Paths.wide name ++ [x00; x00]) ++ extra)) 11
  = name.
Proof.
  intros Hmeta Hname. rewrite <- app_assoc. unfold readCUnicode.
  unfold array_from at 1.
  rewrite map_app, drop_app_length' by (rewrite length_map; symmetry; exact Hmeta).
  rewrite <- app_assoc, map_app. fold (array_from (Paths.wide name)).
  rewrite array_from_wide by exact Hname.
  apply readCUnicode_loop_name; [exact Hname|].
  right. right. eexists. reflexivity.
Qed.

(** The item [parse] builds from an entry, with whatever bytes its value
    takes from behind the entry, gives the text of the entry. *)
Lemma getPath_item_entry (e : Paths.entry) (extra : Buffer) (path : jsstring) :
  Paths.entry_ok e ->
  getPath_item path
    (mkItem (byte_to_Z (Wire.tag (Paths.raw_of e)))
            (array_from (Wire.payload (Paths.raw_of e) ++ extra)))
  = Ok (path ++ Paths.text_of e).
Proof.
  destruct e as [root|meta name|meta name|meta name|meta name];
    cbn [Paths.entry_ok Paths.raw_of Paths.text_of Wire.tag Wire.payload].
  - intros Hroot.
    change (byte_to_Z x2f) with DriveLetter. rewrite getPath_item_DriveLetter.
    unfold slice. change (Z.to_nat 3 - Z.to_nat 0)%nat with 3%nat.
    change (Z.to_nat 0) with 0%nat. rewrite drop_0.
    unfold array_from at 1. rewrite map_app.
    rewrite take_app_length' by (rewrite length_map; symmetry; exact Hroot).
    fold (array_from root). rewrite fromCharCode_array_from. reflexivity.
  - intros [Hmeta Hname].
    change (byte_to_Z x31) with Directory. rewrite getPath_item_Directory.
    rewrite readCString_payload by assumption. reflexivity.
  - intros [Hmeta Hname].
    change (byte_to_Z x32) with File. rewrite getPath_item_File.
    rewrite readCString_payload by assumption. reflexivity.
  - intros [Hmeta Hname].
    change (byte_to_Z x35) with DirectoryUnicode.
    rewrite getPath_item_DirectoryUnicode.
    rewrite readCUnicode_payload by assumption. rewrite <- app_assoc. reflexivity.
  - intros [Hmeta Hname].
    change (byte_to_Z x36) with FileUnicode. rewrite getPath_item_FileUnicode.
    rewrite readCUnicode_payload by assumption. reflexivity.
Qed.

Lemma getPath_loop_entries (entries : list Paths.entry) (tail : Buffer) :
  Forall Paths.entry_ok entries ->
  forall path,
  getPath_loop (Wire.parsed_items (map Paths.raw_of entries) tail) path
  = Ok (path ++ concat (map Paths.text_of entries)).
Proof.
  intros H. induction H as [|e entries He _ IH]; intros path.
  - simpl. rewrite app_nil_r. reflexivity.
  - cbn [map Wire.parsed_items getPath_loop concat].
    rewrite getPath_item_entry by exact He. cbn [bind].
    rewrite IH, app_assoc. reflexivity.
Qed.

(** [parse] on a well-formed list followed by any bytes. *)
Lemma parse_well_formed (its : list Wire.raw_item) (rest : Buffer) (fuel : nat) :
  Wire.well_formed its ->
  parse fuel (Wire.encode_id_list its ++ rest)
  = if (length its <=? fuel)%nat
    then Ok (mkList true (Wire.parsed_items its (Wire.terminator ++ rest)) None)
    else OutOfFuel.
Proof.
  intros Hwf. unfold Wire.well_formed in Hwf.
  pose proof (items_size_nonneg its) as Hnn.
  unfold Wire.encode_id_list. rewrite <- !app_assoc.
  unfold parse.
  rewrite readUIntLE_app by (simpl; lia).
  rewrite readUIntLE_ok by (simpl; lia).
  change (take 2 (drop (Z.to_nat 0) (Wire.le16 (Wire.items_size its + 2))))
    with (Wire.le16 (Wire.items_size its + 2)).
  rewrite le_value_le16 by lia. cbn [bind].
  change 2 with (Z.of_nat (length (Wire.le16 (Wire.items_size its + 2)))) at 1.
  rewrite parse_loop_well_formed by exact Hwf.
  destruct (length its <=? fuel)%nat; reflexivity.
Qed.

(** X10: a path written as an ID list is read back by [parse] and
    [getPath]. For every sequence of drive, folder and document entries
    (names of one or of two bytes a character, each with its terminator,
    behind 11 skipped bytes) whose encoding fits the 16-bit size field,
    followed by any bytes, [parse] returns a list, with one loop turn per
    entry, and [getPath] on that list returns the texts of the entries in
    order, a backslash behind every folder name. The bytes that every item
    value takes from behind its item do not show in the path. *)
Theorem parse_then_getPath (entries : list Paths.entry) (rest : Buffer)
    (fuel : nat) :
  Forall Paths.entry_ok entries ->
  Wire.well_formed (map Paths.raw_of entries) ->
  (length entries <= fuel)%nat ->
  exists list,
    parse fuel (Wire.encode_id_list (map Paths.raw_of entries) ++ rest) = Ok list
    /\ length (items list) = length entries
    /\ getPath list
       = (Ok (concat (map Paths.text_of entries)),
          mkList true (items list) (Some (concat (map Paths.text_of entries)))).
Proof.
  intros Hok Hwf Hfuel. eexists. split.
  { rewrite parse_well_formed by exact Hwf. rewrite length_map.
    destruct (Nat.leb_spec (length entries) fuel); [reflexivity|lia]. }
  cbn [items]. split.
  { rewrite length_parsed_items, length_map. reflexivity. }
  unfold getPath. cbn [items valid].
  rewrite getPath_loop_entries by exact Hok. reflexivity.
Qed.

Lemma parse_then_getPath_witness :
  exists list,
    parse 3 (Wire.encode_id_list (map Paths.raw_of Paths.sample_path) ++ []) = Ok list
    /\ fst (getPath list)
       = Ok (lit "C:" ++ backslash ++ lit "Users" ++ backslash ++ lit "notes.txt").
Proof.
  assert (Hok : Forall Paths.entry_ok Paths.sample_path).
  { repeat (apply List.Forall_cons; [|]); try apply List.Forall_nil.
    - reflexivity.
    - split; [reflexivity|].
      repeat (apply List.Forall_cons; [discriminate|]). apply List.Forall_nil.
    - split; [reflexivity|].
      apply code_unit_forallb. vm_compute. reflexivity. }
  assert (Hwf : Wire.well_formed (map Paths.raw_of Paths.sample_path))
    by reflexivity.
  assert (Hfuel : (length Paths.sample_path <= 3)%nat) by (simpl; constructor).
  destruct (parse_then_getPath Paths.sample_path [] 3 Hok Hwf Hfuel)
    as (list & Hparse & _ & Hpath).
  exists list. split; [exact Hparse|]. rewrite Hpath. reflexivity.
Defined.

End PathRoundTrip.

Section DecoderInstances.
Import Js Util IDList.

Lemma readCString_reads_name_witness :
  readCString ([9; 9] ++ lit "Docs" ++ 0 :: [7]) 2 = lit "Docs"
  /\ readCString ([9; 9] ++ lit "Docs") 2 = lit "Docs".
Proof.
  apply (readCString_reads_name [9; 9] (lit "Docs") [7]).
  apply code_unit_forallb. vm_compute. reflexivity.
Defined.

Lemma readCUnicode_reads_name_witness :
  readCUnicode ([9] ++ Paths.utf16le (lit "Docs") ++ 0 :: 0 :: [7]) 1 = lit "Docs"
  /\ readCUnicode ([9] ++ Paths.utf16le (lit "Docs")) 1 = lit "Docs"
  /\ readCUnicode ([9] ++ Paths.utf16le (lit "Docs") ++ [33]) 1 = lit "Docs!".
Proof.
  apply (readCUnicode_reads_name [9] (lit "Docs") [7] 33).
  - apply code_unit_forallb. vm_compute. reflexivity.
  - lia.
Defined.

Lemma rootEntry_adds_nothing_witness :
  formatGUID (guidFromIDLBytes (value Samples.my_computer))
  = lit "{20d04fe0-3aea-1069-a2d8-08002b30309d}"
  /\ getPath_item (lit "C:") Samples.my_computer = Ok (lit "C:").
Proof.
  split; [vm_compute; reflexivity|].
  apply (rootEntry_adds_nothing (lit "C:") Samples.my_computer). reflexivity.
Defined.

End DecoderInstances.

Section ParseEdges.
Import Js Util IDList.

(** One turn of the loop of [parse] over an item that starts at the read
    cursor, for any count of remaining bytes above 2. *)
Lemma parse_loop_step (it : Wire.raw_item) (fuel : nat) (pre after : Buffer)
    (acc : list LinkTargetIDItem) (r : Z) :
  Wire.item_size it < 65536 -> 2 < r ->
  parse_loop (S fuel) (pre ++ Wire.encode_item it ++ after) acc
             (Z.of_nat (length pre)) r
  = parse_loop fuel (pre ++ Wire.encode_item it ++ after)
      (acc ++ [mkItem (byte_to_Z (Wire.tag it))
                      (array_from (Wire.payload it ++ take 3 after))])
      (Z.of_nat (length pre) + Wire.item_size it) (r - Wire.item_size it).
Proof.
  intros Hsize Hr. pose proof (item_size_ge it) as Hit.
  cbn [parse_loop]. destruct (Z.ltb_spec 2 r); [|lia].
  pose proof (length_encode_item it) as Hlen.
  assert (Hbuf : pre ++ Wire.encode_item it ++ after
                 = pre ++ Wire.le16 (Wire.item_size it)
                       ++ Wire.tag it :: Wire.payload it ++ after).
  { unfold Wire.encode_item. rewrite <- !app_assoc. reflexivity. }
  rewrite Hbuf.
  assert (Hread : readUInt16LE
            (pre ++ Wire.le16 (Wire.item_size it)
                 ++ Wire.tag it :: Wire.payload it ++ after)
            (Z.of_nat (length pre)) = Ok (Wire.item_size it)).
  { unfold readUInt16LE. rewrite readUIntLE_ok.
    - rewrite Nat2Z.id, drop_app_length. cbn [Wire.le16 app take].
      fold (Wire.le16 (Wire.item_size it)).
      rewrite le_value_le16 by lia. reflexivity.
    - lia.
    - rewrite !length_app. simpl. lia. }
  rewrite Hread. cbn [bind].
  assert (Htag : at_ (pre ++ Wire.le16 (Wire.item_size it)
                          ++ Wire.tag it :: Wire.payload it ++ after)
                     (Z.of_nat (length pre) + 2) = Some (Wire.tag it)).
  { unfold at_. destruct (Z.ltb_spec (Z.of_nat (length pre) + 2) 0); [lia|].
    replace (Z.to_nat (Z.of_nat (length pre) + 2)) with (length pre + 2)%nat by lia.
    rewrite lookup_app_r by lia.
    replace (length pre + 2 - length pre)%nat with 2%nat by lia. reflexivity. }
  rewrite Htag.
  assert (Hval : slice (pre ++ Wire.le16 (Wire.item_size it)
                            ++ Wire.tag it :: Wire.payload it ++ after)
                       (Z.of_nat (length pre) + 2 + 1)
                       (Z.of_nat (length pre) + 2 + Wire.item_size it + 1)
                 = Wire.payload it ++ take 3 after).
  { unfold slice.
    replace (Z.to_nat (Z.of_nat (length pre) + 2 + 1)) with (length pre + 3)%nat by lia.
    replace (Z.to_nat (Z.of_nat (length pre) + 2 + Wire.item_size it + 1)
             - (length pre + 3))%nat
      with (length (Wire.payload it) + 3)%nat by (unfold Wire.item_size; lia).
    rewrite <- drop_drop, drop_app_length. cbn [Wire.le16 app skipn].
    rewrite drop_0, take_app. rewrite take_ge by lia.
    replace (length (Wire.payload it) + 3 - length (Wire.payload it))%nat
      with 3%nat by lia. reflexivity. }
  rewrite Hval.
  replace (Z.of_nat (length pre) + 2 + (Wire.item_size it - 2))
    with (Z.of_nat (length pre) + Wire.item_size it) by lia.
  reflexivity.
Qed.

(** The loop over the items at the read cursor when the count of
    remaining bytes is the size of the items and [r] more. *)
Lemma parse_loop_items (its : list Wire.raw_item) :
  forall (fuel : nat) (pre tail : Buffer) (acc : list LinkTargetIDItem) (r : Z),
  0 <= r -> Wire.items_size its < 65536 ->
  parse_loop (length its + fuel) (pre ++ Wire.encode_items its ++ tail) acc
             (Z.of_nat (length pre)) (Wire.items_size its + r)
  = parse_loop fuel (pre ++ Wire.encode_items its ++ tail)
      (acc ++ Wire.parsed_items its tail)
      (Z.of_nat (length pre) + Wire.items_size its) r.
Proof.
  induction its as [|it its IH]; intros fuel pre tail acc r Hr Hsize.
  - cbn [Wire.items_size fold_right Wire.parsed_items length Nat.add].
    rewrite app_nil_r, Z.add_0_r, Z.add_0_l. reflexivity.
  - pose proof (item_size_ge it) as Hit.
    pose proof (items_size_nonneg its) as Hits.
    cbn [Wire.items_size fold_right] in *. fold (Wire.items_size its) in *.
    change (Wire.encode_items (it :: its))
      with (Wire.encode_item it ++ Wire.encode_items its).
    cbn [length Nat.add]. rewrite <- (app_assoc (Wire.encode_item it)).
    rewrite parse_loop_step by lia.
    replace (Wire.item_size it + Wire.items_size its + r - Wire.item_size it)
      with (Wire.items_size its + r) by lia.
    replace (Z.of_nat (length pre) + Wire.item_size it)
      with (Z.of_nat (length (pre ++ Wire.encode_item it)))
      by (rewrite length_app; pose proof (length_encode_item it); lia).
    rewrite (app_assoc pre).
    rewrite IH by lia.
    cbn [Wire.parsed_items]. rewrite <- (app_assoc acc). cbn [app].
    f_equal. rewrite length_app. pose proof (length_encode_item it). lia.
Qed.

Lemma parse_loop_S (fuel : nat) (buffer : Buffer) (acc : list LinkTargetIDItem)
    (o r : Z) :
  parse_loop (S fuel) buffer acc o r
  = if 2 <? r then
      bind (readUInt16LE buffer o) (fun shellItemSize =>
        parse_loop fuel buffer
          (acc ++ [new_LinkTargetIDItem (byte_to_Z <$> at_ buffer (o + 2))
                     (array_from (slice buffer (o + 2 + 1)
                                        (o + 2 + shellItemSize + 1)))])
          (o + 2 + (shellItemSize - 2)) (r - shellItemSize))
    else Ok (mkLocals acc o r).
Proof. reflexivity. Qed.

(** More fuel does not change an outcome that was reached. *)
Lemma parse_loop_more_fuel (fuel : nat) :
  forall (buffer : Buffer) (acc : list LinkTargetIDItem) (o r : Z),
  parse_loop fuel buffer acc o r <> OutOfFuel ->
  parse_loop (S fuel) buffer acc o r = parse_loop fuel buffer acc o r.
Proof.
  induction fuel as [|fuel IH]; intros buffer acc o r H.
  - cbn [parse_loop] in *. destruct (2 <? r); [contradiction H|]; reflexivity.
  - rewrite (parse_loop_S (S fuel)). rewrite (parse_loop_S fuel) in H |- *.
    destruct (2 <? r); [|reflexivity].
    destruct (readUInt16LE buffer o) as [size| |]; cbn [bind] in *;
      [|reflexivity|reflexivity].
    apply IH. exact H.
Qed.

Lemma parse_loop_fuel_add (k fuel : nat) (buffer : Buffer)
    (acc : list LinkTargetIDItem) (o r : Z) :
  parse_loop fuel buffer acc o r <> OutOfFuel ->
  parse_loop (k + fuel) buffer acc o r = parse_loop fuel buffer acc o r.
Proof.
  intros H. induction k as [|k IH]; [reflexivity|].
  cbn [Nat.add]. rewrite parse_loop_more_fuel; rewrite IH; auto.
Qed.

(** An item of size 0 while more than 2 bytes remain: the cursor and the
    count stay as they are, and the loop never ends. *)
Lemma parse_loop_spins (fuel : nat) :
  forall (buffer : Buffer) (acc : list LinkTargetIDItem) (o r : Z),
  2 < r -> readUInt16LE buffer o = Ok 0 ->
  parse_loop fuel buffer acc o r = OutOfFuel.
Proof.
  induction fuel as [|fuel IH]; intros buffer acc o r Hr Hread;
    cbn [parse_loop]; (destruct (Z.ltb_spec 2 r); [|lia]); [reflexivity|].
  rewrite Hread. cbn [bind].
  replace (o + 2 + (0 - 2)) with o by lia.
  replace (r - 0) with r by lia.
  apply IH; assumption.
Qed.

Lemma readUIntLE_short (buf : Buffer) (offset : Z) (n : nat) :
  Z.of_nat (length buf) < offset + Z.of_nat n ->
  readUIntLE buf offset n = Throw RangeError.
Proof.
  intros H. unfold readUIntLE.
  destruct (Z.leb_spec (offset + Z.of_nat n) (Z.of_nat (length buf))); [lia|].
  rewrite andb_false_r. reflexivity.
Qed.

Lemma parse_declared (size : Z) (body : Buffer) (fuel : nat) :
  0 <= size < 65536 ->
  parse fuel (Wire.le16 size ++ body)
  = bind (parse_loop fuel (Wire.le16 size ++ body) [] 2 size) (fun locals =>
      Ok (mkList true (l_items locals) None)).
Proof.
  intros Hsize. unfold parse.
  rewrite readUIntLE_app by (simpl; lia).
  rewrite readUIntLE_ok by (simpl; lia).
  change (take 2 (drop (Z.to_nat 0) (Wire.le16 size))) with (Wire.le16 size).
  rewrite le_value_le16 by lia. reflexivity.
Qed.

(** What the items built from a well-formed run of items hold: the tag
    of the item, and a value that starts with the payload and runs on for
    at most three bytes taken from behind the item. *)
Lemma parsed_items_values (its : list Wire.raw_item) (tail : Buffer) :
  Forall2 (fun it item =>
             itemType item = byte_to_Z (Wire.tag it)
             /\ exists extra : Buffer,
                  value item = array_from (Wire.payload it ++ extra)
                  /\ (length extra <= 3)%nat)
          its (Wire.parsed_items its tail).
Proof.
  induction its as [|it its IH]; cbn [Wire.parsed_items]; constructor.
  - cbn [itemType value]. split; [reflexivity|].
    eexists. split; [reflexivity|]. rewrite length_take. lia.
  - exact IH.
Qed.

(** The bytes behind the items show in the items through their first
    three bytes only. *)
Lemma parsed_items_tail (its : list Wire.raw_item) (tail tail' : Buffer) :
  take 3 tail' = take 3 tail ->
  Wire.parsed_items its tail' = Wire.parsed_items its tail.
Proof.
  intros H. induction its as [|it its IH]; [reflexivity|].
  cbn [Wire.parsed_items]. rewrite IH. do 3 f_equal.
  rewrite !take_app. f_equal.
  assert (T : forall l : Buffer,
             take (3 - length (Wire.encode_items its)) l
             = take (3 - length (Wire.encode_items its)) (take 3 l)).
  { intros l. rewrite take_take. f_equal. lia. }
  rewrite (T tail'), (T tail), H. reflexivity.
Qed.

(** X11: [parse] asks for no terminator. When the declared size is the
    size of the items and 0, 1 or 2 more, [parse] returns a list for any
    bytes behind the items, and also when nothing is behind them: one item
    per encoded item, with the tag of the item and a value that starts
    with its payload and runs on for at most three bytes taken from behind
    the item. The bytes behind the items are not checked; they show in
    the result through these extra bytes only, so two buffers that agree
    on the three bytes behind the items give the same list. With the
    declared size 0, 1 or 2 and no items the result is the empty list. *)
Theorem parse_requires_no_terminator (its : list Wire.raw_item) (r : Z)
    (tail : Buffer) (fuel : nat) :
  0 <= r <= 2 ->
  Wire.items_size its + r < 65536 ->
  (length its <= fuel)%nat ->
  let list_of bytes :=
    parse fuel (Wire.le16 (Wire.items_size its + r)
                ++ Wire.encode_items its ++ bytes) in
  list_of tail = Ok (mkList true (Wire.parsed_items its tail) None)
  /\ Forall2 (fun it item =>
                itemType item = byte_to_Z (Wire.tag it)
                /\ exists extra : Buffer,
                     value item = array_from (Wire.payload it ++ extra)
                     /\ (length extra <= 3)%nat)
             its (Wire.parsed_items its tail)
  /\ (its = [] -> list_of tail = Ok (mkList true [] None))
  /\ (forall tail', take 3 tail' = take 3 tail -> list_of tail' = list_of tail).
Proof.
  intros Hr Hsize Hfuel list_of. pose proof (items_size_nonneg its) as Hnn.
  assert (H : forall bytes,
             list_of bytes = Ok (mkList true (Wire.parsed_items its bytes) None)).
  { intros bytes. unfold list_of. rewrite parse_declared by lia.
    replace fuel with (length its + (fuel - length its))%nat by lia.
    change 2 with (Z.of_nat (length (Wire.le16 (Wire.items_size its + r)))) at 1.
    rewrite parse_loop_items by lia.
    destruct (fuel - length its)%nat; cbn [parse_loop];
      (destruct (Z.ltb_spec 2 r); [lia|]); reflexivity. }
  split; [apply H|]. split; [apply parsed_items_values|]. split.
  - intros ->. apply H.
  - intros tail' E. rewrite !H, (parsed_items_tail its tail tail' E). reflexivity.
Qed.

(** X12: a declared size that exceeds the items by more than the 2
    bytes of the terminator makes [parse] take the terminator for an item
    of size 0; the cursor no longer moves and the loop never ends: no
    bound on the number of turns is enough. *)
Theorem parse_oversized_never_ends (its : list Wire.raw_item) (r : Z)
    (rest : Buffer) (fuel : nat) :
  2 < r ->
  Wire.items_size its + r < 65536 ->
  parse fuel (Wire.le16 (Wire.items_size its + r)
              ++ Wire.encode_items its ++ Wire.terminator ++ rest)
  = OutOfFuel.
Proof.
  intros Hr Hsize. pose proof (items_size_nonneg its) as Hnn.
  rewrite parse_declared by lia.
  set (buffer := Wire.le16 _ ++ _).
  assert (Hlong : parse_loop (length its + fuel) buffer [] 2
                             (Wire.items_size its + r) = OutOfFuel).
  { unfold buffer.
    change 2 with (Z.of_nat (length (Wire.le16 (Wire.items_size its + r)))) at 1.
    rewrite parse_loop_items by lia.
    apply parse_loop_spins; [exact Hr|].
    unfold readUInt16LE. rewrite readUIntLE_ok.
    - rewrite app_assoc.
      replace (Z.to_nat (Z.of_nat (length (Wire.le16 (Wire.items_size its + r)))
                         + Wire.items_size its))
        with (length (Wire.le16 (Wire.items_size its + r) ++ Wire.encode_items its)).
      + rewrite drop_app_length. reflexivity.
      + rewrite length_app. pose proof (length_encode_items its). lia.
    - lia.
    - rewrite !length_app. pose proof (length_encode_items its). simpl. lia. }
  destruct (parse_loop fuel buffer [] 2 (Wire.items_size its + r)) eqn:E;
    [| |reflexivity].
  - rewrite parse_loop_fuel_add in Hlong by (rewrite E; discriminate).
    rewrite E in Hlong. discriminate Hlong.
  - rewrite parse_loop_fuel_add in Hlong by (rewrite E; discriminate).
    rewrite E in Hlong. discriminate Hlong.
Qed.

(** X13: [parse] throws a [RangeError] on a list cut off behind its
    items: when the declared size announces more than the items and
    fewer than 2 bytes follow them, the loop reads a size field outside
    the buffer. It throws the same on every buffer of fewer than 2
    bytes. *)
Theorem parse_cut_off_throws (its : list Wire.raw_item) (r : Z)
    (tail : Buffer) (fuel : nat) :
  2 < r ->
  Wire.items_size its + r < 65536 ->
  (length tail < 2)%nat ->
  (length its < fuel)%nat ->
  parse fuel (Wire.le16 (Wire.items_size its + r) ++ Wire.encode_items its ++ tail)
  = Throw RangeError
  /\ (forall (short : Buffer) (n : nat),
        (length short < 2)%nat -> parse n short = Throw RangeError).
Proof.
  intros Hr Hsize Htail Hfuel. pose proof (items_size_nonneg its) as Hnn.
  split.
  - rewrite parse_declared by lia.
    replace fuel with (length its + S (fuel - length its - 1))%nat by lia.
    change 2 with (Z.of_nat (length (Wire.le16 (Wire.items_size its + r)))) at 1.
    rewrite parse_loop_items by lia.
    cbn [parse_loop]. destruct (Z.ltb_spec 2 r); [|lia].
    unfold readUInt16LE. rewrite readUIntLE_short; [reflexivity|].
    rewrite !length_app. pose proof (length_encode_items its). simpl. lia.
  - intros short n Hshort. unfold parse.
    rewrite readUIntLE_short by lia. reflexivity.
Qed.

Lemma parse_requires_no_terminator_witness :
  parse 2 (Wire.le16 (Wire.items_size Samples.two_items + 0)
           ++ Wire.encode_items Samples.two_items ++ [xff])
  = Ok (mkList true
          [ mkItem DriveLetter [67; 58; 92; 4; 0; 50];
            mkItem File [65; 255] ] None).
Proof.
  refine (proj1 (parse_requires_no_terminator Samples.two_items 0 [xff] 2 _ _ _)).
  - lia.
  - reflexivity.
  - simpl. constructor.
Defined.

Lemma parse_oversized_never_ends_witness :
  parse 1000 (Wire.le16 (Wire.items_size Samples.two_items + 4)
              ++ Wire.encode_items Samples.two_items ++ Wire.terminator ++ [])
  = OutOfFuel.
Proof.
  apply (parse_oversized_never_ends Samples.two_items 4 [] 1000).
  - lia.
  - reflexivity.
Defined.

Lemma parse_cut_off_throws_witness :
  parse 3 (Wire.le16 (Wire.items_size Samples.two_items + 4)
           ++ Wire.encode_items Samples.two_items ++ [x00])
  = Throw RangeError.
Proof.
  refine (proj1 (parse_cut_off_throws Samples.two_items 4 [x00] 3 _ _ _ _)).
  - lia.
  - reflexivity.
  - simpl. lia.
  - simpl. lia.
Defined.

End ParseEdges.

Section GuidFields.
Import Js Util.

Lemma field32_le (b0 b1 b2 b3 : Z) :
  0 <= b0 < 256 -> 0 <= b1 < 256 -> 0 <= b2 < 256 -> 0 <= b3 < 256 ->
  bor (bor (bor (shl b3 24) (shl b2 16)) (shl b1 8)) b0
  = to_int32 (b0 + 256 * (b1 + 256 * (b2 + 256 * (b3 + 256 * 0)))).
Proof.
  intros H0 H1 H2 H3.
  destruct (field32_sum b0 b1 b2 b3 H0 H1 H2 H3) as (b3' & Hm & Hr & ->).
  unfold to_int32. change (2 ^ 31) with 2147483648.
  change (2 ^ 32) with 4294967296. Z.div_mod_to_equations. lia.
Qed.

Lemma field16_le (b0 b1 : Z) :
  0 <= b0 < 256 -> 0 <= b1 < 256 ->
  bor (shl b1 8) b0 = b0 + 256 * (b1 + 256 * 0).
Proof. intros H0 H1. rewrite field16_sum by assumption. lia. Qed.

Lemma int32_of_byte (b : byte) : int32_of (Some (byte_to_Z b)) = byte_to_Z b.
Proof.
  pose proof (byte_to_Z_range b). unfold int32_of.
  apply to_int32_small. change (2 ^ 31) with 2147483648. lia.
Qed.

(** X14: [guidFromIDLBytes] decodes little-endian fields. On the bytes
    of a buffer of any length it returns the first four bytes as a signed
    32-bit little-endian integer (the result of [<< 24] is signed, so a
    first field with its top bit set is negative), bytes 4-5 and bytes
    6-7 as unsigned 16-bit little-endian integers, and the bytes from
    index 8 on as they are; bytes that a short buffer lacks count as 0. *)
Theorem guidFromIDLBytes_little_endian (bs : Buffer) :
  guidFromIDLBytes (array_from bs)
  = [ to_int32 (le_value (take 4 bs));
      le_value (take 2 (drop 4 bs));
      le_value (take 2 (drop 6 bs)) ] ++ array_from (drop 8 bs).
Proof.
  assert (Z0 : 0 <= 0 < 256) by lia.
  unfold guidFromIDLBytes.
  destruct bs as [|b0 [|b1 [|b2 [|b3 [|b4 [|b5 [|b6 [|b7 rest]]]]]]]];
    unfold array_from;
    cbn [map lookup list_lookup drop skipn take firstn le_value app];
    rewrite ?int32_of_byte; cbn [int32_of];
    repeat match goal with
    | |- context [byte_to_Z ?b] =>
        lazymatch goal with
        | _ : 0 <= byte_to_Z b < 256 |- _ => fail
        | _ => pose proof (byte_to_Z_range b)
        end
    end;
    rewrite field32_le by assumption;
    rewrite !field16_le by assumption;
    repeat f_equal; lia.
Qed.

End GuidFields.

Section HeaderEdges.
Import Js Util Parser.

Lemma readUIntLE_outcome (buf : Buffer) (offset : Z) (n : nat) :
  (0 <= offset /\ offset + Z.of_nat n <= Z.of_nat (length buf)
   /\ readUIntLE buf offset n = Ok (le_value (take n (drop (Z.to_nat offset) buf))))
  \/ ((offset < 0 \/ Z.of_nat (length buf) < offset + Z.of_nat n)
      /\ readUIntLE buf offset n = Throw RangeError).
Proof.
  unfold readUIntLE.
  destruct (Z.leb_spec 0 offset),
           (Z.leb_spec (offset + Z.of_nat n) (Z.of_nat (length buf)));
    cbn [andb]; [left|right|right|right]; repeat split; auto; lia.
Qed.

(** X15: a header needs 78 bytes. [parseHeader] throws a [RangeError],
    and leaves the parser as it was, when the cursor is negative or fewer
    than 78 bytes lie between the cursor and the end of the buffer: the
    76 bytes of the header and the 2 bytes of the size of the ID list,
    which is read whether or not the link flags announce one. *)
Theorem parseHeader_too_short (tzOffset : Q) (fuel : nat) (advance : bool)
    (this : LNKParser) :
  offset this < 0 \/ Z.of_nat (length (buffer this)) < offset this + 78 ->
  parseHeader tzOffset fuel advance this = (Throw RangeError, this).
Proof.
  intros Hshort. rewrite parseHeader_run. cbv zeta.
  destruct this as [cur buf]. cbn [offset buffer] in *.
  apply (f_equal (fun r => (r, mkParser cur buf))).
  unfold readInt32LE, readUInt32LE, readBigInt64LE.
  destruct (readUIntLE_outcome buf (cur + 0) 4) as [(? & ? & ->)|[_ ->]];
    [cbn [bind]|reflexivity].
  destruct (readUIntLE_outcome buf (cur + 20) 4) as [(? & ? & ->)|[_ ->]];
    [cbn [bind]|reflexivity].
  destruct (readUIntLE_outcome buf (cur + 24) 4) as [(? & ? & ->)|[_ ->]];
    [cbn [bind]|reflexivity].
  destruct (readUIntLE_outcome buf (cur + 28) 8) as [(? & ? & ->)|[_ ->]];
    [cbn [bind]|reflexivity].
  destruct (readUIntLE_outcome buf (cur + 36) 8) as [(? & ? & ->)|[_ ->]];
    [cbn [bind]|reflexivity].
  destruct (readUIntLE_outcome buf (cur + 44) 8) as [(? & ? & ->)|[_ ->]];
    [cbn [bind]|reflexivity].
  destruct (readUIntLE_outcome buf (cur + 52) 4) as [(? & ? & ->)|[_ ->]];
    [cbn [bind]|reflexivity].
  destruct (readUIntLE_outcome buf (cur + 56) 4) as [(? & ? & ->)|[_ ->]];
    [cbn [bind]|reflexivity].
  destruct (readUIntLE_outcome buf (cur + 60) 4) as [(? & ? & ->)|[_ ->]];
    [cbn [bind]|reflexivity].
  unfold IDList.parse. rewrite readUIntLE_short; [reflexivity|].
  unfold slice_from. rewrite length_drop. lia.
Qed.

Lemma parseHeader_too_short_witness :
  parseHeader 0 0 true (new_LNKParser Wire.minimal_header)
  = (Throw RangeError, new_LNKParser Wire.minimal_header).
Proof.
  apply (parseHeader_too_short 0 0 true (new_LNKParser Wire.minimal_header)).
  right. vm_compute. reflexivity.
Defined.

Lemma to_int32_range (x : Z) : - 2 ^ 31 <= to_int32 x < 2 ^ 31.
Proof.
  unfold to_int32. change (2 ^ 31) with 2147483648.
  change (2 ^ 32) with 4294967296. Z.div_mod_to_equations. lia.
Qed.

Lemma to_int64_range (x : Z) : - 2 ^ 63 <= to_int64 x < 2 ^ 63.
Proof.
  unfold to_int64. change (2 ^ 63) with 9223372036854775808.
  change (2 ^ 64) with 18446744073709551616. Z.div_mod_to_equations. lia.
Qed.

Lemma le_value_range (bs : Buffer) :
  0 <= le_value bs < 256 ^ Z.of_nat (length bs).
Proof.
  induction bs as [|b bs IH]; [simpl; lia|].
  cbn [le_value length]. rewrite Nat2Z.inj_succ, Z.pow_succ_r by lia.
  pose proof (byte_to_Z_range b). lia.
Qed.

Lemma readInt32LE_value (buf : Buffer) (offset v : Z) :
  readInt32LE buf offset = Ok v -> - 2 ^ 31 <= v < 2 ^ 31.
Proof.
  unfold readInt32LE. destruct (readUIntLE buf offset 4); try discriminate.
  cbn [bind]. intros E. apply Ok_inj in E. subst v. apply to_int32_range.
Qed.

Lemma readUInt32LE_value (buf : Buffer) (offset v : Z) :
  readUInt32LE buf offset = Ok v -> 0 <= v < 2 ^ 32.
Proof.
  intros E. apply readUIntLE_Ok_inv in E. destruct E as (H0 & H1 & ->).
  pose proof (le_value_range (take 4 (drop (Z.to_nat offset) buf))) as R.
  rewrite length_take, length_drop in R.
  replace (Z.of_nat (4 `min` (length buf - Z.to_nat offset))) with 4 in R by lia.
  exact R.
Qed.

Lemma readBigInt64LE_value (buf : Buffer) (offset v : Z) :
  readBigInt64LE buf offset = Ok v -> - 2 ^ 63 <= v < 2 ^ 63.
Proof.
  unfold readBigInt64LE. destruct (readUIntLE buf offset 8); try discriminate.
  cbn [bind]. intros E. apply Ok_inj in E. subst v. apply to_int64_range.
Qed.

Lemma dateFromFILETIME_valid (t tz : Z) :
  - 2 ^ 63 <= t < 2 ^ 63 -> Z.abs tz <= 1440 ->
  dateFromFILETIME (inject_Z tz) (Number_of_BigInt t) <> None.
Proof.
  intros Ht Htz. destruct (dateFromFILETIME_close t tz Ht Htz) as (v & -> & _).
  discriminate.
Qed.

Lemma IDList_parse_needs_2 (fuel : nat) (buf : Buffer) l :
  IDList.parse fuel buf = Ok l -> (2 <= length buf)%nat.
Proof.
  unfold IDList.parse. destruct (readUIntLE buf 0 2) eqn:E; try discriminate.
  intros _. apply readUIntLE_Ok_inv in E. lia.
Qed.

Lemma IDList_parse_valid (fuel : nat) (buf : Buffer) l :
  IDList.parse fuel buf = Ok l ->
  exists its, l = IDList.mkList true its None.
Proof.
  unfold IDList.parse. destruct (readUIntLE buf 0 2); try discriminate.
  cbn [bind]. destruct (IDList.parse_loop fuel buf [] 2 a); try discriminate.
  cbn [bind]. intros E. apply Ok_inj in E. subst l. eauto.
Qed.

(** X16: the ranges of a parsed header. Whenever [parseHeader] returns
    a record, in a zone whose offset is a whole number of at most 1440
    minutes: the header size, the link flags, the attribute flags and the
    icon index are signed 32-bit integers, the target size an unsigned
    one; the class identifier has 11 entries; the three dates are valid
    dates; both fields of the hotkey are bytes that were read (never
    [undefined]); the target is an ID list whose cached path is set and
    whose validity flag is true, whatever the header says. *)
Theorem parseHeader_field_ranges (tz : Z) (fuel : nat) (advance : bool)
    (this : LNKParser) (file : LNKFile) :
  Z.abs tz <= 1440 ->
  fst (parseHeader (inject_Z tz) fuel advance this) = Ok file ->
  - 2 ^ 31 <= headerSize file < 2 ^ 31
  /\ - 2 ^ 31 <= linkFlags file < 2 ^ 31
  /\ - 2 ^ 31 <= targetAttributeFlags file < 2 ^ 31
  /\ (exists i, icon file = Some (mkIcon [] i) /\ - 2 ^ 31 <= i < 2 ^ 31)
  /\ 0 <= targetFileSize file < 2 ^ 32
  /\ length (linkCLSID file) = 11%nat
  /\ targetCreationDate file <> None
  /\ targetAccessDate file <> None
  /\ targetWriteDate file <> None
  /\ (exists k m, hotKey file = mkHotKey (Some k) (Some m)
                  /\ 0 <= k < 256 /\ 0 <= m < 256)
  /\ (exists its path,
        target file = TargetList (IDList.mkList true its (Some path))).
Proof.
  intros Htz H. rewrite parseHeader_run in H. cbn [fst] in H. cbv zeta in H.
  destruct this as [cur buf]. cbn [offset buffer] in *.
  header_reads H. apply Ok_inj in H. subst file.
  cbn [headerSize linkFlags targetAttributeFlags icon targetFileSize linkCLSID
       targetCreationDate targetAccessDate targetWriteDate hotKey target].
  pose proof (readInt32LE_range _ _ _ Hread) as R0.
  pose proof (readUInt32LE_range _ _ _ Hread7) as R7.
  repeat split; try (eapply readInt32LE_value; eassumption);
    try (eapply readUInt32LE_value; eassumption);
    try (apply dateFromFILETIME_valid;
         [eapply readBigInt64LE_value; eassumption|exact Htz]).
  - eexists. split; [reflexivity|]. eapply readInt32LE_value; eassumption.
  - unfold guidFromIDLBytes, array_from, slice.
    rewrite length_app, length_drop, length_map, length_take, length_drop.
    simpl. lia.
  - unfold at_.
    destruct (Z.ltb_spec (cur + 64) 0); [lia|].
    destruct (Z.ltb_spec (cur + 64 + 1) 0); [lia|].
    match goal with Hp : IDList.parse _ _ = Ok _ |- _ =>
      pose proof (IDList_parse_needs_2 _ _ _ Hp) as Hlen end.
    unfold slice_from in Hlen. rewrite length_drop in Hlen.
    destruct (lookup_lt_is_Some_2 buf (Z.to_nat (cur + 64)) ltac:(lia)) as [k ->].
    destruct (lookup_lt_is_Some_2 buf (Z.to_nat (cur + 64 + 1)) ltac:(lia)) as [m ->].
    exists (byte_to_Z k), (byte_to_Z m).
    split; [reflexivity|]. split; apply byte_to_Z_range.
  - match goal with Hp : IDList.parse _ _ = Ok _ |- _ =>
      destruct (IDList_parse_valid _ _ _ Hp) as [its ->] end.
    match goal with Hg : fst (IDList.getPath _) = Ok _ |- _ =>
      unfold IDList.getPath in Hg |- *; cbn [IDList.items IDList.valid] in Hg |- *;
      destruct (IDList.getPath_loop its []) as [path| |]; try discriminate Hg end.
    cbn [snd]. eauto.
Qed.

Lemma parseHeader_field_ranges_witness :
  exists file,
    fst (parseHeader (inject_Z 0) 0 true (new_LNKParser Samples.minimal_shortcut))
    = Ok file
    /\ 0 <= targetFileSize file < 2 ^ 32
    /\ targetWriteDate file <> None.
Proof.
  assert (Htz : Z.abs 0 <= 1440) by (simpl; lia).
  assert (H : fst (parseHeader (inject_Z 0) 0 true
                     (new_LNKParser Samples.minimal_shortcut))
              = Ok Samples.minimal_file) by (vm_compute; reflexivity).
  exists Samples.minimal_file. split; [exact H|].
  destruct (parseHeader_field_ranges 0 0 true
              (new_LNKParser Samples.minimal_shortcut) Samples.minimal_file Htz H)
    as (_ & _ & _ & _ & Hsize & _ & _ & _ & Hdate & _).
  split; [exact Hsize|exact Hdate].
Defined.

(** [parseHeader] on any 76 header bytes at the cursor, followed by a
    well-formed ID list: every header read succeeds, and the outcome is
    that of [getPath] on the items of the list. *)
Lemma parseHeader_on_list (tzOffset : Q) (fuel : nat) (advance : bool)
    (pre header rest : Buffer) (its : list Wire.raw_item) :
  length header = 76%nat ->
  Wire.well_formed its ->
  (length its <= fuel)%nat ->
  let this := mkParser (Z.of_nat (length pre))
                (pre ++ header ++ Wire.encode_id_list its ++ rest) in
  let parsed := Wire.parsed_items its (Wire.terminator ++ rest) in
  exists record : Target -> LNKFile,
    (forall t, target (record t) = t)
    /\ parseHeader tzOffset fuel advance this
       = (bind (IDList.getPath_loop parsed []) (fun path =>
            Ok (record (TargetList (IDList.mkList true parsed (Some path))))),
          this).
Proof.
  intros Hlen Hwf Hfuel this parsed.
  rewrite parseHeader_run. cbv zeta. subst this. cbn [offset buffer].
  set (cur := Z.of_nat (length pre)).
  set (buf := pre ++ header ++ Wire.encode_id_list its ++ rest).
  assert (Hbuf : cur + 76 <= Z.of_nat (length buf)).
  { unfold buf, cur. rewrite !length_app. lia. }
  assert (Hcur : 0 <= cur) by (unfold cur; lia).
  unfold readInt32LE, readUInt32LE, readBigInt64LE.
  rewrite !readUIntLE_ok by (simpl; lia). cbn [bind].
  assert (Hbody : slice_from buf (cur + 76) = Wire.encode_id_list its ++ rest).
  { unfold slice_from, buf, cur.
    replace (Z.to_nat (Z.of_nat (length pre) + 76)) with (length (pre ++ header))
      by (rewrite length_app; lia).
    rewrite app_assoc, drop_app_length. reflexivity. }
  rewrite Hbody, parse_well_formed by exact Hwf.
  destruct (Nat.leb_spec (length its) fuel); [|lia]. cbn [bind].
  unfold IDList.getPath. cbn [IDList.items IDList.valid]. fold parsed.
  eexists (fun t => mkFile _ _ _ _ _ _ _ _ _ _ _ _ t).
  split; [intros t; reflexivity|].
  destruct (IDList.getPath_loop parsed []) as [path| |]; reflexivity.
Qed.

(** X17: the header parser reads the path. From any cursor, on any 76
    header bytes (valid or not) followed by an ID list of drive, folder
    and document entries and by any bytes, [parseHeader] returns a record
    and leaves the parser as it was; the target of the record is the list
    with one item per entry, and its cached path is the text of the
    entries in order. *)
Theorem parseHeader_reads_path (tzOffset : Q) (fuel : nat) (advance : bool)
    (pre header rest : Buffer) (entries : list Paths.entry) :
  length header = 76%nat ->
  Forall Paths.entry_ok entries ->
  Wire.well_formed (map Paths.raw_of entries) ->
  (length entries <= fuel)%nat ->
  let this := mkParser (Z.of_nat (length pre))
                (pre ++ header
                 ++ Wire.encode_id_list (map Paths.raw_of entries) ++ rest) in
  exists file its,
    parseHeader tzOffset fuel advance this = (Ok file, this)
    /\ target file
       = TargetList (IDList.mkList true its
                       (Some (concat (map Paths.text_of entries))))
    /\ length its = length entries.
Proof.
  intros Hlen Hok Hwf Hfuel this.
  destruct (parseHeader_on_list tzOffset fuel advance pre header rest
              (map Paths.raw_of entries) Hlen Hwf
              ltac:(rewrite length_map; exact Hfuel))
    as (record & Htarget & Hrun).
  fold this in Hrun. rewrite Hrun.
  rewrite getPath_loop_entries by exact Hok. cbn [bind app].
  eexists. eexists. split; [reflexivity|]. split; [apply Htarget|].
  rewrite length_parsed_items, length_map. reflexivity.
Qed.

Lemma parseHeader_reads_path_witness :
  let this := new_LNKParser
                ([] ++ Wire.minimal_header
                 ++ Wire.encode_id_list (map Paths.raw_of Paths.sample_path) ++ []) in
  exists file its,
    parseHeader 0 3 true this = (Ok file, this)
    /\ target file
       = TargetList (IDList.mkList true its
           (Some (lit "C:" ++ IDList.backslash ++ lit "Users" ++ IDList.backslash
                  ++ lit "notes.txt"))).
Proof.
  assert (Hok : Forall Paths.entry_ok Paths.sample_path).
  { repeat (apply List.Forall_cons; [|]); try apply List.Forall_nil.
    - reflexivity.
    - split; [reflexivity|].
      repeat (apply List.Forall_cons; [discriminate|]). apply List.Forall_nil.
    - split; [reflexivity|]. apply code_unit_forallb. vm_compute. reflexivity. }
  assert (Hwf : Wire.well_formed (map Paths.raw_of Paths.sample_path))
    by reflexivity.
  assert (Hfuel : (length Paths.sample_path <= 3)%nat) by (simpl; constructor).
  assert (Hlen : length Wire.minimal_header = 76%nat) by reflexivity.
  destruct (parseHeader_reads_path 0 3 true [] Wire.minimal_header []
              Paths.sample_path Hlen Hok Hwf Hfuel)
    as (file & its & Hrun & Htarget & _).
  exists file, its. split; [exact Hrun|exact Htarget].
Defined.

(** X18: one item that [getPath] rejects makes the whole header
    unreadable. When [getPath] throws on the items of the ID list behind
    the header, [parseHeader] throws the same value and returns no
    record, although every field of the header was read. *)
Theorem parseHeader_fails_with_getPath (tzOffset : Q) (fuel : nat)
    (advance : bool) (pre header rest : Buffer) (its : list Wire.raw_item)
    (e : error) :
  length header = 76%nat ->
  Wire.well_formed its ->
  (length its <= fuel)%nat ->
  IDList.getPath_loop (Wire.parsed_items its (Wire.terminator ++ rest)) []
  = Throw e ->
  let this := mkParser (Z.of_nat (length pre))
                (pre ++ header ++ Wire.encode_id_list its ++ rest) in
  parseHeader tzOffset fuel advance this = (Throw e, this).
Proof.
  intros Hlen Hwf Hfuel Hthrow this.
  destruct (parseHeader_on_list tzOffset fuel advance pre header rest its
              Hlen Hwf Hfuel) as (record & _ & Hrun).
  fold this in Hrun. rewrite Hrun, Hthrow. reflexivity.
Qed.

Lemma parseHeader_fails_with_getPath_witness :
  let this := new_LNKParser
                ([] ++ Wire.minimal_header
                 ++ Wire.encode_id_list [Samples.drive_item; Samples.zip_item] ++ []) in
  parseHeader 0 2 true this
  = (Throw (ThrownString (lit "Method not implemented")), this).
Proof.
  apply (parseHeader_fails_with_getPath 0 2 true [] Wire.minimal_header []
           [Samples.drive_item; Samples.zip_item]).
  - reflexivity.
  - reflexivity.
  - simpl. constructor.
  - vm_compute. reflexivity.
Defined.

(** X19: what the [advance] flag does. [parseHeader] gives the same
    outcome and leaves the same parser with either value of the flag;
    [readFileTime] ignores it and never moves the cursor;
    [readGUID_IDL] moves the cursor by 16 when it is set, also when fewer
    than 16 bytes were there to read, and returns the same array either
    way. *)
Theorem advance_flag (tzOffset : Q) (fuel : nat) (location : option Z)
    (this : LNKParser) :
  parseHeader tzOffset fuel true this = parseHeader tzOffset fuel false this
  /\ readFileTime tzOffset true location this
     = readFileTime tzOffset false location this
  /\ snd (readFileTime tzOffset true location this) = this
  /\ fst (readGUID_IDL true location this) = fst (readGUID_IDL false location this)
  /\ snd (readGUID_IDL true location this)
     = mkParser (offset this + 16) (buffer this)
  /\ snd (readGUID_IDL false location this) = this.
Proof.
  split; [rewrite !parseHeader_run; reflexivity|].
  destruct this as [cur buf].
  unfold readFileTime, readGUID_IDL, bindM, this_offset, this_buffer, lift,
    set_offset, ret.
  cbn [offset buffer].
  repeat split.
  destruct (readBigInt64LE buf (default cur location)); reflexivity.
Qed.

(** X20: [readGUID_IDL] never throws. At any location that is not
    negative it returns an array, of 11 entries when 16 bytes lie at the
    location and of fewer when the buffer ends before: the read is a
    [slice], which is cut at the end of the buffer, and the missing bytes
    of the three packed fields count as 0. *)
Theorem readGUID_IDL_never_throws (advance : bool) (location : Z)
    (this : LNKParser) :
  0 <= location ->
  exists guid,
    fst (readGUID_IDL advance (Some location) this) = Ok guid
    /\ length guid
       = (3 + (16 `min` (length (buffer this) - Z.to_nat location) - 8))%nat
    /\ (location + 16 <= Z.of_nat (length (buffer this)) -> length guid = 11%nat)
    /\ (Z.of_nat (length (buffer this)) <= location -> guid = [0; 0; 0]).
Proof.
  intros Hloc. destruct this as [cur buf]. cbn [buffer].
  exists (guidFromIDLBytes (array_from (slice buf location (location + 16)))).
  assert (Hlen : length (guidFromIDLBytes
                           (array_from (slice buf location (location + 16))))
                 = (3 + (16 `min` (length buf - Z.to_nat location) - 8))%nat).
  { unfold guidFromIDLBytes, array_from, slice.
    rewrite length_app, length_drop, length_map, length_take, length_drop.
    replace (Z.to_nat (location + 16) - Z.to_nat location)%nat with 16%nat by lia.
    reflexivity. }
  split; [destruct advance; reflexivity|]. split; [exact Hlen|]. split.
  - intros H. rewrite Hlen. lia.
  - intros H. unfold slice. rewrite drop_ge by lia. rewrite take_nil. reflexivity.
Qed.

Lemma readGUID_IDL_never_throws_witness :
  exists guid,
    fst (readGUID_IDL true (Some 70) (new_LNKParser Samples.minimal_shortcut))
    = Ok guid
    /\ length guid = 5%nat.
Proof.
  destruct (readGUID_IDL_never_throws true 70
              (new_LNKParser Samples.minimal_shortcut) ltac:(lia))
    as (guid & Hrun & Hlen & _).
  exists guid. split; [exact Hrun|]. rewrite Hlen. reflexivity.
Defined.

End HeaderEdges.

Section SmallFunctions.
Import Js Util Parser.

(** X21: [hexToChar] prints the low four bits. For every integer,
    negative ones included, the result is the lowercase hex digit of the
    argument modulo 16; reading the digit back gives that value, and the
    result only depends on the argument modulo 16. *)
Theorem hexToChar_digit (num : Z) :
  hexToChar num = Wire.hex_digit (num mod 16)
  /\ Wire.is_lower_hex (hexToChar num) = true
  /\ Wire.hex_value (hexToChar num) = num mod 16
  /\ hexToChar (num + 16) = hexToChar num.
Proof.
  assert (E : forall d, hexToChar d = Wire.hex_digit (d mod 16)).
  { intros d. rewrite hexToChar_low. f_equal. Z.div_mod_to_equations. lia. }
  assert (R : 0 <= num mod 16 < 16) by (apply Z.mod_pos_bound; lia).
  rewrite !E. repeat split.
  - apply is_lower_hex_digit. exact R.
  - apply hex_value_digit. exact R.
  - f_equal. Z.div_mod_to_equations. lia.
Qed.

(** X22: [arrayEquals] decides equality of arrays of numbers: it
    returns true exactly when the two arrays have the same length and the
    same entries, so it is reflexive and does not depend on the order of
    its arguments. *)
Theorem arrayEquals_decides (arr1 arr2 : numbers) :
  (arrayEquals arr1 arr2 = true <-> arr1 = arr2)
  /\ arrayEquals arr1 arr2 = arrayEquals arr2 arr1
  /\ arrayEquals arr1 arr1 = true.
Proof.
  split; [apply arrayEquals_spec|]. split.
  - destruct (arrayEquals arr1 arr2) eqn:E1, (arrayEquals arr2 arr1) eqn:E2;
      try reflexivity.
    + apply arrayEquals_spec in E1. subst arr2.
      rewrite (proj2 (arrayEquals_spec arr1 arr1) eq_refl) in E2. discriminate E2.
    + apply arrayEquals_spec in E2. subst arr2.
      rewrite (proj2 (arrayEquals_spec arr1 arr1) eq_refl) in E1. discriminate E1.
  - apply arrayEquals_spec. reflexivity.
Qed.

End SmallFunctions.

Section ParsedItems.
Import Js Util IDList.

Lemma readUInt16LE_value (buf : Buffer) (offset v : Z) :
  readUInt16LE buf offset = Ok v -> 0 <= offset /\ 0 <= v < 65536.
Proof.
  intros E. apply readUIntLE_Ok_inv in E. destruct E as (H0 & H1 & ->).
  split; [exact H0|].
  pose proof (le_value_range (take 2 (drop (Z.to_nat offset) buf))) as R.
  rewrite length_take, length_drop in R.
  replace (Z.of_nat (2 `min` (length buf - Z.to_nat offset))) with 2 in R by lia.
  exact R.
Qed.

Lemma parse_loop_bytes (fuel : nat) :
  forall (buffer : Buffer) (acc : list LinkTargetIDItem) (o r : Z) locals,
  Forall (fun item => 0 <= itemType item < 256
                      /\ Forall (fun z => 0 <= z < 256) (value item)
                      /\ Z.of_nat (length (value item)) < 65536) acc ->
  parse_loop fuel buffer acc o r = Ok locals ->
  Forall (fun item => 0 <= itemType item < 256
                      /\ Forall (fun z => 0 <= z < 256) (value item)
                      /\ Z.of_nat (length (value item)) < 65536) (l_items locals)
  /\ (length (l_items locals) <= length acc + fuel)%nat
  /\ l_remainingBytes locals <= 2.
Proof.
  induction fuel as [|fuel IH]; intros buffer acc o r locals Hacc H.
  - cbn [parse_loop] in H. destruct (Z.ltb_spec 2 r); [discriminate H|].
    apply Ok_inj in H. subst locals. cbn [l_items l_remainingBytes].
    split; [exact Hacc|]. split; lia.
  - rewrite parse_loop_S in H. destruct (Z.ltb_spec 2 r).
    + destruct (readUInt16LE buffer o) as [size| |] eqn:E; try discriminate H.
      cbn [bind] in H. apply readUInt16LE_value in E. destruct E as [Ho Hsize].
      apply IH in H.
      * rewrite length_app in H. cbn [length] in H.
        destruct H as (H1 & H2 & H3). split; [exact H1|]. split; lia.
      * apply Forall_app. split; [exact Hacc|].
        apply List.Forall_cons; [|apply List.Forall_nil].
        unfold new_LinkTargetIDItem. cbn [itemType value]. split; [|split].
        -- destruct (at_ buffer (o + 2)) as [b|]; cbn [fmap option_fmap option_map default].
           ++ apply byte_to_Z_range.
           ++ unfold RootEntry. lia.
        -- apply array_from_range.
        -- unfold array_from, slice. rewrite length_map, length_take. lia.
    + apply Ok_inj in H. subst locals. cbn [l_items l_remainingBytes].
      split; [exact Hacc|]. split; lia.
Qed.

(** X23: what [parse] returns on any buffer. Whenever it returns a
    list, the list is marked valid and has no cached path; it holds at
    most one item per loop turn; the type of every item is a byte (the
    byte read, or [RootEntry] when the buffer ended before the type byte);
    the value of every item holds bytes only, at most 65535 of them. *)
Theorem parse_items_are_bytes (fuel : nat) (buffer : Buffer)
    (list : LinkTargetIDList) :
  parse fuel buffer = Ok list ->
  valid list = true
  /\ cachedPath list = None
  /\ (length (items list) <= fuel)%nat
  /\ Forall (fun item => 0 <= itemType item < 256
                         /\ Forall (fun z => 0 <= z < 256) (value item)
                         /\ Z.of_nat (length (value item)) < 65536) (items list).
Proof.
  unfold parse. destruct (readUIntLE buffer 0 2) as [size| |]; try discriminate.
  cbn [bind]. destruct (parse_loop fuel buffer [] 2 size) as [locals| |] eqn:E;
    try discriminate.
  cbn [bind]. intros H. apply Ok_inj in H. subst list.
  cbn [valid cachedPath items new_LinkTargetIDList].
  apply parse_loop_bytes in E; [|constructor].
  destruct E as (H1 & H2 & _). cbn [length] in H2. auto.
Qed.

Lemma parse_items_are_bytes_witness :
  exists list,
    parse 2 (Wire.encode_id_list Samples.two_items) = Ok list
    /\ (length (items list) <= 2)%nat.
Proof.
  assert (H : parse 2 (Wire.encode_id_list Samples.two_items)
              = Ok (mkList true
                      (Wire.parsed_items Samples.two_items Wire.terminator) None))
    by (vm_compute; reflexivity).
  eexists. split; [exact H|].
  exact (proj1 (proj2 (proj2 (parse_items_are_bytes _ _ _ H)))).
Defined.

End ParsedItems.

Section HeaderFrame.
Import Js Util Parser.

Lemma readUIntLE_in_header (pre header body : Buffer) (k : Z) (n : nat) :
  0 <= k -> k + Z.of_nat n <= Z.of_nat (length header) ->
  readUIntLE (pre ++ header ++ body) (Z.of_nat (length pre) + k) n
  = Ok (le_value (take n (drop (Z.to_nat k) header))).
Proof.
  intros Hk Hn. rewrite readUIntLE_ok by (rewrite ?length_app; lia).
  replace (Z.to_nat (Z.of_nat (length pre) + k))
    with (length pre + Z.to_nat k)%nat by lia.
  rewrite <- drop_drop, drop_app_length.
  rewrite drop_app_le by lia.
  rewrite take_app_le by (rewrite length_drop; lia). reflexivity.
Qed.

Lemma slice_in_header (pre header body : Buffer) (k n : Z) :
  0 <= k -> 0 <= n -> k + n <= Z.of_nat (length header) ->
  slice (pre ++ header ++ body) (Z.of_nat (length pre) + k)
        (Z.of_nat (length pre) + k + n)
  = take (Z.to_nat n) (drop (Z.to_nat k) header).
Proof.
  intros Hk Hn Hlen. unfold slice.
  replace (Z.to_nat (Z.of_nat (length pre) + k + n)
           - Z.to_nat (Z.of_nat (length pre) + k))%nat with (Z.to_nat n) by lia.
  replace (Z.to_nat (Z.of_nat (length pre) + k))
    with (length pre + Z.to_nat k)%nat by lia.
  rewrite <- drop_drop, drop_app_length.
  rewrite drop_app_le by lia.
  rewrite take_app_le by (rewrite length_drop; lia). reflexivity.
Qed.

Lemma at_in_header (pre header body : Buffer) (k : Z) :
  0 <= k < Z.of_nat (length header) ->
  at_ (pre ++ header ++ body) (Z.of_nat (length pre) + k)
  = header !! Z.to_nat k.
Proof.
  intros Hk. unfold at_.
  destruct (Z.ltb_spec (Z.of_nat (length pre) + k) 0); [lia|].
  replace (Z.to_nat (Z.of_nat (length pre) + k))
    with (length pre + Z.to_nat k)%nat by lia.
  rewrite lookup_app_r by lia.
  replace (length pre + Z.to_nat k - length pre)%nat with (Z.to_nat k) by lia.
  apply lookup_app_l. lia.
Qed.

(** X24: the header and the ID list are read apart. For 76 header
    bytes there is one record, the same wherever the header lies in the
    buffer and whatever follows it, such that [parseHeader] returns this
    record with its target filled in; and the target, or the thrown
    value, is that of [LinkTargetIDList.parse] and [getPath] on the bytes
    behind the header alone, whatever the header holds. *)
Theorem parseHeader_frame (tzOffset : Q) (header : Buffer) :
  length header = 76%nat ->
  exists record : Target -> LNKFile,
    (forall t, target (record t) = t)
    /\ forall (fuel : nat) (advance : bool) (pre body : Buffer),
         fst (parseHeader tzOffset fuel advance
                (mkParser (Z.of_nat (length pre)) (pre ++ header ++ body)))
         = bind (IDList.parse fuel body) (fun list =>
           bind (fst (IDList.getPath list)) (fun _ =>
           Ok (record (TargetList (snd (IDList.getPath list)))))).
Proof.
  intros Hlen.
  eexists (fun t => mkFile _ _ _ _ _ _ _ _ _ _ _ _ t).
  split; [intros t; reflexivity|].
  intros fuel advance pre body.
  rewrite parseHeader_run. cbv zeta. cbn [fst offset buffer].
  unfold readInt32LE, readUInt32LE, readBigInt64LE.
  rewrite !readUIntLE_in_header by (rewrite ?Hlen; simpl; lia). cbn [bind].
  rewrite (slice_in_header pre header body 4 16) by (rewrite ?Hlen; lia).
  rewrite (at_in_header pre header body 64) by (rewrite Hlen; lia).
  replace (Z.of_nat (length pre) + 64 + 1) with (Z.of_nat (length pre) + 65) by lia.
  rewrite (at_in_header pre header body 65) by (rewrite Hlen; lia).
  assert (Hbody : slice_from (pre ++ header ++ body) (Z.of_nat (length pre) + 76)
                  = body).
  { unfold slice_from.
    replace (Z.to_nat (Z.of_nat (length pre) + 76)) with (length (pre ++ header))
      by (rewrite length_app; lia).
    rewrite app_assoc, drop_app_length. reflexivity. }
  rewrite Hbody.
  destruct (IDList.parse fuel body) as [list| |]; cbn [bind]; [|reflexivity..].
  destruct (fst (IDList.getPath list)); cbn [bind]; reflexivity.
Qed.

Lemma parseHeader_frame_witness :
  exists record : Target -> LNKFile,
    fst (parseHeader 0 0 true
           (mkParser (Z.of_nat (length [xff]))
                     ([xff] ++ Wire.minimal_header ++ Wire.empty_id_list)))
    = Ok (record (TargetList (IDList.mkList true [] (Some [])))).
Proof.
  destruct (parseHeader_frame 0 Wire.minimal_header eq_refl) as (record & _ & H).
  exists record. rewrite H. reflexivity.
Defined.

End HeaderFrame.

Section Monotone.
Import Js Util.
Local Open Scope Q_scope.

Lemma round_half_even_comp (a b : Q) :
  a == b -> round_half_even a = round_half_even b.
Proof.
  intros E. unfold round_half_even. rewrite (Qfloor_comp a b E).
  assert (C : Qcompare (a - inject_Z (Qfloor b)) (1 # 2)
              = Qcompare (b - inject_Z (Qfloor b)) (1 # 2)).
  { apply Qcompare_comp; [rewrite E|]; reflexivity. }
  rewrite C. reflexivity.
Qed.

Lemma round_half_even_bounds (a : Q) :
  (Qfloor a <= round_half_even a <= Qfloor a + 1)%Z.
Proof.
  unfold round_half_even.
  destruct (Qcompare (a - inject_Z (Qfloor a)) (1 # 2));
    [destruct (Z.even (Qfloor a))| |]; lia.
Qed.

Lemma round_half_even_mono (a b : Q) :
  a <= b -> (round_half_even a <= round_half_even b)%Z.
Proof.
  intros Hab. pose proof (Qfloor_resp_le a b Hab) as Hf.
  destruct (Z.eq_dec (Qfloor a) (Qfloor b)) as [E|N].
  - unfold round_half_even. rewrite <- E.
    set (f := Qfloor a) in *.
    destruct (Qcompare (a - inject_Z f) (1 # 2)) eqn:Ca;
      destruct (Qcompare (b - inject_Z f) (1 # 2)) eqn:Cb;
      try (destruct (Z.even f)); try lia; exfalso;
      first [apply (proj2 (Qeq_alt _ _)) in Ca | apply (proj2 (Qlt_alt _ _)) in Ca
            | apply (proj2 (Qgt_alt _ _)) in Ca];
      first [apply (proj2 (Qeq_alt _ _)) in Cb | apply (proj2 (Qlt_alt _ _)) in Cb
            | apply (proj2 (Qgt_alt _ _)) in Cb];
      lra.
  - pose proof (round_half_even_bounds a). pose proof (round_half_even_bounds b).
    lia.
Qed.

Lemma frac_lt_pow2 (k N : Z) (d : positive) :
  (if (0 <=? k)%Z then (Zpos d * 2 ^ k <=? N)%Z
   else (Zpos d <=? N * 2 ^ (- k))%Z) = false ->
  N # d < 2 ^ k.
Proof.
  destruct (Z.leb_spec 0 k) as [Hk|Hk]; intros H; apply Z.leb_gt in H.
  - assert (E : 2 ^ k == inject_Z (2 ^ k))
      by (symmetry; apply (Zpower_Qpower 2); lia).
    rewrite E. unfold Qlt. simpl. lia.
  - replace k with (- (- k))%Z at 1 by lia. rewrite Qpower_opp.
    assert (E : 2 ^ (- k) == inject_Z (2 ^ (- k)))
      by (symmetry; apply (Zpower_Qpower 2); lia).
    rewrite E.
    assert (Hp : (0 < 2 ^ (- k))%Z) by (apply Z.pow_pos_nonneg; lia).
    destruct (2 ^ (- k))%Z as [|p|p] eqn:Ep; try lia.
    unfold Qlt, Qinv. simpl. lia.
Qed.

Lemma ilog2_lt (x : Q) : ~ x == 0 -> Qabs x < 2 ^ (ilog2 x + 1).
Proof.
  intros Hx. destruct x as [n d].
  assert (Hn : n <> 0%Z).
  { intros ->. apply Hx. reflexivity. }
  unfold ilog2. cbn [Qnum Qden Qabs].
  set (N := Z.abs n). assert (HN : (0 < N)%Z) by (subst N; lia).
  pose proof (Z.log2_spec N HN) as [Ha1 Ha2].
  pose proof (Z.log2_spec (Zpos d) ltac:(lia)) as [Hb1 Hb2].
  pose proof (Z.log2_nonneg N) as Ha0. pose proof (Z.log2_nonneg (Zpos d)) as Hb0.
  set (a := Z.log2 N) in *. set (b := Z.log2 (Zpos d)) in *.
  destruct (if (0 <=? a - b)%Z then (Z.pos d * 2 ^ (a - b) <=? N)%Z
            else (Z.pos d <=? N * 2 ^ (- (a - b)))%Z) eqn:R.
  - apply frac_lt_pow2.
    destruct (Z.leb_spec 0 (a - b + 1)) as [Hk|Hk]; apply Z.leb_gt.
    + assert (E : (2 ^ (Z.succ a) = 2 ^ b * 2 ^ (a - b + 1))%Z).
      { rewrite <- Z.pow_add_r by lia. f_equal. lia. }
      assert (0 < 2 ^ (a - b + 1))%Z by (apply Z.pow_pos_nonneg; lia).
      nia.
    + assert (E : (2 ^ b = 2 ^ (Z.succ a) * 2 ^ (- (a - b + 1)))%Z).
      { rewrite <- Z.pow_add_r by lia. f_equal. lia. }
      assert (0 < 2 ^ (- (a - b + 1)))%Z by (apply Z.pow_pos_nonneg; lia).
      nia.
  - replace (a - b - 1 + 1)%Z with (a - b)%Z by lia.
    apply frac_lt_pow2. exact R.
Qed.

Lemma pow2_lt_inv (a b : Z) : 2 ^ a < 2 ^ b -> (a < b)%Z.
Proof.
  intros H. destruct (Z.lt_ge_cases a b) as [|Hge]; [assumption|].
  pose proof (pow2_le b a Hge). lra.
Qed.

(** [ilog2] grows with the magnitude. *)
Lemma ilog2_mono (x y : Q) :
  ~ x == 0 -> ~ y == 0 -> Qabs x <= Qabs y -> (ilog2 x <= ilog2 y)%Z.
Proof.
  intros Hx Hy Hxy.
  pose proof (ilog2_lower x Hx). pose proof (ilog2_lt y Hy).
  assert (2 ^ ilog2 x < 2 ^ (ilog2 y + 1)) by lra.
  apply pow2_lt_inv in H1. lia.
Qed.


Lemma fl_zero (x : Q) : x == 0 -> fl x == 0.
Proof.
  intros E. unfold fl.
  assert (H : Qeq_bool (Qred x) 0 = true).
  { apply Qeq_eq_bool. transitivity x; [apply Qred_correct|exact E]. }
  rewrite H. reflexivity.
Qed.

Lemma fl_nonzero (x : Q) :
  ~ x == 0 ->
  fl x == inject_Z (round_half_even
                      (x * 2 ^ (- Z.max (ilog2 (Qred x) - 52) (-1074))))
          * 2 ^ Z.max (ilog2 (Qred x) - 52) (-1074).
Proof.
  intros Hx. unfold fl.
  assert (H : Qeq_bool (Qred x) 0 = false).
  { destruct (Qeq_bool (Qred x) 0) eqn:E; [|reflexivity].
    apply Qeq_bool_eq in E. exfalso. apply Hx.
    transitivity (Qred x); [symmetry; apply Qred_correct|exact E]. }
  rewrite H. rewrite scale2_mult.
  rewrite (round_half_even_comp
             (scale2 (Qred x) (- Z.max (ilog2 (Qred x) - 52) (-1074)))
             (x * 2 ^ (- Z.max (ilog2 (Qred x) - 52) (-1074)))).
  - reflexivity.
  - rewrite scale2_mult. apply Qmult_comp; [apply Qred_correct|reflexivity].
Qed.

Lemma ilog2_Qred_bounds (x : Q) :
  ~ x == 0 ->
  2 ^ ilog2 (Qred x) <= Qabs x /\ Qabs x < 2 ^ (ilog2 (Qred x) + 1).
Proof.
  intros Hx.
  assert (Hr : ~ Qred x == 0).
  { intros E. apply Hx. transitivity (Qred x); [symmetry; apply Qred_correct|exact E]. }
  pose proof (ilog2_lower _ Hr) as H1. pose proof (ilog2_lt _ Hr) as H2.
  rewrite (Qabs_wd _ _ (Qred_correct x)) in H1, H2. split; assumption.
Qed.

Lemma unscale_le (x g : Q) (e : Z) : x <= g * 2 ^ e -> x * 2 ^ (- e) <= g.
Proof.
  intros H. pose proof (pow2_pos (- e)) as Hp.
  assert (E : g == g * 2 ^ e * 2 ^ (- e)).
  { rewrite <- Qmult_assoc, (Qmult_comm (2 ^ e)), pow2_cancel, Qmult_1_r.
    reflexivity. }
  rewrite E. apply Qmult_le_compat_r; [exact H|lra].
Qed.

Lemma unscale_ge (x g : Q) (e : Z) : g * 2 ^ e <= x -> g <= x * 2 ^ (- e).
Proof.
  intros H. pose proof (pow2_pos (- e)) as Hp.
  assert (E : g == g * 2 ^ e * 2 ^ (- e)).
  { rewrite <- Qmult_assoc, (Qmult_comm (2 ^ e)), pow2_cancel, Qmult_1_r.
    reflexivity. }
  rewrite E. apply Qmult_le_compat_r; [exact H|lra].
Qed.

(** A value of the grid of [x] above [x] is above [fl x], and one below
    is below. *)
Lemma fl_le_grid (x : Q) (m : Z) :
  ~ x == 0 ->
  x <= inject_Z m * 2 ^ Z.max (ilog2 (Qred x) - 52) (-1074) ->
  fl x <= inject_Z m * 2 ^ Z.max (ilog2 (Qred x) - 52) (-1074).
Proof.
  intros Hx H. rewrite (fl_nonzero x Hx).
  set (e := Z.max (ilog2 (Qred x) - 52) (-1074)) in *.
  apply Qmult_le_compat_r; [|apply Qlt_le_weak, pow2_pos].
  rewrite <- Zle_Qle.
  pose proof (round_half_even_mono _ _ (unscale_le _ _ _ H)) as M.
  rewrite (round_half_even_int (inject_Z m) m) in M by reflexivity. exact M.
Qed.

Lemma fl_ge_grid (x : Q) (m : Z) :
  ~ x == 0 ->
  inject_Z m * 2 ^ Z.max (ilog2 (Qred x) - 52) (-1074) <= x ->
  inject_Z m * 2 ^ Z.max (ilog2 (Qred x) - 52) (-1074) <= fl x.
Proof.
  intros Hx H. rewrite (fl_nonzero x Hx).
  set (e := Z.max (ilog2 (Qred x) - 52) (-1074)) in *.
  apply Qmult_le_compat_r; [|apply Qlt_le_weak, pow2_pos].
  rewrite <- Zle_Qle.
  pose proof (round_half_even_mono _ _ (unscale_ge _ _ _ H)) as M.
  rewrite (round_half_even_int (inject_Z m) m) in M by reflexivity. exact M.
Qed.

Lemma pow2_split (k e : Z) :
  (e <= k)%Z -> 2 ^ k == inject_Z (2 ^ (k - e)) * 2 ^ e.
Proof.
  intros H. rewrite (Zpower_Qpower 2 (k - e)) by lia.
  change (inject_Z 2) with 2. rewrite <- Qpower_plus by discriminate.
  replace (k - e + e)%Z with k by lia. reflexivity.
Qed.

Lemma fl_nonneg (x : Q) : 0 <= x -> 0 <= fl x.
Proof.
  intros H. destruct (Qeq_dec x 0) as [E|N].
  - rewrite (fl_zero x E). lra.
  - pose proof (fl_ge_grid x 0 N) as G.
    change (inject_Z 0) with 0 in G. rewrite Qmult_0_l in G. apply G, H.
Qed.

Lemma fl_nonpos (x : Q) : x <= 0 -> fl x <= 0.
Proof.
  intros H. destruct (Qeq_dec x 0) as [E|N].
  - rewrite (fl_zero x E). lra.
  - pose proof (fl_le_grid x 0 N) as G.
    change (inject_Z 0) with 0 in G. rewrite Qmult_0_l in G. apply G, H.
Qed.


Lemma pow2_split_opp (k e : Z) :
  (e <= k)%Z -> - 2 ^ k == inject_Z (- 2 ^ (k - e)) * 2 ^ e.
Proof.
  intros H. rewrite inject_Z_opp, (pow2_split k e H). ring.
Qed.

Lemma same_grid_le (x y : Q) (e : Z) :
  x <= y ->
  inject_Z (round_half_even (x * 2 ^ (- e))) * 2 ^ e
  <= inject_Z (round_half_even (y * 2 ^ (- e))) * 2 ^ e.
Proof.
  intros H. apply Qmult_le_compat_r; [|apply Qlt_le_weak, pow2_pos].
  rewrite <- Zle_Qle. apply round_half_even_mono.
  apply Qmult_le_compat_r; [exact H|apply Qlt_le_weak, pow2_pos].
Qed.

Lemma fl_mono_pos (x y : Q) : 0 < x -> x <= y -> fl x <= fl y.
Proof.
  intros Hpos Hxy.
  assert (Hx : ~ x == 0) by (intros E; lra).
  assert (Hy : ~ y == 0) by (intros E; lra).
  destruct (ilog2_Qred_bounds x Hx) as [Bx1 Bx2].
  destruct (ilog2_Qred_bounds y Hy) as [By1 By2].
  rewrite Qabs_pos in Bx1, Bx2, By1, By2 by lra.
  set (lx := ilog2 (Qred x)) in *. set (ly := ilog2 (Qred y)) in *.
  assert (Hl : (lx <= ly)%Z).
  { assert (H : 2 ^ lx < 2 ^ (ly + 1)) by lra. apply pow2_lt_inv in H. lia. }
  destruct (Z.eq_dec (Z.max (lx - 52) (-1074)) (Z.max (ly - 52) (-1074)))
    as [E|N].
  - rewrite (fl_nonzero x Hx), (fl_nonzero y Hy). fold lx ly. rewrite <- E.
    apply same_grid_le, Hxy.
  - assert (Hk : (lx + 1 <= ly)%Z) by lia.
    pose proof (pow2_le _ _ Hk) as Hp.
    apply Qle_trans with (2 ^ ly).
    + rewrite (pow2_split ly (Z.max (lx - 52) (-1074))) by lia.
      apply fl_le_grid; [exact Hx|]. fold lx.
      rewrite <- (pow2_split ly (Z.max (lx - 52) (-1074))) by lia. lra.
    + rewrite (pow2_split ly (Z.max (ly - 52) (-1074))) by lia.
      apply fl_ge_grid; [exact Hy|]. fold ly.
      rewrite <- (pow2_split ly (Z.max (ly - 52) (-1074))) by lia. lra.
Qed.

Lemma fl_mono_neg (x y : Q) : y < 0 -> x <= y -> fl x <= fl y.
Proof.
  intros Hneg Hxy.
  assert (Hx : ~ x == 0) by (intros E; lra).
  assert (Hy : ~ y == 0) by (intros E; lra).
  destruct (ilog2_Qred_bounds x Hx) as [Bx1 Bx2].
  destruct (ilog2_Qred_bounds y Hy) as [By1 By2].
  rewrite Qabs_neg in Bx1, Bx2, By1, By2 by lra.
  set (lx := ilog2 (Qred x)) in *. set (ly := ilog2 (Qred y)) in *.
  assert (Hl : (ly <= lx)%Z).
  { assert (H : 2 ^ ly < 2 ^ (lx + 1)) by lra. apply pow2_lt_inv in H. lia. }
  destruct (Z.eq_dec (Z.max (lx - 52) (-1074)) (Z.max (ly - 52) (-1074)))
    as [E|N].
  - rewrite (fl_nonzero x Hx), (fl_nonzero y Hy). fold lx ly. rewrite <- E.
    apply same_grid_le, Hxy.
  - assert (Hk : (ly + 1 <= lx)%Z) by lia.
    pose proof (pow2_le _ _ Hk) as Hp.
    apply Qle_trans with (- 2 ^ lx).
    + rewrite (pow2_split_opp lx (Z.max (lx - 52) (-1074))) by lia.
      apply fl_le_grid; [exact Hx|]. fold lx.
      rewrite <- (pow2_split_opp lx (Z.max (lx - 52) (-1074))) by lia. lra.
    + rewrite (pow2_split_opp lx (Z.max (ly - 52) (-1074))) by lia.
      apply fl_ge_grid; [exact Hy|]. fold ly.
      rewrite <- (pow2_split_opp lx (Z.max (ly - 52) (-1074))) by lia. lra.
Qed.

(** Rounding to binary64 keeps the order. *)
Lemma fl_mono (x y : Q) : x <= y -> fl x <= fl y.
Proof.
  intros Hxy. destruct (Qlt_le_dec 0 x) as [Hpos|Hx].
  - apply fl_mono_pos; assumption.
  - destruct (Qlt_le_dec y 0) as [Hneg|Hy].
    + apply fl_mono_neg; assumption.
    + apply Qle_trans with 0; [apply fl_nonpos|apply fl_nonneg]; assumption.
Qed.

Lemma trunc_mono (x y : Q) : x <= y -> (trunc x <= trunc y)%Z.
Proof.
  intros Hxy. unfold trunc.
  destruct (Qle_bool 0 x) eqn:Ex, (Qle_bool 0 y) eqn:Ey.
  - apply Qfloor_resp_le, Hxy.
  - apply Qle_bool_iff in Ex.
    assert (~ 0 <= y) by (rewrite <- Qle_bool_iff, Ey; discriminate). lra.
  - apply Qle_bool_iff in Ey.
    assert (Hx : ~ 0 <= x) by (rewrite <- Qle_bool_iff, Ex; discriminate).
    apply Z.le_trans with 0%Z.
    + change 0%Z with (Qceiling 0). apply Qceiling_resp_le. lra.
    + change 0%Z with (Qfloor 0). apply Qfloor_resp_le, Ey.
  - apply Qceiling_resp_le, Hxy.
Qed.


Lemma new_Date_Some (value : Q) (v : Z) : new_Date value = Some v -> v = trunc value.
Proof.
  unfold new_Date. destruct (Qle_bool (Qabs value) (inject_Z 8640000000000000));
    [|discriminate]. intros E. injection E as <-. reflexivity.
Qed.

(** The number handed to [new Date] grows with the tick count. *)
Lemma time_value_mono (tzOffset a b : Q) :
  a <= b ->
  fsub (fsub (fdiv a (inject_Z 10000)) literal_116444736e5)
       (fmul (fmul tzOffset (inject_Z 60)) (inject_Z 1000))
  <= fsub (fsub (fdiv b (inject_Z 10000)) literal_116444736e5)
          (fmul (fmul tzOffset (inject_Z 60)) (inject_Z 1000)).
Proof.
  intros H. unfold fsub, fdiv.
  apply fl_mono. apply Qplus_le_compat; [|apply Qle_refl].
  apply fl_mono. apply Qplus_le_compat; [|apply Qle_refl].
  apply fl_mono. unfold Qdiv. apply Qmult_le_compat_r; [exact H|discriminate].
Qed.

Lemma dateFromFILETIME_Some (tzOffset a : Q) (v : Z) :
  dateFromFILETIME tzOffset a = Some v ->
  v = trunc (fsub (fsub (fdiv a (inject_Z 10000)) literal_116444736e5)
                  (fmul (fmul tzOffset (inject_Z 60)) (inject_Z 1000))).
Proof. unfold dateFromFILETIME. apply new_Date_Some. Qed.

Lemma dateFromFILETIME_mono (tz t1 t2 : Z) (v1 v2 : Z) :
  (t1 <= t2)%Z ->
  dateFromFILETIME (inject_Z tz) (Number_of_BigInt t1) = Some v1 ->
  dateFromFILETIME (inject_Z tz) (Number_of_BigInt t2) = Some v2 ->
  (v1 <= v2)%Z.
Proof.
  intros H E1 E2.
  rewrite (dateFromFILETIME_Some _ _ _ E1), (dateFromFILETIME_Some _ _ _ E2).
  apply trunc_mono, time_value_mono. unfold Number_of_BigInt. apply fl_mono.
  rewrite <- Zle_Qle. exact H.
Qed.

(** X25: later tick counts never give earlier dates. For two 64-bit
    tick counts read in the same zone (an offset of a whole number of at
    most 1440 minutes), both dates are valid; if the first tick count is
    not above the second, the first time value is not above the second,
    although every step is rounded; and the difference of the two time
    values is within 2.6 ms of the difference of the tick counts divided
    by 10,000. *)
Theorem dateFromFILETIME_monotone (t1 t2 tz : Z) :
  (- 2 ^ 63 <= t1)%Z -> (t1 <= t2)%Z -> (t2 < 2 ^ 63)%Z -> (Z.abs tz <= 1440)%Z ->
  exists v1 v2 : Z,
    dateFromFILETIME (inject_Z tz) (Number_of_BigInt t1) = Some v1
    /\ dateFromFILETIME (inject_Z tz) (Number_of_BigInt t2) = Some v2
    /\ (v1 <= v2)%Z
    /\ Qabs (inject_Z (v2 - v1) - inject_Z (t2 - t1) / inject_Z 10000) < 26 # 10.
Proof.
  intros Hlo Hle Hhi Htz.
  destruct (dateFromFILETIME_close t1 tz ltac:(lia) Htz) as (v1 & E1 & C1).
  destruct (dateFromFILETIME_close t2 tz ltac:(lia) Htz) as (v2 & E2 & C2).
  exists v1, v2. split; [exact E1|]. split; [exact E2|]. split.
  - exact (dateFromFILETIME_mono tz t1 t2 v1 v2 Hle E1 E2).
  - apply Qabs_Qlt_condition in C1. apply Qabs_Qlt_condition in C2.
    set (q1 := inject_Z t1 / inject_Z 10000) in *.
    set (q2 := inject_Z t2 / inject_Z 10000) in *.
    assert (D1 : q1 == inject_Z t1 * (1 # 10000)) by reflexivity.
    assert (D2 : q2 == inject_Z t2 * (1 # 10000)) by reflexivity.
    assert (D : inject_Z (t2 - t1) / inject_Z 10000 == q2 - q1).
    { rewrite D1, D2. unfold Z.sub. rewrite inject_Z_plus, inject_Z_opp.
      unfold Qdiv. change (/ inject_Z 10000) with (1 # 10000). ring. }
    assert (V : inject_Z (v2 - v1) == inject_Z v2 - inject_Z v1).
    { unfold Z.sub. rewrite inject_Z_plus, inject_Z_opp. ring. }
    apply Qabs_Qlt_condition. rewrite D, V. lra.
Qed.

Lemma dateFromFILETIME_monotone_witness :
  exists v1 v2 : Z,
    dateFromFILETIME (inject_Z 0) (Number_of_BigInt 4999) = Some v1
    /\ dateFromFILETIME (inject_Z 0) (Number_of_BigInt 5000) = Some v2
    /\ (v1 <= v2)%Z.
Proof.
  destruct (dateFromFILETIME_monotone 4999 5000 0) as (v1 & v2 & E1 & E2 & H & _).
  - change (2 ^ 63)%Z with 9223372036854775808%Z. lia.
  - lia.
  - change (2 ^ 63)%Z with 9223372036854775808%Z. lia.
  - simpl. lia.
  - exists v1, v2. split; [exact E1|]. split; [exact E2|exact H].
Defined.

End Monotone.

Section UserDirectories.
Import Js Util IDList.

(** C6: a [UserDirectory] item is decided by the four characters read at
    offset 3 of its value. With "CF\0\0" [getPath] throws
    'Method not implemented' and the list object is left as it was (no
    path is stored or returned). With "CFSF" the path so far is extended
    by "%USERPROFILE%\", the NUL-terminated name at offset 21 and "\",
    and the loop goes on with it: [getPath] returns, and stores in
    [cachedPath], this extended path followed by the path of the items
    behind it, the extended path itself when the item is the last one; a
    throw of an item behind it is the throw of [getPath]. With anything
    else [getPath] throws 'Invalid signature!'. *)
Theorem userDirectory_by_signature (this : LinkTargetIDList)
    (before after : list LinkTargetIDItem) (item : LinkTargetIDItem)
    (path : jsstring) :
  items this = before ++ item :: after ->
  itemType item = UserDirectory ->
  getPath_loop before [] = Ok path ->
  let signature := readString (value item) 3 4 in
  let extended := path ++ lit "%USERPROFILE%" ++ backslash
                       ++ readCString (value item) 21 ++ backslash in
  (signature = lit "CF" ++ [0; 0] ->
     getPath this = (Throw (ThrownString (lit "Method not implemented")), this))
  /\ (signature = lit "CFSF" ->
       getPath_loop (items this) [] = getPath_loop after extended
       /\ (after = [] ->
             getPath this
             = (Ok extended, mkList (valid this) (items this) (Some extended)))
       /\ (forall rest, getPath_loop after [] = Ok rest ->
             getPath this
             = (Ok (extended ++ rest),
                mkList (valid this) (items this) (Some (extended ++ rest))))
       /\ (forall e, getPath_loop after [] = Throw e ->
             getPath this = (Throw e, this)))
  /\ (signature <> lit "CF" ++ [0; 0] -> signature <> lit "CFSF" ->
       getPath this = (Throw (ThrownString (lit "Invalid signature!")), this)).
Proof.
  intros Hitems Hty Hbefore signature extended.
  assert (Hloop : getPath_loop (items this) []
                  = bind (getPath_item path item) (getPath_loop after)).
  { rewrite Hitems, getPath_loop_app, Hbefore. reflexivity. }
  assert (Hitem : getPath_item path item =
    if bool_decide (signature = lit "CF" ++ [0; 0]) then
      Throw (ThrownString (lit "Method not implemented"))
    else if bool_decide (signature = lit "CFSF") then Ok extended
    else Throw (ThrownString (lit "Invalid signature!"))).
  { unfold getPath_item. rewrite Hty. reflexivity. }
  split; [|split].
  - intros Hsig. unfold getPath. rewrite Hloop, Hitem.
    rewrite bool_decide_eq_true_2 by exact Hsig. reflexivity.
  - intros Hsig.
    assert (Hgo : getPath_loop (items this) [] = getPath_loop after extended).
    { rewrite Hloop, Hitem.
      rewrite bool_decide_eq_false_2 by (rewrite Hsig; discriminate).
      rewrite bool_decide_eq_true_2 by exact Hsig. reflexivity. }
    split; [exact Hgo|]. unfold getPath. rewrite Hgo. split; [|split].
    + intros ->. reflexivity.
    + intros rest Hrest. rewrite getPath_loop_from, Hrest. reflexivity.
    + intros e He. rewrite getPath_loop_from, He. reflexivity.
  - intros Hn1 Hn2. unfold getPath. rewrite Hloop, Hitem.
    rewrite !bool_decide_eq_false_2 by assumption. reflexivity.
Qed.

Lemma userDirectory_by_signature_witness :
  let zip := mkList true [Samples.c_drive; Samples.zip_contents] None in
  let user := mkList true [Samples.c_drive; Samples.desktop] None in
  let profile := lit "C:" ++ backslash ++ lit "%USERPROFILE%" ++ backslash
                 ++ lit "Desktop" ++ backslash in
  getPath_loop [Samples.c_drive] [] = Ok (lit "C:" ++ backslash)
  /\ readString (value Samples.zip_contents) 3 4 = lit "CF" ++ [0; 0]
  /\ getPath zip = (Throw (ThrownString (lit "Method not implemented")), zip)
  /\ readString (value Samples.desktop) 3 4 = lit "CFSF"
  /\ getPath user
     = (Ok profile,
        mkList true [Samples.c_drive; Samples.desktop] (Some profile)).
Proof.
  cbv zeta.
  assert (Hpre : getPath_loop [Samples.c_drive] [] = Ok (lit "C:" ++ backslash))
    by reflexivity.
  assert (Hzip : readString (value Samples.zip_contents) 3 4 = lit "CF" ++ [0; 0])
    by reflexivity.
  assert (Huser : readString (value Samples.desktop) 3 4 = lit "CFSF")
    by reflexivity.
  split; [exact Hpre|]. split; [exact Hzip|]. split.
  - exact (proj1 (userDirectory_by_signature
                    (mkList true [Samples.c_drive; Samples.zip_contents] None)
                    [Samples.c_drive] [] Samples.zip_contents _
                    eq_refl eq_refl Hpre) Hzip).
  - split; [exact Huser|].
    exact (proj1 (proj2 (proj1 (proj2 (userDirectory_by_signature
                    (mkList true [Samples.c_drive; Samples.desktop] None)
                    [Samples.c_drive] [] Samples.desktop _
                    eq_refl eq_refl Hpre)) Huser)) eq_refl).
Defined.

End UserDirectories.
